(** * Expression calculator: shunting-yard parser and postfix evaluator

    A shallow embedding of [expressioncalculator.c] and the properties of
    its two core functions, [infix_to_postfix] and [evaluate_postfix].

    Conventions of the embedding.
    - A C string is the list of its characters; a NUL character ends it, as
      the loop test [while (expr[i])] does.
    - A [long long] is a [Z] in the range [LLONG_MIN .. LLONG_MAX].  C leaves
      signed overflow undefined; the embedding fixes what the usual LP64
      two's-complement targets do: [+], [-], [*], unary [-] and [llabs] wrap
      around modulo [2^64].  The quotient [LLONG_MIN / -1] has no 64-bit
      value at all (the x86-64 division instruction faults on it); that
      single case is the outcome [Undefined].
    - A function that returns [0] after writing [err_msg] returns [Err e];
      [message e] is the text written. *)

From Stdlib Require Import String Ascii ZArith List Bool Lia.
Import ListNotations.
Local Open Scope Z_scope.

(** Equality test on characters, [c == 'x'] in C. *)
Notation "c == d" := (Ascii.eqb c d%char) (at level 70, no associativity).

(** ** Limits *)

Definition MAX_EXPR : Z := 4096.
Definition MAX_TOKENS : Z := 4096.
Definition MAX_TOKEN_LEN : Z := 64.

Definition LLONG_MAX : Z := 9223372036854775807.
Definition LLONG_MIN : Z := - LLONG_MAX - 1.

Definition in_range (z : Z) : Prop := LLONG_MIN <= z <= LLONG_MAX.

(** Two's-complement reduction of a mathematical integer to 64 bits. *)
Definition wrap (z : Z) : Z := (z - LLONG_MIN) mod 2 ^ 64 + LLONG_MIN.

(** ** Outcomes *)

Inductive error : Type :=
| NumberTokenTooLong
| TooManyTokens
| OperatorStackOverflow
| MismatchedParentheses
| UnexpectedOperator
| InvalidCharacter (c : ascii)
| ExpressionEndsUnexpectedly
| NotEnoughOperandsUnary
| NotEnoughOperandsBinary
| ValueStackOverflow
| DivisionByZero
| ModuloByZero
| ExponentiationError
| UnknownOperator
| InvalidNumber
| ExtraOperands.

(** The text each error leaves in [err_msg]. *)
Definition message (e : error) : string :=
  match e with
  | NumberTokenTooLong => "Number token too long"
  | TooManyTokens => "Too many tokens"
  | OperatorStackOverflow => "Operator stack overflow"
  | MismatchedParentheses => "Mismatched parentheses"
  | UnexpectedOperator => "Unexpected operator"
  | InvalidCharacter c =>
      ("Invalid character: '" ++ String c "'")%string
  | ExpressionEndsUnexpectedly => "Expression ends unexpectedly"
  | NotEnoughOperandsUnary => "Not enough operands for unary minus"
  | NotEnoughOperandsBinary => "Not enough operands for binary operator"
  | ValueStackOverflow => "Value stack overflow"
  | DivisionByZero => "Division by zero"
  | ModuloByZero => "Modulo by zero"
  | ExponentiationError => "Invalid or overflow in exponentiation"
  | UnknownOperator => "Unknown operator in evaluation"
  | InvalidNumber => "Invalid number in postfix"
  | ExtraOperands => "Extra operands or insufficient operators"
  end.

Inductive result (A : Type) : Type :=
| Ok (a : A)
| Err (e : error)
| Undefined.

Arguments Ok {A} a.
Arguments Err {A} e.
Arguments Undefined {A}.

Definition bind {A B : Type} (r : result A) (k : A -> result B) : result B :=
  match r with
  | Ok a => k a
  | Err e => Err e
  | Undefined => Undefined
  end.

(** [or_fail o e]: the caller's [if (!f(...)) { strcpy(err_msg, e); return 0; }]. *)
Definition or_fail {A : Type} (o : option A) (e : error) : result A :=
  match o with
  | Some a => Ok a
  | None => Err e
  end.

Notation "x <- c ;; k" := (bind c (fun x => k))
  (at level 61, c at next level, right associativity).
Notation "' p <- c ;; k" := (bind c (fun x => let p := x in k))
  (at level 61, p pattern, c at next level, right associativity).

(** ** Characters ([ctype.h], "C" locale) *)

Definition code (c : ascii) : Z := Z.of_N (N_of_ascii c).

Definition isdigit (c : ascii) : bool := (48 <=? code c) && (code c <=? 57).

Definition isspace (c : ascii) : bool :=
  (code c =? 32) || ((9 <=? code c) && (code c <=? 13)).

Definition NUL : ascii := "000"%char.

(** ** Stacks *)

(** [CharStack]: the head of the list is [data[top]]. *)
Definition CharStack : Type := list ascii.

Definition cs_top (s : CharStack) : Z := Z.of_nat (length s) - 1.

Definition cs_push (s : CharStack) (c : ascii) : option CharStack :=
  if cs_top s + 1 >=? MAX_TOKENS then None else Some (c :: s).

(** [NumStack]: the head of the list is [data[top]]. *)
Definition NumStack : Type := list Z.

Definition ns_top (s : NumStack) : Z := Z.of_nat (length s) - 1.

Definition ns_push (s : NumStack) (v : Z) : option NumStack :=
  if ns_top s + 1 >=? MAX_TOKENS then None else Some (v :: s).

(** ** Operator utilities *)

Definition is_operator (c : ascii) : bool :=
  (c == "+") || (c == "-") || (c == "*") || (c == "/") || (c == "%")
  || (c == "^") || (c == "u").

Definition precedence (op : ascii) : Z :=
  if op == "u" then 4
  else if op == "^" then 3
  else if (op == "*") || (op == "/") || (op == "%") then 2
  else if (op == "+") || (op == "-") then 1
  else 0.

Definition is_right_assoc (op : ascii) : bool := (op == "^") || (op == "u").

(** ** Integer power *)

Definition llabs (x : Z) : Z := wrap (Z.abs x).

(** The body of [while (exp)] for [exp > 0].  The binary digits of the
    exponent are consumed from the low end: [exp & 1] is the last
    constructor of the [positive], [exp >>= 1] its tail, and the loop ends
    when the tail is empty. *)
Fixpoint pow_loop (exp : positive) (base result : Z) : option Z :=
  match exp with
  | xH =>
      if negb (base =? 0) && (llabs result >? Z.quot LLONG_MAX (llabs base))
      then None
      else Some (wrap (result * base))
  | xO exp' =>
      if (llabs base >? 0) && (llabs base >? Z.quot LLONG_MAX (llabs base))
      then None
      else pow_loop exp' (wrap (base * base)) result
  | xI exp' =>
      if negb (base =? 0) && (llabs result >? Z.quot LLONG_MAX (llabs base))
      then None
      else
        let result := wrap (result * base) in
        if (llabs base >? 0) && (llabs base >? Z.quot LLONG_MAX (llabs base))
        then None
        else pow_loop exp' (wrap (base * base)) result
  end.

Definition safe_pow_ll (base exp : Z) : option Z :=
  match exp with
  | Zneg _ => None
  | Z0 => Some 1
  | Zpos p => pow_loop p base 1
  end.

(** ** Token helpers *)

Definition token : Type := list ascii.
Definition TokenList : Type := list token.

Definition count (tl : TokenList) : Z := Z.of_nat (length tl).

(** [strncpy] keeps the first [MAX_TOKEN_LEN - 1] characters of [s]. *)
Definition tokens_add (tl : TokenList) (s : token) : option TokenList :=
  if count tl >=? MAX_TOKENS then None
  else Some (tl ++ [firstn (Z.to_nat (MAX_TOKEN_LEN - 1)) s]).

(** ** Infix to postfix (shunting-yard) *)

Record parser : Type := mkParser {
  ops : CharStack;
  postfix : TokenList;
  expect_operand : bool
}.

Definition parser_init : parser := mkParser [] [] true.

(** The inner [while (isdigit(expr[i]))]: [buf] holds the digits copied so
    far, [k] is what follows the loop. *)
Fixpoint read_digits {A : Type} (k : token -> list ascii -> result A)
    (expr : list ascii) (buf : token) : result A :=
  match expr with
  | d :: expr' =>
      if isdigit d then
        if Z.of_nat (length buf) + 1 >=? MAX_TOKEN_LEN
        then Err NumberTokenTooLong
        else read_digits k expr' (buf ++ [d])
      else k buf expr
  | [] => k buf expr
  end.

(** The loop run on [')'] (lines 127-135): pop and emit down to the
    matching ['('], which is dropped; an empty stack means no match. *)
Fixpoint close_paren (s : CharStack) (out : TokenList)
    : result (CharStack * TokenList) :=
  match s with
  | [] => Err MismatchedParentheses
  | top :: s' =>
      if top == "(" then Ok (s', out)
      else out' <- or_fail (tokens_add out [top]) TooManyTokens ;;
           close_paren s' out'
  end.

(** The test of the pop-before-push loop (lines 153-156) on a stack whose
    top is [top], for the incoming operator [op]. *)
Definition pops (top op : ascii) : bool :=
  is_operator top
  && ((precedence top >? precedence op)
      || ((precedence top =? precedence op) && negb (is_right_assoc op))).

(** The pop-before-push loop (lines 153-161) for the incoming operator
    [op]. *)
Fixpoint pop_higher (op : ascii) (s : CharStack) (out : TokenList)
    : result (CharStack * TokenList) :=
  match s with
  | [] => Ok (s, out)
  | top :: s' =>
      if pops top op then
        out' <- or_fail (tokens_add out [top]) TooManyTokens ;;
        pop_higher op s' out'
      else Ok (s, out)
  end.

(** The final loop that drains the operator stack (lines 174-179). *)
Fixpoint drain (s : CharStack) (out : TokenList) : result TokenList :=
  match s with
  | [] => Ok out
  | top :: s' =>
      if (top == "(") || (top == ")") then Err MismatchedParentheses
      else out' <- or_fail (tokens_add out [top]) TooManyTokens ;;
           drain s' out'
  end.

(** The reclassification of an operator character (lines 145-150): a
    minus where an operand is expected becomes the tag ['u']; any other
    operator there, except the tag itself, is an error. *)
Definition classify (c : ascii) (expect : bool) : result ascii :=
  if (c == "-") && expect then Ok "u"%char
  else if expect && negb (c == "u") then Err UnexpectedOperator
  else Ok c.

(** The operator branch of the main loop (lines 141-166), for the
    character [c]; it ends with [expect_operand = (op != 'u')]. *)
Definition on_operator (c : ascii) (st : parser) : result parser :=
  op <- classify c (expect_operand st) ;;
  '(s, out) <- pop_higher op (ops st) (postfix st) ;;
  s' <- or_fail (cs_push s op) OperatorStackOverflow ;;
  Ok (mkParser s' out (negb (op == "u"))).

(** The branch for ['('] (lines 122-126). *)
Definition on_open (st : parser) : result parser :=
  s' <- or_fail (cs_push (ops st) "("%char) OperatorStackOverflow ;;
  Ok (mkParser s' (postfix st) true).

(** The branch for [')'] (lines 127-138). *)
Definition on_close (st : parser) : result parser :=
  '(s, out) <- close_paren (ops st) (postfix st) ;;
  Ok (mkParser s out false).

(** The end of the digit branch (lines 115-118), with the numeral in
    [buf]. *)
Definition on_number (buf : token) (st : parser) : result parser :=
  out <- or_fail (tokens_add (postfix st) buf) TooManyTokens ;;
  Ok (mkParser (ops st) out false).

(** The main [while (expr[i])] loop.  In the digit branch the first digit
    is stored outright: the length test of the inner loop cannot fail on an
    empty buffer. *)
Fixpoint scan (expr : list ascii) (st : parser) : result parser :=
  match expr with
  | [] => Ok st
  | c :: rest =>
      if c == NUL then Ok st
      else if isspace c then scan rest st
      else if isdigit c then
        read_digits (fun buf rest' => st' <- on_number buf st ;; scan rest' st')
                    rest [c]
      else if c == "(" then st' <- on_open st ;; scan rest st'
      else if c == ")" then st' <- on_close st ;; scan rest st'
      else if is_operator c then st' <- on_operator c st ;; scan rest st'
      else Err (InvalidCharacter c)
  end.

(** After the main loop (lines 173-183): drain the stack, then test the
    flag. *)
Definition finish (st : parser) : result TokenList :=
  out <- drain (ops st) (postfix st) ;;
  if expect_operand st then Err ExpressionEndsUnexpectedly else Ok out.

Definition infix_to_postfix (expr : list ascii) : result TokenList :=
  st <- scan expr parser_init ;; finish st.

(** ** Postfix evaluation *)

(** [a / b] and [a % b] of C for [b <> 0]: truncation toward zero; no value
    when the quotient is not representable. *)
Definition c_div (a b : Z) : result Z :=
  if (Z.quot a b >? LLONG_MAX) then Undefined else Ok (Z.quot a b).

Definition c_mod (a b : Z) : result Z :=
  if (Z.quot a b >? LLONG_MAX) then Undefined else Ok (Z.rem a b).

(** The [switch] of [apply_op] on the operands [a] and [b]: a value, an
    arithmetic error or, for the quotient that is not representable,
    nothing defined. *)
Definition operate (op : ascii) (a b : Z) : result Z :=
  if op == "+" then Ok (wrap (a + b))
  else if op == "-" then Ok (wrap (a - b))
  else if op == "*" then Ok (wrap (a * b))
  else if op == "/" then if b =? 0 then Err DivisionByZero else c_div a b
  else if op == "%" then if b =? 0 then Err ModuloByZero else c_mod a b
  else if op == "^" then or_fail (safe_pow_ll a b) ExponentiationError
  else Err UnknownOperator.

Definition apply_op (op : ascii) (stk : NumStack) : result NumStack :=
  if op == "u" then
    match stk with
    | [] => Err NotEnoughOperandsUnary
    | a :: stk' => or_fail (ns_push stk' (wrap (- a))) ValueStackOverflow
    end
  else
    match stk with
    | b :: a :: stk' =>
        r <- operate op a b ;;
        or_fail (ns_push stk' r) ValueStackOverflow
    | _ => Err NotEnoughOperandsBinary
    end.

(** *** [strtoll] of the C library, base 10

    Leading white space is skipped, an optional sign is read, then the
    longest run of decimal digits.  Without a digit no conversion is made
    and [endptr] is the start of the text.  A value out of range is clamped
    and [errno] is set to [ERANGE]. *)

Fixpoint skip_spaces (t : list ascii) : list ascii :=
  match t with
  | c :: t' => if isspace c then skip_spaces t' else t
  | [] => []
  end.

Fixpoint span_digits (t : list ascii) : list ascii * list ascii :=
  match t with
  | c :: t' =>
      if isdigit c then let (ds, r) := span_digits t' in (c :: ds, r)
      else ([], t)
  | [] => ([], [])
  end.

Definition digit_value (c : ascii) : Z := code c - 48.

Definition decimal (ds : list ascii) : Z :=
  fold_left (fun acc d => acc * 10 + digit_value d) ds 0.

Record strtoll_result : Type := mkStrtoll {
  value : Z;
  endptr : list ascii;      (* the text from [*endptr] on *)
  converted : bool;         (* [endptr != nptr] *)
  erange : bool             (* [errno == ERANGE] *)
}.

Definition strtoll (t : list ascii) : strtoll_result :=
  let t1 := skip_spaces t in
  let '(neg, t2) :=
    match t1 with
    | c :: t' => if c == "-" then (true, t')
                 else if c == "+" then (false, t') else (false, t1)
    | [] => (false, t1)
    end in
  let '(ds, r) := span_digits t2 in
  match ds with
  | [] => mkStrtoll 0 t false false
  | _ =>
      let v := if neg : bool then - decimal ds else decimal ds in
      if v >? LLONG_MAX then mkStrtoll LLONG_MAX r true true
      else if v <? LLONG_MIN then mkStrtoll LLONG_MIN r true true
      else mkStrtoll v r true false
  end.

(** [strlen(t) == 1 && is_operator(t[0])] *)
Definition is_operator_token (t : token) : bool :=
  match t with
  | [c] => is_operator c
  | _ => false
  end.

Definition first_char (t : token) : ascii := hd NUL t.

(** The [for] loop of [evaluate_postfix]. *)
Fixpoint eval_tokens (toks : TokenList) (stk : NumStack) : result NumStack :=
  match toks with
  | [] => Ok stk
  | t :: toks' =>
      if is_operator_token t then
        stk' <- apply_op (first_char t) stk ;; eval_tokens toks' stk'
      else
        let r := strtoll t in
        if erange r || negb (converted r)
           || negb (match endptr r with [] => true | _ => false end)
        then Err InvalidNumber
        else stk' <- or_fail (ns_push stk (value r)) ValueStackOverflow ;;
             eval_tokens toks' stk'
  end.

Definition evaluate_postfix (toks : TokenList) : result Z :=
  stk <- eval_tokens toks [] ;;
  match stk with
  | [v] => Ok v
  | _ => Err ExtraOperands
  end.

(** ** Printing the postfix sequence *)

(** The characters [print_postfix] writes to the standard output. *)
Fixpoint print_postfix (toks : TokenList) : list ascii :=
  match toks with
  | [] => ["010"%char]
  | t :: toks' =>
      (match t with
       | [c] => if c == "u" then ["~"%char] else t
       | _ => t
       end)
      ++ (match toks' with [] => [] | _ => [" "%char] end)
      ++ print_postfix toks'
  end.

(** A string literal as a C string. *)
Definition cstr (s : string) : list ascii := list_ascii_of_string s.

(** One calculator line: parse, then evaluate. *)
Definition calculate (line : string) : result Z :=
  toks <- infix_to_postfix (cstr line) ;; evaluate_postfix toks.

(** * Notions used to state the properties *)

(** ** One iteration of the main loop *)

(** The inner digit loop on its own: the numeral and the text after it. *)
Definition read_number (expr : list ascii) (buf : token)
    : result (token * list ascii) :=
  read_digits (fun buf' rest => Ok (buf', rest)) expr buf.

(** One iteration of [while (expr[i])] on the character [c] followed by
    [rest]: the new parser state and the text still to be read. *)
Definition step (c : ascii) (rest : list ascii) (st : parser)
    : result (parser * list ascii) :=
  if isspace c then Ok (st, rest)
  else if isdigit c then
    '(buf, rest') <- read_number rest [c] ;;
    st' <- on_number buf st ;; Ok (st', rest')
  else if c == "(" then st' <- on_open st ;; Ok (st', rest)
  else if c == ")" then st' <- on_close st ;; Ok (st', rest)
  else if is_operator c then st' <- on_operator c st ;; Ok (st', rest)
  else Err (InvalidCharacter c).

(** The token emitted for the stack entry [c]: [char op_str[2] = {c, 0}]. *)
Definition op_token (c : ascii) : token := [c].

(** The entries of the token list and of the operator stack, taken
    together. *)
Definition size (st : parser) : Z :=
  count (postfix st) + Z.of_nat (length (ops st)).

(** [transition c st rest st' rest']: the iteration that reads [c], with
    [rest] after it, takes the parser from [st] to [st'] and leaves [rest']
    to be read. *)
Inductive transition (c : ascii) (st : parser)
    : list ascii -> parser -> list ascii -> Prop :=
| T_space rest :
    isspace c = true ->
    transition c st rest st rest
| T_number ds rest' :
    isspace c = false -> isdigit c = true ->
    forallb isdigit ds = true ->
    match rest' with d :: _ => isdigit d = false | [] => True end ->
    Z.of_nat (length (c :: ds)) < MAX_TOKEN_LEN ->
    count (postfix st) < MAX_TOKENS ->
    transition c st (ds ++ rest')
      (mkParser (ops st) (postfix st ++ [c :: ds]) false) rest'
| T_open rest :
    isspace c = false -> isdigit c = false -> c = "("%char ->
    transition c st rest
      (mkParser ("("%char :: ops st) (postfix st) true) rest
| T_close rest popped s' :
    isspace c = false -> isdigit c = false -> c = ")"%char ->
    ops st = popped ++ "("%char :: s' -> ~ In "("%char popped ->
    transition c st rest
      (mkParser s' (postfix st ++ map op_token popped) false) rest
| T_operator rest op popped s' :
    isspace c = false -> isdigit c = false ->
    c <> "("%char -> c <> ")"%char -> is_operator c = true ->
    classify c (expect_operand st) = Ok op ->
    ops st = popped ++ s' ->
    Forall (fun x => pops x op = true) popped ->
    match s' with x :: _ => pops x op = false | [] => True end ->
    transition c st rest
      (mkParser (op :: s') (postfix st ++ map op_token popped)
                (negb (op == "u"))) rest.

(** The two errors that report a full token list or operator stack. *)
Definition capacity_error (e : error) : Prop :=
  e = TooManyTokens \/ e = OperatorStackOverflow.

(** ** Well-formed parser states *)

(** A numeral token: a non-empty run of decimal digits that fits
    [char buf[MAX_TOKEN_LEN]] with its terminator. *)
Definition numeral (t : token) : Prop :=
  t <> [] /\ forallb isdigit t = true /\ Z.of_nat (length t) < MAX_TOKEN_LEN.

Definition wf_token (t : token) : Prop :=
  (exists c, t = op_token c /\ is_operator c = true) \/ numeral t.

(** An entry of the operator stack: ['('] or an operator. *)
Definition wf_entry (c : ascii) : Prop := c = "("%char \/ is_operator c = true.

Definition wf_parser (st : parser) : Prop :=
  Forall wf_entry (ops st) /\ Forall wf_token (postfix st).

(** The character set of the expression language: the operators
    [+ - * / % ^], the parentheses, decimal digits and white space. *)
Definition in_charset (c : ascii) : bool :=
  (c == "+") || (c == "-") || (c == "*") || (c == "/") || (c == "%")
  || (c == "^") || (c == "(") || (c == ")") || isdigit c || isspace c.

(** ** Arity of a postfix sequence *)

(** The replay of a postfix sequence on operand-stack depths alone: a
    numeral pushes one value, unary minus needs one value and leaves the
    depth as it is, every other operator needs two values and leaves one. *)
Definition arity_step (depth : Z) (t : token) : option Z :=
  if is_operator_token t then
    if first_char t == "u" then
      if depth <? 1 then None else Some depth
    else
      if depth <? 2 then None else Some (depth - 1)
  else Some (depth + 1).

Fixpoint arity_replay (toks : TokenList) (depth : Z) : option Z :=
  match toks with
  | [] => Some depth
  | t :: toks' =>
      match arity_step depth t with
      | Some depth' => arity_replay toks' depth'
      | None => None
      end
  end.

(** The operand-stack depth of the evaluator. *)
Definition depth (stk : NumStack) : Z := Z.of_nat (length stk).

(** The errors of [evaluate_postfix] that report a wrong number of
    operands. *)
Definition arity_error (e : error) : Prop :=
  e = NotEnoughOperandsUnary \/ e = NotEnoughOperandsBinary
  \/ e = ExtraOperands.

(** Binary operators on the operator stack: each still owes one
    reduction of the operand count. *)
Definition binary (c : ascii) : bool := is_operator c && negb (c == "u").

Fixpoint pending (s : CharStack) : Z :=
  match s with
  | [] => 0
  | c :: s' => (if binary c then 1 else 0) + pending s'
  end.

(** ** Well-sequenced expressions *)

(** Where the reading of an expression stands: an operand is due (at the
    start, after ['('] and after a binary operator), a unary minus has
    just been read, a numeral is being read, or an operand is complete. *)
Inductive position : Type :=
| Operand_due
| After_unary
| In_number
| Operand_done.

(** The operator characters that are always binary. *)
Definition binary_char (c : ascii) : bool :=
  (c == "+") || (c == "*") || (c == "/") || (c == "%") || (c == "^").

(** [well_sequenced pos expr]: from position [pos], the text [expr] puts
    every numeral and every ['('] where an operand is due, every [')'] and
    every binary operator after a complete operand, at most one unary
    minus before an operand, and ends on a complete operand. *)
Fixpoint well_sequenced (pos : position) (expr : list ascii) : bool :=
  match expr with
  | [] =>
      match pos with
      | In_number | Operand_done => true
      | _ => false
      end
  | c :: rest =>
      if c == NUL then
        match pos with
        | In_number | Operand_done => true
        | _ => false
        end
      else if isspace c then
        well_sequenced
          (match pos with In_number => Operand_done | _ => pos end) rest
      else if isdigit c then
        match pos with
        | Operand_done => false
        | _ => well_sequenced In_number rest
        end
      else if c == "(" then
        match pos with
        | Operand_due | After_unary => well_sequenced Operand_due rest
        | _ => false
        end
      else if c == ")" then
        match pos with
        | In_number | Operand_done => well_sequenced Operand_done rest
        | _ => false
        end
      else if c == "-" then
        match pos with
        | Operand_due => well_sequenced After_unary rest
        | After_unary => false
        | _ => well_sequenced Operand_due rest
        end
      else if binary_char c then
        match pos with
        | In_number | Operand_done => well_sequenced Operand_due rest
        | _ => false
        end
      else false
  end.

Definition operand_due (pos : position) : bool :=
  match pos with
  | Operand_due | After_unary => true
  | _ => false
  end.

(** The parser state agrees with the position: the flag is set exactly
    when an operand is due and no unary minus has been read for it, and
    the tokens emitted so far, with the operators still on the stack,
    reduce to one value once the operand that is due has arrived. *)
Definition agrees (pos : position) (st : parser) : Prop :=
  expect_operand st
  = match pos with Operand_due => true | _ => false end
  /\ exists depth,
       arity_replay (postfix st) 0 = Some depth
       /\ depth + (if operand_due pos then 1 else 0) = 1 + pending (ops st).

(** The parser state and the position of the reading, between two
    iterations of the main loop. *)
Definition in_step (l : list ascii) (st : parser) : Prop :=
  exists pos,
    pos <> In_number /\ wf_parser st /\ agrees pos st
    /\ well_sequenced pos l = true.

(** ** Numerals, precedence, parentheses *)

(** A numeral within the range of [long long]. *)
Definition fits (t : token) : Prop :=
  is_operator_token t = false -> decimal t <= LLONG_MAX.

(** The tie-break rule in words: the stack top is an operator of strictly
    higher precedence than the incoming one, or of equal precedence while
    the incoming one is left-associative. *)
Definition outranks (top op : ascii) : Prop :=
  is_operator top = true
  /\ (precedence top > precedence op
      \/ (precedence top = precedence op /\ is_right_assoc op = false)).

(** The loop reaches a [')'] while no ['('] is on the operator stack. *)
Definition unmatched_close (expr : list ascii) : Prop :=
  exists pre rest st,
    expr = pre ++ ")"%char :: rest /\ ~ In NUL pre
    /\ scan pre parser_init = Ok st /\ ~ In "("%char (ops st).

(** The loop reaches the end of the input with a ['('] on the stack. *)
Definition unclosed_open (expr : list ascii) : Prop :=
  exists st, scan expr parser_init = Ok st /\ In "("%char (ops st).

(** ** Expression trees

    Fully parenthesised expressions, as a user of the calculator would
    write them to leave nothing to precedence: a numeral, [(-e)], or
    [(l op r)] with one of the six binary operators. *)

Inductive expr : Type :=
| Num (ds : list ascii)
| Neg (e : expr)
| Bin (op : ascii) (l r : expr).

(** The six operator characters of the input. *)
Definition infix_op (c : ascii) : bool := binary_char c || (c == "-").

Fixpoint well_formed (e : expr) : Prop :=
  match e with
  | Num ds => numeral ds
  | Neg e' => well_formed e'
  | Bin op l r => infix_op op = true /\ well_formed l /\ well_formed r
  end.

(** The text of an expression tree. *)
Fixpoint render (e : expr) : list ascii :=
  match e with
  | Num ds => ds
  | Neg e' => "("%char :: "-"%char :: render e' ++ [")"%char]
  | Bin op l r => "("%char :: render l ++ op :: render r ++ [")"%char]
  end.

(** The tokens of an expression tree in postfix order. *)
Fixpoint postorder (e : expr) : TokenList :=
  match e with
  | Num ds => [ds]
  | Neg e' => postorder e' ++ [op_token "u"]
  | Bin op l r => postorder l ++ postorder r ++ [op_token op]
  end.

(** The value of an expression tree: operands left to right, then the
    operator, with the arithmetic of [apply_op]. *)
Fixpoint eval_expr (e : expr) : result Z :=
  match e with
  | Num ds =>
      if decimal ds >? LLONG_MAX then Err InvalidNumber else Ok (decimal ds)
  | Neg e' => a <- eval_expr e' ;; Ok (wrap (- a))
  | Bin op l r => a <- eval_expr l ;; b <- eval_expr r ;; operate op a b
  end.

(** The value of an expression tree in the integers, with no bound on
    the size of a number: [/] truncates toward zero, [%] is the remainder
    of that division, [^] is the power. *)
Definition math_op (op : ascii) (a b : Z) : Z :=
  if op == "+" then a + b
  else if op == "-" then a - b
  else if op == "*" then a * b
  else if op == "/" then Z.quot a b
  else if op == "%" then Z.rem a b
  else a ^ b.

Fixpoint math_value (e : expr) : Z :=
  match e with
  | Num ds => decimal ds
  | Neg e' => - math_value e'
  | Bin op l r => math_op op (math_value l) (math_value r)
  end.

(** Every numeral and every intermediate result of the tree has a
    magnitude of at most [LLONG_MAX], no divisor is zero and no exponent
    is negative. *)
Fixpoint within_range (e : expr) : Prop :=
  match e with
  | Num ds => decimal ds <= LLONG_MAX
  | Neg e' => within_range e'
  | Bin op l r =>
      within_range l /\ within_range r
      /\ Z.abs (math_op op (math_value l) (math_value r)) <= LLONG_MAX
      /\ ((op == "/") || (op == "%") = true -> math_value r <> 0)
      /\ ((op == "^") = true -> 0 <= math_value r)
  end.

(** ** Parentheses and numerals of an input text *)

(** [balanced open expr]: with [open] parentheses open, the text (up to
    its NUL) closes none that is not open and leaves none open. *)
Fixpoint balanced (open : Z) (expr : list ascii) : bool :=
  match expr with
  | [] => open =? 0
  | c :: rest =>
      if c == NUL then open =? 0
      else if c == "(" then balanced (open + 1) rest
      else if c == ")" then (0 <? open) && balanced (open - 1) rest
      else balanced open rest
  end.

(** The ['('] entries of the operator stack. *)
Fixpoint open_parens (s : CharStack) : Z :=
  match s with
  | [] => 0
  | c :: s' => (if c == "(" then 1 else 0) + open_parens s'
  end.

(** The maximal runs of decimal digits of a text (up to its NUL), in
    order; [cur] is the run being read. *)
Fixpoint digit_runs (cur : token) (expr : list ascii) : TokenList :=
  match expr with
  | [] => match cur with [] => [] | _ => [cur] end
  | c :: rest =>
      if c == NUL then match cur with [] => [] | _ => [cur] end
      else if isdigit c then digit_runs (cur ++ [c]) rest
      else match cur with [] => [] | _ => [cur] end ++ digit_runs [] rest
  end.

(** The numerals of a token list: the tokens that are not operators. *)
Definition operands (toks : TokenList) : TokenList :=
  filter (fun t => negb (is_operator_token t)) toks.

(** * Properties of the embedding *)

(** ** Machine arithmetic *)

Lemma wrap_id (z : Z) : in_range z -> wrap z = z.
Proof.
  unfold in_range, wrap, LLONG_MIN, LLONG_MAX. intros H.
  rewrite Z.mod_small; lia.
Qed.

Lemma wrap_in_range (z : Z) : in_range (wrap z).
Proof.
  unfold in_range, wrap.
  assert (H : 0 <= (z - LLONG_MIN) mod 2 ^ 64 < 2 ^ 64)
    by (apply Z.mod_pos_bound; lia).
  unfold LLONG_MIN, LLONG_MAX in *. lia.
Qed.

Lemma llabs_abs (z : Z) : Z.abs z <= LLONG_MAX -> llabs z = Z.abs z.
Proof.
  intros H. unfold llabs. apply wrap_id.
  unfold in_range, LLONG_MIN, LLONG_MAX in *. lia.
Qed.

(** The magnitude test [x > LLONG_MAX / y] of [safe_pow_ll], for [y > 0]. *)
Lemma quot_test (x y : Z) :
  0 <= x -> 0 < y -> (x >? Z.quot LLONG_MAX y) = negb (x * y <=? LLONG_MAX).
Proof.
  intros Hx Hy.
  rewrite Z.quot_div_nonneg by (unfold LLONG_MAX; lia).
  destruct (Z.leb_spec (x * y) LLONG_MAX) as [H | H]; simpl.
  - rewrite Z.gtb_ltb. apply Z.ltb_ge. apply Z.div_le_lower_bound; lia.
  - rewrite Z.gtb_ltb. apply Z.ltb_lt. apply Z.div_lt_upper_bound; lia.
Qed.

Lemma mul_test (r b : Z) :
  Z.abs r <= LLONG_MAX -> Z.abs b <= LLONG_MAX ->
  negb (b =? 0) && (llabs r >? Z.quot LLONG_MAX (llabs b))
  = negb (Z.abs (r * b) <=? LLONG_MAX).
Proof.
  intros Hr Hb. rewrite !llabs_abs by assumption.
  destruct (Z.eqb_spec b 0) as [-> | Hnz]; simpl.
  - rewrite Z.mul_0_r. reflexivity.
  - rewrite quot_test by lia. now rewrite Z.abs_mul.
Qed.

Lemma square_test (b : Z) :
  Z.abs b <= LLONG_MAX ->
  (llabs b >? 0) && (llabs b >? Z.quot LLONG_MAX (llabs b))
  = negb (Z.abs (b * b) <=? LLONG_MAX).
Proof.
  intros Hb. rewrite !llabs_abs by assumption.
  destruct (Z.eqb_spec b 0) as [-> | Hnz].
  - reflexivity.
  - replace (Z.abs b >? 0) with true by (symmetry; rewrite Z.gtb_ltb; apply Z.ltb_lt; lia).
    simpl. rewrite quot_test by lia. now rewrite Z.abs_mul.
Qed.

Lemma abs_in_range (z : Z) : Z.abs z <= LLONG_MAX -> in_range z.
Proof. unfold in_range, LLONG_MIN. lia. Qed.

Lemma pow_pos_ge_1 (x : Z) (p : positive) : 1 <= x -> x <= x ^ Zpos p.
Proof.
  intros Hx. rewrite <- (Z.pow_1_r x) at 1.
  apply Z.pow_le_mono_r; lia.
Qed.

Lemma pow_xO (b : Z) (p : positive) : b ^ Zpos p~0 = (b * b) ^ Zpos p.
Proof.
  rewrite Pos2Z.inj_xO, Z.pow_mul_r by lia. now rewrite Z.pow_2_r.
Qed.

Lemma pow_xI (b : Z) (p : positive) : b ^ Zpos p~1 = b * (b * b) ^ Zpos p.
Proof.
  rewrite Pos2Z.inj_xI, Z.pow_add_r, Z.pow_1_r by lia.
  rewrite Z.pow_mul_r by lia. rewrite Z.pow_2_r. ring.
Qed.

(** When the square of the base is too large, so is every product
    [r * (b * b) ^ p] with [r <> 0]. *)
Lemma square_overflows (r b : Z) (p : positive) :
  r <> 0 -> LLONG_MAX < Z.abs (b * b) ->
  LLONG_MAX < Z.abs (r * (b * b) ^ Zpos p).
Proof.
  intros Hr Hb.
  assert (Hbb : b * b = Z.abs (b * b)) by (symmetry; apply Z.abs_eq; nia).
  assert (H1 : 1 <= b * b) by (unfold LLONG_MAX in *; lia).
  pose proof (pow_pos_ge_1 (b * b) p H1) as H2.
  rewrite Z.abs_mul.
  rewrite (Z.abs_eq ((b * b) ^ Zpos p)) by lia.
  assert (1 <= Z.abs r) by lia. nia.
Qed.

(** The loop of [safe_pow_ll] computes [result * base ^ exp] exactly when
    its magnitude fits, and fails otherwise. *)
Lemma pow_loop_spec (p : positive) :
  forall b r : Z,
    Z.abs b <= LLONG_MAX -> Z.abs r <= LLONG_MAX -> (r <> 0 \/ b = 0) ->
    pow_loop p b r =
    if Z.abs (r * b ^ Zpos p) <=? LLONG_MAX then Some (r * b ^ Zpos p)
    else None.
Proof.
  induction p as [p IH | p IH | ]; intros b r Hb Hr Hinv; cbn [pow_loop].
  - rewrite mul_test by assumption. rewrite pow_xI.
    destruct (Z.leb_spec (Z.abs (r * b)) LLONG_MAX) as [Hrb | Hrb]; cbn [negb].
    + rewrite square_test by assumption.
      rewrite (wrap_id (r * b)) by (now apply abs_in_range).
      destruct (Z.leb_spec (Z.abs (b * b)) LLONG_MAX) as [Hbb | Hbb]; cbn [negb].
      * rewrite (wrap_id (b * b)) by (now apply abs_in_range).
        rewrite IH; try assumption.
        -- now rewrite Z.mul_assoc.
        -- destruct Hinv as [Hnz | ->]; [ | now right].
           destruct (Z.eq_dec b 0) as [-> | Hbnz]; [now right | left; nia].
      * assert (Hbnz : b <> 0) by (intros ->; unfold LLONG_MAX in Hbb; simpl in Hbb; lia).
        assert (Hrnz : r * b <> 0) by (destruct Hinv; [nia | contradiction]).
        pose proof (square_overflows (r * b) b p Hrnz Hbb) as Hov.
        rewrite Z.mul_assoc.
        destruct (Z.leb_spec (Z.abs (r * b * (b * b) ^ Zpos p)) LLONG_MAX); [lia | reflexivity].
    + assert (Hbnz : b <> 0)
        by (intros ->; rewrite Z.mul_0_r in Hrb; unfold LLONG_MAX in Hrb; simpl in Hrb; lia).
      assert (H1 : 1 <= b * b) by nia.
      pose proof (pow_pos_ge_1 (b * b) p H1) as H2.
      rewrite Z.mul_assoc, Z.abs_mul.
      rewrite (Z.abs_eq ((b * b) ^ Zpos p)) by lia.
      destruct (Z.leb_spec (Z.abs (r * b) * (b * b) ^ Zpos p) LLONG_MAX); [ | reflexivity].
      unfold LLONG_MAX in *. nia.
  - rewrite square_test by assumption. rewrite pow_xO.
    destruct (Z.leb_spec (Z.abs (b * b)) LLONG_MAX) as [Hbb | Hbb]; cbn [negb].
    + rewrite (wrap_id (b * b)) by (now apply abs_in_range).
      apply IH; try assumption.
      destruct Hinv as [Hnz | ->]; [now left | now right].
    + assert (Hbnz : b <> 0) by (intros ->; unfold LLONG_MAX in Hbb; simpl in Hbb; lia).
      assert (Hrnz : r <> 0) by (destruct Hinv; [assumption | contradiction]).
      pose proof (square_overflows r b p Hrnz Hbb) as Hov.
      destruct (Z.leb_spec (Z.abs (r * (b * b) ^ Zpos p)) LLONG_MAX); [lia | reflexivity].
  - rewrite mul_test by assumption. rewrite Z.pow_1_r.
    destruct (Z.leb_spec (Z.abs (r * b)) LLONG_MAX) as [Hrb | Hrb]; cbn [negb].
    + now rewrite wrap_id by (now apply abs_in_range).
    + reflexivity.
Qed.

Lemma safe_pow_ll_spec (a b : Z) :
  Z.abs a <= LLONG_MAX -> 0 <= b ->
  safe_pow_ll a b = if Z.abs (a ^ b) <=? LLONG_MAX then Some (a ^ b) else None.
Proof.
  intros Ha Hb. destruct b as [ | p | p]; [reflexivity | | lia].
  unfold safe_pow_ll. rewrite pow_loop_spec.
  - now rewrite Z.mul_1_l.
  - assumption.
  - unfold LLONG_MAX; simpl; lia.
  - left; lia.
Qed.

(** The constructors of the exponent are the bit operations of the loop:
    [exp & 1] is 1 on [p~1] and on the last digit, 0 on [p~0]; [exp >> 1]
    is the tail [p], and 0 after the last digit. *)
Lemma exponent_bits (p : positive) :
  Z.land (Zpos p~1) 1 = 1 /\ Z.shiftr (Zpos p~1) 1 = Zpos p
  /\ Z.land (Zpos p~0) 1 = 0 /\ Z.shiftr (Zpos p~0) 1 = Zpos p
  /\ Z.land 1 1 = 1 /\ Z.shiftr 1 1 = 0.
Proof. repeat split; destruct p; reflexivity. Qed.

(** With the base [LLONG_MIN] the magnitude test is of no use:
    [llabs(LLONG_MIN)] wraps to [LLONG_MIN], the square is taken unchecked
    and wraps to 0. *)
Lemma safe_pow_ll_min_square : safe_pow_ll LLONG_MIN 2 = Some 0.
Proof. vm_compute. reflexivity. Qed.

(** ** The operators of [apply_op] *)

Lemma ns_push_ok (stk : NumStack) (v : Z) :
  Z.of_nat (length stk) < MAX_TOKENS -> ns_push stk v = Some (v :: stk).
Proof.
  intros H. unfold ns_push, ns_top.
  destruct (Z.geb_spec (Z.of_nat (length stk) - 1 + 1) MAX_TOKENS); [lia | reflexivity].
Qed.

(** Popping two operands of a stack within its capacity leaves room for
    the result. *)
Lemma room_after_pop (b a : Z) (stk : NumStack) :
  Z.of_nat (length (b :: a :: stk)) <= MAX_TOKENS ->
  Z.of_nat (length stk) < MAX_TOKENS.
Proof. cbn [length]. lia. Qed.

Lemma apply_pow (a b : Z) (stk : NumStack) :
  Z.of_nat (length (b :: a :: stk)) <= MAX_TOKENS ->
  apply_op "^" (b :: a :: stk) =
  match safe_pow_ll a b with
  | Some r => Ok (r :: stk)
  | None => Err ExponentiationError
  end.
Proof.
  intros H. apply room_after_pop in H.
  unfold apply_op, operate. cbn [Ascii.eqb Bool.eqb].
  destruct (safe_pow_ll a b) as [r | ]; cbn [or_fail bind]; [ | reflexivity].
  now rewrite ns_push_ok.
Qed.

Lemma abs_le_abs_pow (a : Z) (p : positive) : Z.abs a <= Z.abs (a ^ Zpos p).
Proof.
  rewrite Z.abs_pow.
  destruct (Z.eq_dec a 0) as [-> | Hnz].
  - rewrite Z.abs_0. apply Z.pow_nonneg. lia.
  - apply pow_pos_ge_1. lia.
Qed.

(** A quotient is representable unless it is [LLONG_MIN / -1]. *)
Lemma quot_representable (a b : Z) :
  in_range a -> b <> 0 -> ~ (a = LLONG_MIN /\ b = -1) ->
  Z.quot a b <= LLONG_MAX.
Proof.
  unfold in_range, LLONG_MIN, LLONG_MAX. intros Ha Hb Hmin.
  destruct (Z.eq_dec b 1) as [-> | Hb1]; [rewrite Z.quot_1_r; lia | ].
  destruct (Z.eq_dec b (-1)) as [-> | Hb2].
  - change (-1) with (- (1)). rewrite Z.quot_opp_r, Z.quot_1_r by lia. lia.
  - assert (Hq : Z.abs (Z.quot a b) < 9223372036854775808).
    { rewrite <- Z.quot_abs by assumption.
      rewrite Z.quot_div_nonneg by lia.
      apply Z.div_lt_upper_bound; lia. }
    lia.
Qed.

Lemma apply_div (a b : Z) (stk : NumStack) :
  in_range a -> b <> 0 -> ~ (a = LLONG_MIN /\ b = -1) ->
  Z.of_nat (length (b :: a :: stk)) <= MAX_TOKENS ->
  apply_op "/" (b :: a :: stk) = Ok (Z.quot a b :: stk)
  /\ apply_op "%" (b :: a :: stk) = Ok (Z.rem a b :: stk).
Proof.
  intros Ha Hb Hmin H. apply room_after_pop in H.
  pose proof (quot_representable a b Ha Hb Hmin) as Hq.
  unfold apply_op, operate, c_div, c_mod. cbn [Ascii.eqb Bool.eqb].
  destruct (Z.eqb_spec b 0) as [-> | _]; [contradiction | ].
  destruct (Z.gtb_spec (Z.quot a b) LLONG_MAX) as [Hgt | _]; [lia | ].
  cbn [bind or_fail]. now rewrite !ns_push_ok.
Qed.

Lemma apply_div_zero (a : Z) (stk : NumStack) :
  apply_op "/" (0 :: a :: stk) = Err DivisionByZero
  /\ apply_op "%" (0 :: a :: stk) = Err ModuloByZero.
Proof. split; reflexivity. Qed.

(** ** One iteration of the main loop *)

Lemma bind_assoc {A B C : Type} (r : result A) (f : A -> result B)
    (g : B -> result C) :
  bind (bind r f) g = bind r (fun a => bind (f a) g).
Proof. now destruct r. Qed.

Lemma read_digits_bind {A : Type} (k : token -> list ascii -> result A)
    (expr : list ascii) :
  forall buf,
    read_digits k expr buf =
    bind (read_number expr buf) (fun p => k (fst p) (snd p)).
Proof.
  unfold read_number.
  induction expr as [ | d expr IH]; intros buf; cbn [read_digits].
  - reflexivity.
  - destruct (isdigit d); [ | reflexivity].
    destruct (Z.of_nat (length buf) + 1 >=? MAX_TOKEN_LEN); [reflexivity | ].
    apply IH.
Qed.

Lemma scan_step (c : ascii) (rest : list ascii) (st : parser) :
  scan (c :: rest) st =
  if c == NUL then Ok st
  else bind (step c rest st) (fun p => scan (snd p) (fst p)).
Proof.
  cbn [scan]. unfold step.
  destruct (c == NUL); [reflexivity | ].
  destruct (isspace c); [reflexivity | ].
  destruct (isdigit c).
  { rewrite read_digits_bind, bind_assoc.
    destruct (read_number rest [c]) as [[buf rest'] | e | ]; cbn [bind fst snd];
      try reflexivity.
    now destruct (on_number buf st). }
  destruct (c == "("); [now destruct (on_open st) | ].
  destruct (c == ")"); [now destruct (on_close st) | ].
  destruct (is_operator c); [now destruct (on_operator c st) | reflexivity].
Qed.

(** What the digit loop returns: the digits it consumed, appended to the
    buffer, and the text that starts at the first non-digit. *)
Lemma read_number_spec (expr : list ascii) :
  forall buf tok rest,
    read_number expr buf = Ok (tok, rest) ->
    exists ds,
      expr = ds ++ rest /\ tok = buf ++ ds /\ forallb isdigit ds = true
      /\ (ds = [] \/ Z.of_nat (length tok) < MAX_TOKEN_LEN)
      /\ match rest with c :: _ => isdigit c = false | [] => True end.
Proof.
  unfold read_number.
  induction expr as [ | d expr IH]; intros buf tok rest H; cbn [read_digits] in H.
  - inversion H; subst. exists []. rewrite !app_nil_r. cbn [app]. repeat split; auto.
  - destruct (isdigit d) eqn:Hd.
    + destruct (Z.geb_spec (Z.of_nat (length buf) + 1) MAX_TOKEN_LEN) as [ | Hlen];
        [discriminate | ].
      apply IH in H. destruct H as (ds & -> & -> & Hds & Hl & Hr).
      exists (d :: ds). rewrite <- app_assoc. cbn [app forallb].
      rewrite Hd, Hds. repeat split; auto. right.
      destruct Hl as [-> | Hl]; [ | now rewrite <- app_assoc in Hl].
      rewrite length_app. cbn [length]. lia.
    + inversion H; subst. exists []. rewrite !app_nil_r. cbn [app]. repeat split; auto.
Qed.

(** A step consumes the current character and possibly more: what is left
    to read is a suffix of the text after that character. *)
Lemma step_suffix (c : ascii) (rest : list ascii) (st st' : parser)
    (rest' : list ascii) :
  step c rest st = Ok (st', rest') -> exists ds, rest = ds ++ rest'.
Proof.
  unfold step. intros H.
  destruct (isspace c); [inversion H; now exists [] | ].
  destruct (isdigit c).
  { destruct (read_number rest [c]) as [[buf r] | | ] eqn:Hn; try discriminate.
    cbn [bind] in H. destruct (on_number buf st); try discriminate.
    cbn [bind] in H. inversion H; subst.
    apply read_number_spec in Hn. destruct Hn as (ds & -> & _). now exists ds. }
  destruct (c == "("); [destruct (on_open st); inversion H; now exists [] | ].
  destruct (c == ")"); [destruct (on_close st); inversion H; now exists [] | ].
  destruct (is_operator c); [ | discriminate].
  destruct (on_operator c st); inversion H; now exists [].
Qed.

(** *** Reasoning about the whole loop

    [P] holds of the text still to be read and of the parser state before
    each iteration; [Q] is what is claimed of the outcome of the loop. *)

Section ScanRule.

Variable P : list ascii -> parser -> Prop.
Variable Q : result parser -> Prop.

Hypothesis at_end :
  forall l st,
    P l st -> match l with [] => True | c :: _ => c = NUL end -> Q (Ok st).

Hypothesis at_step :
  forall c rest st,
    c <> NUL -> P (c :: rest) st ->
    match step c rest st with
    | Ok (st', rest') => P rest' st'
    | Err e => Q (Err e)
    | Undefined => Q Undefined
    end.

Lemma scan_rule_bounded (n : nat) :
  forall l st, (length l <= n)%nat -> P l st -> Q (scan l st).
Proof.
  induction n as [ | n IH]; intros l st Hlen HP.
  - destruct l; [ | cbn [length] in Hlen; lia].
    apply (at_end [] st HP I).
  - destruct l as [ | c rest]; [apply (at_end [] st HP I) | ].
    rewrite scan_step.
    destruct (Ascii.eqb_spec c NUL) as [-> | Hc].
    + now apply (at_end (NUL :: rest) st HP).
    + pose proof (at_step c rest st Hc HP) as Hs.
      destruct (step c rest st) as [[st' rest'] | e | ] eqn:Hstep;
        cbn [bind fst snd]; try assumption.
      apply IH; [ | assumption].
      apply step_suffix in Hstep. destruct Hstep as [ds ->].
      cbn [length] in Hlen. rewrite length_app in Hlen. lia.
Qed.

Lemma scan_rule (l : list ascii) (st : parser) : P l st -> Q (scan l st).
Proof. apply (scan_rule_bounded (length l)). lia. Qed.

End ScanRule.

(** ** The token list and the operator stack *)

Lemma firstn_short (t : token) :
  Z.of_nat (length t) < MAX_TOKEN_LEN ->
  firstn (Z.to_nat (MAX_TOKEN_LEN - 1)) t = t.
Proof. intros H. apply firstn_all2. unfold MAX_TOKEN_LEN in *. lia. Qed.

Lemma tokens_add_ok (tl : TokenList) (t : token) :
  count tl < MAX_TOKENS -> Z.of_nat (length t) < MAX_TOKEN_LEN ->
  tokens_add tl t = Some (tl ++ [t]).
Proof.
  intros Hc Ht. unfold tokens_add.
  destruct (Z.geb_spec (count tl) MAX_TOKENS); [lia | ].
  now rewrite firstn_short.
Qed.

Lemma tokens_add_op (tl : TokenList) (c : ascii) :
  count tl < MAX_TOKENS -> tokens_add tl [c] = Some (tl ++ [op_token c]).
Proof. intros H. apply tokens_add_ok; [assumption | now cbn]. Qed.

Lemma tokens_add_some (tl tl' : TokenList) (c : ascii) :
  tokens_add tl [c] = Some tl' -> tl' = tl ++ [op_token c].
Proof.
  unfold tokens_add. destruct (count tl >=? MAX_TOKENS); [discriminate | ].
  intros H. now inversion H.
Qed.

Lemma tokens_add_full (tl : TokenList) (t : token) :
  MAX_TOKENS <= count tl -> tokens_add tl t = None.
Proof.
  intros H. unfold tokens_add.
  destruct (Z.geb_spec (count tl) MAX_TOKENS); [reflexivity | lia].
Qed.

Lemma cs_push_ok (s : CharStack) (c : ascii) :
  Z.of_nat (length s) < MAX_TOKENS -> cs_push s c = Some (c :: s).
Proof.
  intros H. unfold cs_push, cs_top.
  destruct (Z.geb_spec (Z.of_nat (length s) - 1 + 1) MAX_TOKENS); [lia | reflexivity].
Qed.

Lemma count_app (tl : TokenList) (cs : list ascii) :
  count (tl ++ map op_token cs) = count tl + Z.of_nat (length cs).
Proof. unfold count. rewrite length_app, length_map. lia. Qed.

Lemma count_snoc (tl : TokenList) (t : token) : count (tl ++ [t]) = count tl + 1.
Proof. unfold count. rewrite length_app. cbn [length]. lia. Qed.

(** Whatever a loop emits, it emits one stack entry after the other. *)
Lemma emit_cons (out : TokenList) (c : ascii) (cs : list ascii) :
  (out ++ [op_token c]) ++ map op_token cs = out ++ map op_token (c :: cs).
Proof. now rewrite <- app_assoc. Qed.

(** *** The loop run on [')'] *)

Lemma close_paren_ok (s : CharStack) :
  forall out s' out',
    close_paren s out = Ok (s', out') ->
    exists popped,
      s = popped ++ "("%char :: s' /\ ~ In "("%char popped
      /\ out' = out ++ map op_token popped.
Proof.
  induction s as [ | top s IH]; intros out s' out' H; cbn [close_paren] in H.
  - discriminate.
  - destruct (Ascii.eqb_spec top "(") as [-> | Hne].
    + inversion H; subst. exists []. cbn. rewrite app_nil_r. auto.
    + destruct (tokens_add out [top]) as [out1 | ] eqn:Ha; [ | discriminate].
      cbn [or_fail bind] in H.
      apply tokens_add_some in Ha. subst out1. apply IH in H. destruct H as (popped & -> & Hp & ->).
      exists (top :: popped). rewrite emit_cons. repeat split; auto.
      intros [Hin | Hin]; [now apply Hne | now apply Hp].
Qed.

Lemma close_paren_room (s : CharStack) :
  forall out,
    count out + Z.of_nat (length s) <= MAX_TOKENS ->
    (In "("%char s -> exists s' out', close_paren s out = Ok (s', out'))
    /\ (~ In "("%char s -> close_paren s out = Err MismatchedParentheses).
Proof.
  induction s as [ | top s IH]; intros out Hroom; cbn [close_paren].
  - split; [intros [] | reflexivity].
  - cbn [length] in Hroom.
    destruct (Ascii.eqb_spec top "(") as [-> | Hne].
    + split; [intros _; eauto | intros Hn; exfalso; apply Hn; now left].
    + rewrite tokens_add_op by lia. cbn [or_fail bind].
      destruct (IH (out ++ [op_token top])) as [IH1 IH2];
        [rewrite count_snoc; lia | ].
      split.
      * intros [Heq | Hin]; [contradiction | now apply IH1].
      * intros Hn. apply IH2. intros Hin. apply Hn. now right.
Qed.

(** *** The pop-before-push loop *)

Lemma pop_higher_ok (op : ascii) (s : CharStack) :
  forall out s' out',
    pop_higher op s out = Ok (s', out') ->
    exists popped,
      s = popped ++ s' /\ Forall (fun c => pops c op = true) popped
      /\ match s' with c :: _ => pops c op = false | [] => True end
      /\ out' = out ++ map op_token popped.
Proof.
  induction s as [ | top s IH]; intros out s' out' H; cbn [pop_higher] in H.
  - inversion H; subst. exists []. cbn. rewrite app_nil_r. auto.
  - destruct (pops top op) eqn:Hp.
    + destruct (tokens_add out [top]) as [out1 | ] eqn:Ha; [ | discriminate].
      cbn [or_fail bind] in H.
      apply tokens_add_some in Ha. subst out1. apply IH in H. destruct H as (popped & -> & Hall & Hs' & ->).
      exists (top :: popped). rewrite emit_cons. repeat split; auto.
    + inversion H; subst. exists []. cbn. rewrite app_nil_r. auto.
Qed.

Lemma pop_higher_room (op : ascii) (s : CharStack) :
  forall out,
    count out + Z.of_nat (length s) <= MAX_TOKENS ->
    exists s' out', pop_higher op s out = Ok (s', out').
Proof.
  induction s as [ | top s IH]; intros out Hroom; cbn [pop_higher].
  - eauto.
  - cbn [length] in Hroom. destruct (pops top op); [ | eauto].
    rewrite tokens_add_op by lia. cbn [or_fail bind].
    apply IH. rewrite count_snoc. lia.
Qed.

(** *** The final drain *)

Lemma drain_ok (s : CharStack) :
  forall out out',
    drain s out = Ok out' ->
    ~ In "("%char s /\ ~ In ")"%char s /\ out' = out ++ map op_token s.
Proof.
  induction s as [ | top s IH]; intros out out' H; cbn [drain] in H.
  - inversion H; subst. cbn. rewrite app_nil_r. auto.
  - destruct (Ascii.eqb_spec top "(") as [-> | Hne1]; [discriminate | ].
    destruct (Ascii.eqb_spec top ")") as [-> | Hne2]; [discriminate | ].
    cbn [orb] in H.
    destruct (tokens_add out [top]) as [out1 | ] eqn:Ha; [ | discriminate].
    cbn [or_fail bind] in H.
    apply tokens_add_some in Ha. subst out1. apply IH in H. destruct H as (H1 & H2 & ->).
    rewrite emit_cons. repeat split; auto.
    + intros [Hin | Hin]; [now apply Hne1 | now apply H1].
    + intros [Hin | Hin]; [now apply Hne2 | now apply H2].
Qed.

Lemma drain_room (s : CharStack) :
  forall out,
    count out + Z.of_nat (length s) <= MAX_TOKENS ->
    (In "("%char s \/ In ")"%char s -> drain s out = Err MismatchedParentheses)
    /\ (~ In "("%char s -> ~ In ")"%char s ->
        drain s out = Ok (out ++ map op_token s)).
Proof.
  induction s as [ | top s IH]; intros out Hroom; cbn [drain].
  - split; [intros [[] | []] | intros _ _; cbn; now rewrite app_nil_r].
  - cbn [length] in Hroom.
    destruct (Ascii.eqb_spec top "(") as [-> | Hne1];
      [split; [reflexivity | intros Hn; exfalso; apply Hn; now left] | ].
    destruct (Ascii.eqb_spec top ")") as [-> | Hne2];
      [split; [reflexivity | intros _ Hn; exfalso; apply Hn; now left] | ].
    cbn [orb]. rewrite tokens_add_op by lia. cbn [or_fail bind].
    destruct (IH (out ++ [op_token top])) as [IH1 IH2];
      [rewrite count_snoc; lia | ].
    split.
    + intros [[Heq | Hin] | [Heq | Hin]]; try contradiction; apply IH1; auto.
    + intros Hn1 Hn2. rewrite <- emit_cons. apply IH2.
      * intros Hin; apply Hn1; now right.
      * intros Hin; apply Hn2; now right.
Qed.

(** ** The iterations as a transition relation *)

Lemma pops_unary (c : ascii) : pops c "u" = false.
Proof.
  unfold pops. destruct (is_operator c); [ | reflexivity].
  cbn [andb is_right_assoc Ascii.eqb Bool.eqb orb negb].
  rewrite andb_false_r, orb_false_r.
  change (precedence "u") with 4.
  unfold precedence.
  repeat match goal with |- context [if ?b then _ else _] => destruct b end;
    reflexivity.
Qed.

Lemma step_transition (c : ascii) (rest : list ascii) (st st' : parser)
    (rest' : list ascii) :
  step c rest st = Ok (st', rest') -> transition c st rest st' rest'.
Proof.
  unfold step. intros H.
  destruct (isspace c) eqn:Hsp; [inversion H; subst; now constructor | ].
  destruct (isdigit c) eqn:Hdg.
  { destruct (read_number rest [c]) as [[buf r] | | ] eqn:Hn; try discriminate.
    cbn [bind] in H. unfold on_number in H.
    destruct (tokens_add (postfix st) buf) as [out | ] eqn:Ha; [ | discriminate].
    cbn [or_fail bind] in H. inversion H; subst; clear H.
    apply read_number_spec in Hn.
    destruct Hn as (ds & -> & -> & Hds & Hlen & Hnext).
    assert (Hl : Z.of_nat (length ([c] ++ ds)) < MAX_TOKEN_LEN).
    { destruct Hlen as [-> | Hlen]; [now cbn | assumption]. }
    unfold tokens_add in Ha.
    destruct (Z.geb_spec (count (postfix st)) MAX_TOKENS) as [ | Hc];
      [discriminate | ].
    rewrite firstn_short in Ha by assumption. inversion Ha; subst.
    now apply T_number. }
  destruct (Ascii.eqb_spec c "(") as [Ho | Hno].
  { unfold on_open in H.
    destruct (cs_push (ops st) "(") as [s1 | ] eqn:Hp; [ | discriminate].
    cbn [or_fail bind] in H. inversion H; subst st' rest'; clear H.
    unfold cs_push in Hp. destruct (cs_top (ops st) + 1 >=? MAX_TOKENS);
      [discriminate | ].
    inversion Hp; subst s1. now apply T_open. }
  destruct (Ascii.eqb_spec c ")") as [Hc | Hnc].
  { unfold on_close in H.
    destruct (close_paren (ops st) (postfix st)) as [[s1 out1] | | ] eqn:Hcl;
      try discriminate.
    cbn [bind] in H. inversion H; subst st' rest'; clear H.
    apply close_paren_ok in Hcl. destruct Hcl as (popped & Hs & Hp & ->).
    now apply T_close. }
  destruct (is_operator c) eqn:Hop; [ | discriminate].
  unfold on_operator in H.
  destruct (classify c (expect_operand st)) as [op | | ] eqn:Hcls;
    try discriminate.
  cbn [bind] in H.
  destruct (pop_higher op (ops st) (postfix st)) as [[s1 out1] | | ] eqn:Hph;
    try discriminate.
  cbn [bind] in H.
  destruct (cs_push s1 op) as [s2 | ] eqn:Hp; [ | discriminate].
  cbn [or_fail bind] in H. inversion H; subst st' rest'; clear H.
  unfold cs_push in Hp. destruct (cs_top s1 + 1 >=? MAX_TOKENS); [discriminate | ].
  inversion Hp; subst s2.
  apply pop_higher_ok in Hph. destruct Hph as (popped & Hs & Hall & Hnext & ->).
  now apply T_operator.
Qed.

(** Every state the loop returns is reached from a state that satisfies an
    invariant of the transitions. *)
Lemma scan_invariant (P : list ascii -> parser -> Prop) :
  (forall c st rest st' rest',
      c <> NUL -> P (c :: rest) st -> transition c st rest st' rest' ->
      P rest' st') ->
  forall l st st',
    P l st -> scan l st = Ok st' ->
    exists l',
      P l' st' /\ match l' with [] => True | c :: _ => c = NUL end.
Proof.
  intros Hstep l st st' HP Hscan.
  assert (R : match scan l st with
              | Ok st1 =>
                  exists l',
                    P l' st1
                    /\ match l' with [] => True | c :: _ => c = NUL end
              | _ => True
              end).
  { apply (scan_rule P
      (fun r => match r with
                | Ok st1 =>
                    exists l',
                      P l' st1
                      /\ match l' with [] => True | c :: _ => c = NUL end
                | _ => True
                end));
      [ | | assumption].
    - intros l0 st0 HP0 Hend. now exists l0.
    - intros c rest st0 Hc HP0.
      destruct (step c rest st0) as [[st1 rest1] | | ] eqn:Hs; auto.
      eapply Hstep; eauto using step_transition. }
  now rewrite Hscan in R.
Qed.

(** ** Capacity

    A line shorter than [MAX_EXPR] characters never fills the token list or
    the operator stack: every iteration consumes at least one character
    and adds at most one entry to the two together. *)

Lemma read_number_err (expr : list ascii) :
  forall buf,
    match read_number expr buf with
    | Ok _ => True
    | Err e => e = NumberTokenTooLong
    | Undefined => False
    end.
Proof.
  unfold read_number.
  induction expr as [ | d expr IH]; intros buf; cbn [read_digits]; [exact I | ].
  destruct (isdigit d); [ | exact I].
  destruct (Z.of_nat (length buf) + 1 >=? MAX_TOKEN_LEN); [reflexivity | apply IH].
Qed.

Lemma classify_cases (c : ascii) (expect : bool) :
  match classify c expect with
  | Ok op => op = "u"%char \/ (op = c /\ (expect = false \/ c = "u"%char))
  | Err e => e = UnexpectedOperator /\ expect = true /\ c <> "-"%char
             /\ c <> "u"%char
  | Undefined => False
  end.
Proof.
  unfold classify.
  destruct (Ascii.eqb_spec c "-") as [-> | Hm]; destruct expect; cbn;
    auto.
  destruct (Ascii.eqb_spec c "u") as [-> | Hu]; cbn; auto.
Qed.

Lemma size_bounds (st : parser) (n : Z) :
  size st <= n ->
  count (postfix st) <= n /\ Z.of_nat (length (ops st)) <= n.
Proof. unfold size, count. lia. Qed.

Lemma step_room (c : ascii) (rest : list ascii) (st : parser) :
  size st + Z.of_nat (length (c :: rest)) < MAX_EXPR ->
  match step c rest st with
  | Ok (st', rest') =>
      size st' + Z.of_nat (length rest')
      <= size st + Z.of_nat (length (c :: rest))
  | Err e => ~ capacity_error e
  | Undefined => False
  end.
Proof.
  intros Hroom. cbn [length] in Hroom |- *. unfold MAX_EXPR in Hroom.
  assert (Hsz : size st < MAX_TOKENS) by (unfold MAX_TOKENS; lia).
  destruct (size_bounds st (size st) (Z.le_refl _)) as [Hc Ho].
  unfold step.
  destruct (isspace c); [lia | ].
  destruct (isdigit c).
  { pose proof (read_number_err rest [c]) as He.
    destruct (read_number rest [c]) as [[buf r] | e | ] eqn:Hn; cbn [bind];
      [ | subst e; intros [H | H]; discriminate | assumption].
    apply read_number_spec in Hn.
    destruct Hn as (ds & -> & -> & _ & Hlen & _).
    unfold on_number. rewrite tokens_add_ok.
    - cbn [or_fail bind]. unfold size; cbn [postfix ops].
      rewrite count_snoc, length_app. unfold size in *. lia.
    - lia.
    - destruct Hlen as [-> | Hlen]; [now cbn | assumption]. }
  destruct (c == "(").
  { unfold on_open. rewrite cs_push_ok by lia. cbn [or_fail bind].
    unfold size in *; cbn [postfix ops length]. lia. }
  destruct (c == ")").
  { unfold on_close.
    destruct (close_paren_room (ops st) (postfix st)) as [Hin Hout];
      [unfold size in Hsz; lia | ].
    destruct (in_dec ascii_dec "("%char (ops st)) as [Hyes | Hno].
    - destruct (Hin Hyes) as (s' & out' & Hcl). rewrite Hcl. cbn [bind].
      apply close_paren_ok in Hcl. destruct Hcl as (popped & Hs & _ & ->).
      unfold size in *; cbn [postfix ops]. rewrite count_app.
      rewrite Hs, length_app in *. cbn [length] in *. lia.
    - rewrite (Hout Hno). cbn [bind]. intros [H | H]; discriminate. }
  destruct (is_operator c); [ | intros [H | H]; discriminate].
  unfold on_operator.
  pose proof (classify_cases c (expect_operand st)) as Hcls.
  destruct (classify c (expect_operand st)) as [op | e | ]; cbn [bind];
    [ | destruct Hcls as [-> _]; intros [H | H]; discriminate | assumption].
  destruct (pop_higher_room op (ops st) (postfix st)) as (s' & out' & Hph);
    [unfold size in Hsz; lia | ].
  rewrite Hph. cbn [bind].
  apply pop_higher_ok in Hph. destruct Hph as (popped & Hs & _ & _ & ->).
  assert (Hlen : Z.of_nat (length (ops st))
                 = Z.of_nat (length popped) + Z.of_nat (length s')).
  { rewrite Hs, length_app. lia. }
  rewrite cs_push_ok by lia. cbn [or_fail bind].
  unfold size in *; cbn [postfix ops length]. rewrite count_app. lia.
Qed.

Lemma scan_room (l : list ascii) (st : parser) :
  size st + Z.of_nat (length l) < MAX_EXPR ->
  match scan l st with
  | Ok st' => size st' <= size st + Z.of_nat (length l)
  | Err e => ~ capacity_error e
  | Undefined => False
  end.
Proof.
  intros Hroom.
  apply (scan_rule
    (fun l' st' => size st' + Z.of_nat (length l')
                   <= size st + Z.of_nat (length l))
    (fun r => match r with
              | Ok st' => size st' <= size st + Z.of_nat (length l)
              | Err e => ~ capacity_error e
              | Undefined => False
              end)).
  - intros l' st' H _. lia.
  - intros c rest st' _ H.
    pose proof (step_room c rest st' ltac:(lia)) as Hs.
    destruct (step c rest st') as [[st1 rest1] | e | ]; [lia | assumption | assumption].
  - lia.
Qed.

Lemma size_init : size parser_init = 0.
Proof. reflexivity. Qed.

(** The state the loop returns on a line leaves room to drain the stack. *)
Lemma scan_line_room (expr : list ascii) (st : parser) :
  Z.of_nat (length expr) < MAX_EXPR ->
  scan expr parser_init = Ok st ->
  count (postfix st) + Z.of_nat (length (ops st)) <= MAX_TOKENS.
Proof.
  intros Hlen Hscan.
  pose proof (scan_room expr parser_init) as H.
  rewrite size_init, Hscan in H. specialize (H ltac:(lia)).
  unfold size, MAX_EXPR, MAX_TOKENS in *. lia.
Qed.

Lemma prefix_line (pre post : list ascii) :
  Z.of_nat (length (pre ++ post)) < MAX_EXPR ->
  Z.of_nat (length pre) < MAX_EXPR.
Proof. rewrite length_app. lia. Qed.

(** ** Reading a text in two parts

    The loop on [pre ++ c :: rest] is the loop on [pre] followed by the loop
    on [c :: rest], as long as [c] cannot continue a numeral that ends
    [pre] and the string does not end inside [pre]. *)

Lemma read_number_app (l : list ascii) (c : ascii) (rest : list ascii) :
  isdigit c = false ->
  forall buf,
    read_number (l ++ c :: rest) buf =
    bind (read_number l buf) (fun p => Ok (fst p, snd p ++ c :: rest)).
Proof.
  intros Hc. unfold read_number.
  induction l as [ | d l IH]; intros buf; cbn [app read_digits].
  - now rewrite Hc.
  - destruct (isdigit d); [ | reflexivity].
    destruct (Z.of_nat (length buf) + 1 >=? MAX_TOKEN_LEN); [reflexivity | apply IH].
Qed.

Lemma step_app (c0 : ascii) (pre : list ascii) (c : ascii)
    (rest : list ascii) (st : parser) :
  isdigit c = false ->
  step c0 (pre ++ c :: rest) st =
  bind (step c0 pre st) (fun p => Ok (fst p, snd p ++ c :: rest)).
Proof.
  intros Hc. unfold step.
  destruct (isspace c0); [reflexivity | ].
  destruct (isdigit c0).
  { rewrite read_number_app by assumption.
    destruct (read_number pre [c0]) as [[buf r] | | ]; cbn [bind fst snd];
      try reflexivity.
    now destruct (on_number buf st). }
  destruct (c0 == "("); [now destruct (on_open st) | ].
  destruct (c0 == ")"); [now destruct (on_close st) | ].
  destruct (is_operator c0); [now destruct (on_operator c0 st) | reflexivity].
Qed.

Lemma scan_app_bounded (c : ascii) (rest : list ascii) (n : nat) :
  isdigit c = false ->
  forall pre st,
    (length pre <= n)%nat -> ~ In NUL pre ->
    scan (pre ++ c :: rest) st = bind (scan pre st) (scan (c :: rest)).
Proof.
  intros Hc. induction n as [ | n IH]; intros pre st Hlen Hnul.
  - destruct pre; [reflexivity | cbn [length] in Hlen; lia].
  - destruct pre as [ | c0 pre]; [reflexivity | ].
    cbn [app]. rewrite (scan_step c0), (scan_step c0 pre).
    destruct (Ascii.eqb_spec c0 NUL) as [-> | _];
      [exfalso; apply Hnul; now left | ].
    rewrite step_app by assumption. rewrite !bind_assoc.
    destruct (step c0 pre st) as [[st1 r] | | ] eqn:Hs; cbn [bind fst snd];
      try reflexivity.
    apply step_suffix in Hs. destruct Hs as [ds ->].
    apply IH.
    + cbn [length] in Hlen. rewrite length_app in Hlen. lia.
    + intros Hin. apply Hnul. right. apply in_or_app. now right.
Qed.

Lemma scan_app (pre : list ascii) (c : ascii) (rest : list ascii)
    (st : parser) :
  isdigit c = false -> ~ In NUL pre ->
  scan (pre ++ c :: rest) st = bind (scan pre st) (scan (c :: rest)).
Proof. intros Hc. now apply (scan_app_bounded c rest (length pre)). Qed.

(** ** Well-formed parser states

    The operator stack holds ['('] and operator characters only; every
    token is an operator token or a numeral of at most [MAX_TOKEN_LEN - 1]
    digits. *)

Lemma wf_entry_operator (c : ascii) :
  wf_entry c -> c <> "("%char -> is_operator c = true.
Proof. now intros [-> | H] Hne. Qed.

Lemma wf_emit (out : TokenList) (popped : list ascii) :
  Forall wf_token out -> Forall wf_entry popped -> ~ In "("%char popped ->
  Forall wf_token (out ++ map op_token popped).
Proof.
  intros Hout Hp Hno. apply Forall_app. split; [assumption | ].
  apply Forall_map. rewrite Forall_forall in *. intros c Hin. left.
  exists c. split; [reflexivity | ].
  apply wf_entry_operator; [now apply Hp | ]. now intros ->.
Qed.

Lemma pops_operator (x op : ascii) : pops x op = true -> is_operator x = true.
Proof. unfold pops. now intros H%andb_prop. Qed.

Lemma classify_operator (c op : ascii) (expect : bool) :
  is_operator c = true -> classify c expect = Ok op -> is_operator op = true.
Proof.
  intros Hc H. pose proof (classify_cases c expect) as Hcls. rewrite H in Hcls.
  destruct Hcls as [-> | [-> _]]; [reflexivity | assumption].
Qed.

Lemma transition_wf (c : ascii) (st : parser) (rest : list ascii)
    (st' : parser) (rest' : list ascii) :
  wf_parser st -> transition c st rest st' rest' -> wf_parser st'.
Proof.
  intros [Hops Hout] T. destruct T; unfold wf_parser; cbn [ops postfix].
  - now split.
  - split; [assumption | ]. apply Forall_app. split; [assumption | ].
    constructor; [ | constructor]. right. repeat split.
    + discriminate.
    + cbn [forallb]. now rewrite H0, H1.
    + assumption.
  - split; [ | assumption]. constructor; [now left | assumption].
  - rewrite H2 in Hops. apply Forall_app in Hops. destruct Hops as [Hp Hs].
    split; [now inversion Hs | ]. now apply wf_emit.
  - rewrite H5 in Hops. apply Forall_app in Hops. destruct Hops as [Hp Hs].
    split.
    + constructor; [ | assumption]. right. eapply classify_operator; eauto.
    + apply Forall_app. split; [assumption | ].
      apply Forall_map. rewrite Forall_forall in *. intros x Hin. left.
      exists x. split; [reflexivity | ]. eapply pops_operator. now apply H6.
Qed.

Lemma scan_wf (expr : list ascii) (st : parser) :
  scan expr parser_init = Ok st -> wf_parser st.
Proof.
  intros H.
  destruct (scan_invariant (fun _ => wf_parser)
              ltac:(intros; eapply transition_wf; eauto)
              expr parser_init st) as [_ [Hwf _]]; auto.
  split; constructor.
Qed.

Lemma wf_no_close (s : CharStack) : Forall wf_entry s -> ~ In ")"%char s.
Proof.
  rewrite Forall_forall. intros H Hin. destruct (H _ Hin); discriminate.
Qed.

(** ** The parser always reports

    Nothing in [infix_to_postfix] is left undefined: it returns a postfix
    sequence or an error. *)

Lemma close_paren_defined (s : CharStack) :
  forall out, close_paren s out <> Undefined.
Proof.
  induction s as [ | top s IH]; intros out; cbn [close_paren]; [discriminate | ].
  destruct (top == "("); [discriminate | ].
  destruct (tokens_add out [top]); cbn [or_fail bind]; [apply IH | discriminate].
Qed.

Lemma pop_higher_defined (op : ascii) (s : CharStack) :
  forall out, pop_higher op s out <> Undefined.
Proof.
  induction s as [ | top s IH]; intros out; cbn [pop_higher]; [discriminate | ].
  destruct (pops top op); [ | discriminate].
  destruct (tokens_add out [top]); cbn [or_fail bind]; [apply IH | discriminate].
Qed.

Lemma drain_defined (s : CharStack) : forall out, drain s out <> Undefined.
Proof.
  induction s as [ | top s IH]; intros out; cbn [drain]; [discriminate | ].
  destruct ((top == "(") || (top == ")")); [discriminate | ].
  destruct (tokens_add out [top]); cbn [or_fail bind]; [apply IH | discriminate].
Qed.

Lemma step_defined (c : ascii) (rest : list ascii) (st : parser) :
  step c rest st <> Undefined.
Proof.
  unfold step.
  destruct (isspace c); [discriminate | ].
  destruct (isdigit c).
  { pose proof (read_number_err rest [c]) as He.
    destruct (read_number rest [c]) as [[buf r] | | ]; cbn [bind];
      [ | discriminate | contradiction].
    unfold on_number.
    destruct (tokens_add (postfix st) buf); cbn [or_fail bind]; discriminate. }
  destruct (c == "(").
  { unfold on_open.
    destruct (cs_push (ops st) "("); cbn [or_fail bind]; discriminate. }
  destruct (c == ")").
  { unfold on_close. pose proof (close_paren_defined (ops st) (postfix st)).
    destruct (close_paren (ops st) (postfix st)) as [[s out] | | ]; cbn [bind];
      [discriminate | discriminate | contradiction]. }
  destruct (is_operator c); [ | discriminate].
  unfold on_operator.
  pose proof (classify_cases c (expect_operand st)) as Hcls.
  destruct (classify c (expect_operand st)) as [op | | ]; cbn [bind];
    [ | discriminate | contradiction].
  pose proof (pop_higher_defined op (ops st) (postfix st)).
  destruct (pop_higher op (ops st) (postfix st)) as [[s out] | | ]; cbn [bind];
    [ | discriminate | contradiction].
  destruct (cs_push s op); cbn [or_fail bind]; discriminate.
Qed.

Lemma scan_defined (expr : list ascii) (st : parser) : scan expr st <> Undefined.
Proof.
  apply (scan_rule (fun _ _ => True) (fun r => r <> Undefined)).
  - discriminate.
  - intros c rest st0 _ _. pose proof (step_defined c rest st0).
    destruct (step c rest st0) as [[? ?] | | ]; [exact I | discriminate | contradiction].
  - exact I.
Qed.

Lemma finish_defined (st : parser) : finish st <> Undefined.
Proof.
  unfold finish. pose proof (drain_defined (ops st) (postfix st)).
  destruct (drain (ops st) (postfix st)); cbn [bind];
    [destruct (expect_operand st); discriminate | discriminate | contradiction].
Qed.

Lemma infix_to_postfix_defined (expr : list ascii) :
  infix_to_postfix expr <> Undefined.
Proof.
  unfold infix_to_postfix. pose proof (scan_defined expr parser_init).
  destruct (scan expr parser_init); cbn [bind];
    [apply finish_defined | discriminate | contradiction].
Qed.

(** ** Characters the loop rejects *)

Lemma outside_charset (c : ascii) :
  in_charset c = false -> c <> "u"%char ->
  isspace c = false /\ isdigit c = false /\ (c == "(") = false
  /\ (c == ")") = false /\ is_operator c = false.
Proof.
  unfold in_charset, is_operator. intros H Hu.
  apply Ascii.eqb_neq in Hu.
  repeat (apply orb_false_elim in H; destruct H as [H ?]).
  repeat match goal with E : _ = false |- _ => rewrite E; clear E end.
  repeat split; reflexivity.
Qed.

Lemma scan_invalid (c : ascii) (rest : list ascii) (st : parser) :
  in_charset c = false -> c <> "u"%char -> c <> NUL ->
  scan (c :: rest) st = Err (InvalidCharacter c).
Proof.
  intros Hc Hu Hn.
  destruct (outside_charset c Hc Hu) as (Hsp & Hdg & Ho & Hcl & Hop).
  cbn [scan]. apply Ascii.eqb_neq in Hn.
  now rewrite Hn, Hsp, Hdg, Ho, Hcl, Hop.
Qed.

(** ** Character classes *)

Lemma operator_cases (c : ascii) :
  is_operator c = true ->
  c = "+"%char \/ c = "-"%char \/ c = "*"%char \/ c = "/"%char
  \/ c = "%"%char \/ c = "^"%char \/ c = "u"%char.
Proof.
  unfold is_operator. intros H.
  repeat (apply orb_prop in H; destruct H as [H | H]);
    apply Ascii.eqb_eq in H; auto 8.
Qed.

Lemma digit_not_operator (c : ascii) : isdigit c = true -> is_operator c = false.
Proof.
  intros Hd. destruct (is_operator c) eqn:Hop; [ | reflexivity].
  apply operator_cases in Hop.
  repeat (destruct Hop as [-> | Hop]); try subst c; discriminate Hd.
Qed.

Lemma digit_not_space (c : ascii) : isdigit c = true -> isspace c = false.
Proof.
  unfold isdigit, isspace. intros [H1 H2]%andb_prop.
  apply Z.leb_le in H1. apply Z.leb_le in H2.
  apply orb_false_intro; [apply Z.eqb_neq; lia | ].
  apply andb_false_intro2. apply Z.leb_gt. lia.
Qed.

Lemma digit_not_nul (c : ascii) : isdigit c = true -> (c == NUL) = false.
Proof.
  intros Hd. apply Ascii.eqb_neq. intros ->. discriminate Hd.
Qed.

Lemma binary_char_binary (c : ascii) :
  binary_char c = true ->
  binary c = true /\ (c == "-") = false /\ (c == "u") = false.
Proof.
  unfold binary_char. intros H.
  repeat (apply orb_prop in H; destruct H as [H | H]);
    apply Ascii.eqb_eq in H; subst c; repeat split.
Qed.

Lemma operator_token (c : ascii) :
  is_operator c = true -> is_operator_token (op_token c) = true.
Proof. intros H. exact H. Qed.

Lemma numeral_token (c : ascii) (ds : list ascii) :
  isdigit c = true -> is_operator_token (c :: ds) = false.
Proof.
  intros Hd. destruct ds; [ | reflexivity]. now apply digit_not_operator.
Qed.

(** ** Replaying what the parser emits *)

Lemma arity_replay_app (a b : TokenList) :
  forall depth,
    arity_replay (a ++ b) depth =
    match arity_replay a depth with
    | Some depth' => arity_replay b depth'
    | None => None
    end.
Proof.
  induction a as [ | t a IH]; intros depth; cbn [app arity_replay];
    [reflexivity | ].
  destruct (arity_step depth t); [apply IH | reflexivity].
Qed.

Lemma pending_app (s1 s2 : CharStack) :
  pending (s1 ++ s2) = pending s1 + pending s2.
Proof.
  induction s1 as [ | c s1 IH]; cbn [app pending]; [reflexivity | ].
  rewrite IH. lia.
Qed.

Lemma pending_nonneg (s : CharStack) : 0 <= pending s.
Proof.
  induction s as [ | c s IH]; cbn [pending]; [lia | ].
  destruct (binary c); lia.
Qed.

(** Operators popped off the stack find their operands whenever the depth
    exceeds the number of binary operators among them. *)
Lemma emit_replay (popped : list ascii) :
  forall depth,
    Forall (fun c => is_operator c = true) popped ->
    1 + pending popped <= depth ->
    arity_replay (map op_token popped) depth = Some (depth - pending popped).
Proof.
  induction popped as [ | c popped IH]; intros depth Hall Hd;
    cbn [map arity_replay pending] in *.
  - f_equal. lia.
  - inversion Hall as [ | ? ? Hc Hrest]; subst.
    pose proof (pending_nonneg popped) as Hp.
    unfold arity_step. rewrite (operator_token c Hc).
    unfold binary in *. rewrite Hc in *. cbn [andb first_char op_token hd] in *.
    destruct (c == "u"); cbn [negb] in *.
    + destruct (Z.ltb_spec depth 1); [lia | ].
      rewrite IH by (assumption || lia). f_equal; lia.
    + destruct (Z.ltb_spec depth 2); [lia | ].
      rewrite IH by (assumption || lia). f_equal; lia.
Qed.

Lemma wf_popped (popped : list ascii) :
  Forall wf_entry popped -> ~ In "("%char popped ->
  Forall (fun c => is_operator c = true) popped.
Proof.
  rewrite !Forall_forall. intros H Hno c Hin.
  apply wf_entry_operator; [now apply H | ]. now intros ->.
Qed.

(** ** Well-sequenced input keeps the parser and the position in step *)

Lemma ws_number_done (l : list ascii) :
  match l with d :: _ => isdigit d = false | [] => True end ->
  well_sequenced In_number l = well_sequenced Operand_done l.
Proof.
  destruct l as [ | d l]; [reflexivity | ]. intros Hd.
  cbn [well_sequenced]. now rewrite Hd.
Qed.

Lemma ws_digits (ds rest : list ascii) :
  forallb isdigit ds = true ->
  well_sequenced In_number (ds ++ rest) = well_sequenced In_number rest.
Proof.
  induction ds as [ | d ds IH]; cbn [app forallb]; [reflexivity | ].
  intros [Hd Hds]%andb_prop. cbn [well_sequenced].
  now rewrite (digit_not_nul d Hd), (digit_not_space d Hd), Hd, IH.
Qed.

Lemma unary_popped (popped : list ascii) :
  Forall (fun x => pops x "u" = true) popped -> popped = [].
Proof.
  destruct popped as [ | x popped]; [reflexivity | ].
  intros H. inversion H as [ | ? ? Hx _]; subst.
  rewrite pops_unary in Hx. discriminate.
Qed.

Lemma popped_operators (op : ascii) (popped : list ascii) :
  Forall (fun x => pops x op = true) popped ->
  Forall (fun c => is_operator c = true) popped.
Proof.
  apply Forall_impl. intros x. apply pops_operator.
Qed.

Lemma in_step_intro (pos : position) (depth : Z) (l : list ascii)
    (st : parser) :
  pos <> In_number -> wf_parser st ->
  expect_operand st = match pos with Operand_due => true | _ => false end ->
  arity_replay (postfix st) 0 = Some depth ->
  depth + (if operand_due pos then 1 else 0) = 1 + pending (ops st) ->
  well_sequenced pos l = true ->
  in_step l st.
Proof.
  intros H1 H2 H3 H4 H5 H6. exists pos.
  split; [assumption | split; [assumption | split; [ | assumption]]].
  split; [assumption | now exists depth].
Qed.

Lemma transition_in_step (c : ascii) (st : parser) (rest : list ascii)
    (st' : parser) (rest' : list ascii) :
  c <> NUL -> in_step (c :: rest) st -> transition c st rest st' rest' ->
  in_step rest' st'.
Proof.
  intros Hc (pos & Hpos & Hwf & [Hflag (d & Hrep & Hbal)] & Hws) T.
  pose proof (transition_wf c st rest st' rest' Hwf T) as Hwf'.
  apply Ascii.eqb_neq in Hc. cbn [well_sequenced] in Hws. rewrite Hc in Hws.
  destruct Hwf as [Hops _].
  destruct T as [rest Hsp | ds rest' Hsp Hdg Hds Hnext Hlen Hcnt
                | rest Hsp Hdg Ho | rest popped s' Hsp Hdg Hcl Hs Hno
                | rest op popped s' Hsp Hdg Hno Hnc Hop Hcls Hs Hall Hnext];
    rewrite Hsp in Hws.
  - apply (in_step_intro pos d); try assumption.
    destruct pos; try assumption. contradiction.
  - rewrite Hdg in Hws.
    assert (Hdue : operand_due pos = true)
      by (destruct pos; (reflexivity || discriminate || contradiction)).
    rewrite Hdue in Hbal.
    apply (in_step_intro Operand_done (d + 1));
      [discriminate | assumption | reflexivity | | | ];
      cbn [postfix ops operand_due].
    + rewrite arity_replay_app, Hrep. cbn [arity_replay]. unfold arity_step.
      now rewrite numeral_token.
    + lia.
    + rewrite <- ws_number_done by assumption.
      rewrite <- (ws_digits ds rest') by assumption.
      destruct pos; (assumption || discriminate || contradiction).
  - rewrite Hdg in Hws. subst c. cbn in Hws.
    assert (Hdue : operand_due pos = true)
      by (destruct pos; (reflexivity || discriminate)).
    rewrite Hdue in Hbal.
    apply (in_step_intro Operand_due d);
      [discriminate | assumption | reflexivity | assumption | | ];
      cbn [postfix ops operand_due pending].
    + change (binary "(") with false. cbn iota. lia.
    + destruct pos; (assumption || discriminate).
  - rewrite Hdg in Hws. subst c. cbn in Hws.
    assert (Hdone : pos = Operand_done)
      by (destruct pos; (reflexivity || discriminate || contradiction)).
    subst pos. cbn [operand_due] in Hbal.
    rewrite Hs in Hops, Hbal. apply Forall_app in Hops. destruct Hops as [Hp _].
    rewrite pending_app in Hbal. cbn [pending] in Hbal.
    change (binary "(") with false in Hbal. cbn iota in Hbal.
    pose proof (pending_nonneg s') as Hnn.
    apply (in_step_intro Operand_done (d - pending popped));
      [discriminate | assumption | reflexivity | | | assumption];
      cbn [postfix ops operand_due].
    + rewrite arity_replay_app, Hrep.
      apply emit_replay; [now apply wf_popped | lia].
    + lia.
  - rewrite Hdg in Hws.
    apply Ascii.eqb_neq in Hno. apply Ascii.eqb_neq in Hnc.
    rewrite Hno, Hnc in Hws.
    rewrite Hflag in Hcls. unfold classify in Hcls.
    destruct (c == "-") eqn:Hminus.
    + apply Ascii.eqb_eq in Hminus. subst c.
      destruct pos; try discriminate; try contradiction.
      * cbn in Hcls. inversion Hcls; subst op. clear Hcls.
        apply unary_popped in Hall. subst popped. cbn [app] in Hs. subst s'.
        cbn [operand_due] in Hbal.
        apply (in_step_intro After_unary d);
          [discriminate | assumption | reflexivity | | | assumption];
          cbn [postfix ops operand_due pending map].
        -- now rewrite app_nil_r.
        -- change (binary "u") with false. cbn iota. lia.
      * cbn in Hcls. inversion Hcls; subst op. clear Hcls.
        cbn [operand_due] in Hbal. rewrite Hs, pending_app in Hbal.
        pose proof (pending_nonneg s') as Hnn.
        apply (in_step_intro Operand_due (d - pending popped));
          [discriminate | assumption | reflexivity | | | assumption];
          cbn [postfix ops operand_due pending].
        -- rewrite arity_replay_app, Hrep.
           apply emit_replay; [now apply (popped_operators "-") | lia].
        -- change (binary "-") with true. cbn iota. lia.
    + destruct (binary_char c) eqn:Hbin; [ | discriminate].
      destruct (binary_char_binary c Hbin) as (Hb & _ & Hu).
      assert (Hdone : pos = Operand_done)
        by (destruct pos; (reflexivity || discriminate || contradiction)).
      subst pos. cbn in Hcls. inversion Hcls; subst op. clear Hcls.
      cbn [operand_due] in Hbal. rewrite Hs, pending_app in Hbal.
      pose proof (pending_nonneg s') as Hnn.
      apply (in_step_intro Operand_due (d - pending popped));
        [discriminate | assumption | | | | assumption];
        cbn [postfix ops expect_operand operand_due pending].
      * now rewrite Hu.
      * rewrite arity_replay_app, Hrep.
        apply emit_replay; [now apply (popped_operators c) | lia].
      * rewrite Hb. lia.
Qed.

Lemma in_step_init (expr : list ascii) :
  well_sequenced Operand_due expr = true -> in_step expr parser_init.
Proof.
  intros H. apply (in_step_intro Operand_due 0); try reflexivity;
    try assumption; try discriminate.
  split; constructor.
Qed.

(** A well-sequenced expression that parses gives a postfix sequence that
    replays, by arities, to exactly one value. *)
Lemma well_sequenced_postfix (expr : list ascii) (toks : TokenList) :
  infix_to_postfix expr = Ok toks ->
  well_sequenced Operand_due expr = true ->
  arity_replay toks 0 = Some 1.
Proof.
  unfold infix_to_postfix. intros Hparse Hws.
  destruct (scan expr parser_init) as [st | | ] eqn:Hscan; try discriminate.
  cbn [bind] in Hparse.
  destruct (scan_invariant in_step transition_in_step expr parser_init st
              (in_step_init expr Hws) Hscan)
    as (l & (pos & Hpos & [Hops _] & [Hflag (d & Hrep & Hbal)] & Hl) & Hend).
  assert (Hdone : pos = Operand_done).
  { destruct l as [ | c l].
    - destruct pos; (reflexivity || discriminate || contradiction).
    - subst c. cbn in Hl.
      destruct pos; (reflexivity || discriminate || contradiction). }
  subst pos. cbn [operand_due] in Hbal.
  unfold finish in Hparse.
  destruct (drain (ops st) (postfix st)) as [out | | ] eqn:Hdrain;
    try discriminate.
  cbn [bind] in Hparse. rewrite Hflag in Hparse. inversion Hparse; subst out.
  apply drain_ok in Hdrain. destruct Hdrain as (Hno & _ & ->).
  rewrite arity_replay_app, Hrep.
  rewrite emit_replay; [f_equal; lia | now apply wf_popped | lia].
Qed.

(** ** The evaluator follows the arities *)

Lemma ns_push_cases (stk : NumStack) (v : Z) :
  ns_push stk v = Some (v :: stk) \/ ns_push stk v = None.
Proof. unfold ns_push. destruct (ns_top stk + 1 >=? MAX_TOKENS); auto. Qed.

Lemma apply_op_binary (op : ascii) (b a : Z) (stk : NumStack) :
  (op == "u") = false ->
  apply_op op (b :: a :: stk) =
  bind (operate op a b) (fun r => or_fail (ns_push stk r) ValueStackOverflow).
Proof. intros H. unfold apply_op. now rewrite H. Qed.

Lemma operate_errors (op : ascii) (a b : Z) (e : error) :
  operate op a b = Err e ->
  e = DivisionByZero \/ e = ModuloByZero \/ e = ExponentiationError
  \/ e = UnknownOperator.
Proof.
  unfold operate, c_div, c_mod.
  repeat match goal with
         | |- context [if ?c then _ else _] => destruct c
         end;
    try discriminate; intros H; inversion H; auto.
  destruct (safe_pow_ll a b); inversion H; auto.
Qed.

Lemma apply_op_errors (op : ascii) (stk : NumStack) (e : error) :
  apply_op op stk = Err e ->
  e = NotEnoughOperandsUnary \/ e = NotEnoughOperandsBinary
  \/ e = ValueStackOverflow \/ e = DivisionByZero \/ e = ModuloByZero
  \/ e = ExponentiationError \/ e = UnknownOperator.
Proof.
  destruct (op == "u") eqn:Hu.
  - unfold apply_op. rewrite Hu. destruct stk as [ | a stk].
    + intros H; inversion H; auto.
    + destruct (ns_push_cases stk (wrap (- a))) as [-> | ->]; cbn [or_fail];
        intros H; inversion H; auto.
  - destruct stk as [ | b [ | a stk]].
    + unfold apply_op. rewrite Hu. intros H; inversion H; auto.
    + unfold apply_op. rewrite Hu. intros H; inversion H; auto.
    + rewrite apply_op_binary by assumption.
      destruct (operate op a b) as [r | e' | ] eqn:Hop; cbn [bind].
      * destruct (ns_push_cases stk r) as [-> | ->]; cbn [or_fail];
          intros H; inversion H; auto.
      * intros H; inversion H; subst e'.
        apply operate_errors in Hop. intuition auto.
      * discriminate.
Qed.

Lemma apply_op_arity (c : ascii) (stk : NumStack) (d : Z) :
  is_operator c = true ->
  arity_step (depth stk) (op_token c) = Some d ->
  match apply_op c stk with
  | Ok stk' => depth stk' = d
  | Err e => ~ arity_error e
  | Undefined => True
  end.
Proof.
  intros Hc. unfold arity_step. rewrite (operator_token c Hc).
  cbn [first_char op_token hd]. unfold depth.
  destruct (c == "u") eqn:Hu.
  - destruct (Z.ltb_spec (Z.of_nat (length stk)) 1) as [ | Hd]; [discriminate | ].
    intros H; inversion H; subst d; clear H.
    destruct stk as [ | a stk]; [cbn [length] in Hd; lia | ].
    unfold apply_op. rewrite Hu.
    destruct (ns_push_cases stk (wrap (- a))) as [-> | ->]; cbn [or_fail].
    + reflexivity.
    + intros [H | [H | H]]; discriminate.
  - destruct (Z.ltb_spec (Z.of_nat (length stk)) 2) as [ | Hd]; [discriminate | ].
    intros H; inversion H; subst d; clear H.
    destruct stk as [ | b [ | a stk]]; try (cbn [length] in Hd; lia).
    rewrite apply_op_binary by assumption.
    destruct (operate c a b) as [r | e | ] eqn:Hop; cbn [bind]; [ | | exact I].
    + destruct (ns_push_cases stk r) as [-> | ->]; cbn [or_fail].
      * cbn [length]. lia.
      * intros [H | [H | H]]; discriminate.
    + apply operate_errors in Hop.
      intros [H | [H | H]]; subst e; intuition discriminate.
Qed.

Lemma eval_arity (toks : TokenList) :
  forall stk d,
    arity_replay toks (depth stk) = Some d ->
    match eval_tokens toks stk with
    | Ok stk' => depth stk' = d
    | Err e => ~ arity_error e
    | Undefined => True
    end.
Proof.
  induction toks as [ | t toks IH]; intros stk d H;
    cbn [arity_replay eval_tokens] in *.
  - now inversion H.
  - destruct (arity_step (depth stk) t) as [d1 | ] eqn:Hstep; [ | discriminate].
    destruct (is_operator_token t) eqn:Hop.
    + destruct t as [ | c [ | ? ?]]; try discriminate.
      cbn [is_operator_token] in Hop. cbn [first_char hd].
      pose proof (apply_op_arity c stk d1 Hop Hstep) as Ha.
      destruct (apply_op c stk) as [stk1 | e | ]; cbn [bind]; try assumption.
      apply IH. now rewrite Ha.
    + unfold arity_step in Hstep. rewrite Hop in Hstep.
      inversion Hstep; subst d1; clear Hstep.
      destruct (erange (strtoll t) || negb (converted (strtoll t))
                || negb match endptr (strtoll t) with [] => true | _ => false end).
      * intros [H1 | [H1 | H1]]; discriminate.
      * destruct (ns_push_cases stk (value (strtoll t))) as [-> | ->];
          cbn [or_fail bind].
        -- apply IH. unfold depth in *. cbn [length].
           now replace (Z.of_nat (S (length stk))) with (Z.of_nat (length stk) + 1) by lia.
        -- intros [H1 | [H1 | H1]]; discriminate.
Qed.

Lemma evaluate_arity (toks : TokenList) (e : error) :
  arity_replay toks 0 = Some 1 ->
  evaluate_postfix toks = Err e -> ~ arity_error e.
Proof.
  intros Hrep. unfold evaluate_postfix.
  pose proof (eval_arity toks [] 1 Hrep) as H.
  destruct (eval_tokens toks []) as [stk | e' | ]; cbn [bind]; try discriminate.
  - destruct stk as [ | v [ | ? ?]]; try discriminate;
      unfold depth in H; cbn [length] in H; lia.
  - intros He; inversion He; now subst e'.
Qed.

(** ** Numerals under [strtoll] *)

Lemma span_digits_all (t : list ascii) :
  forallb isdigit t = true -> span_digits t = (t, []).
Proof.
  induction t as [ | c t IH]; cbn [forallb span_digits]; [reflexivity | ].
  intros [Hc Ht]%andb_prop. now rewrite Hc, IH.
Qed.

Lemma digit_value_nonneg (c : ascii) : isdigit c = true -> 0 <= digit_value c.
Proof.
  unfold isdigit, digit_value. intros [H _]%andb_prop.
  apply Z.leb_le in H. lia.
Qed.

Lemma fold_digits_nonneg (ds : list ascii) :
  forall acc,
    0 <= acc -> forallb isdigit ds = true ->
    0 <= fold_left (fun acc d => acc * 10 + digit_value d) ds acc.
Proof.
  induction ds as [ | d ds IH]; intros acc Hacc; cbn [forallb fold_left].
  - now intros _.
  - intros [Hd Hds]%andb_prop. apply IH; [ | assumption].
    pose proof (digit_value_nonneg d Hd). lia.
Qed.

Lemma decimal_nonneg (ds : list ascii) :
  forallb isdigit ds = true -> 0 <= decimal ds.
Proof. apply fold_digits_nonneg. lia. Qed.

Lemma strtoll_numeral (t : token) :
  numeral t ->
  strtoll t =
  if decimal t >? LLONG_MAX then mkStrtoll LLONG_MAX [] true true
  else mkStrtoll (decimal t) [] true false.
Proof.
  intros (Hne & Hds & _).
  destruct t as [ | c t']; [contradiction | ].
  pose proof Hds as Hall. cbn [forallb] in Hds.
  apply andb_prop in Hds. destruct Hds as [Hc _].
  unfold strtoll. cbn [skip_spaces]. rewrite (digit_not_space c Hc).
  assert (Hm : (c == "-") = false)
    by (apply Ascii.eqb_neq; intros ->; discriminate Hc).
  assert (Hp : (c == "+") = false)
    by (apply Ascii.eqb_neq; intros ->; discriminate Hc).
  rewrite Hm, Hp, (span_digits_all (c :: t') Hall).
  destruct (decimal (c :: t') >? LLONG_MAX); [reflexivity | ].
  pose proof (decimal_nonneg (c :: t') Hall) as Hnn.
  destruct (Z.ltb_spec (decimal (c :: t')) LLONG_MIN) as [Hlt | ];
    [unfold LLONG_MIN, LLONG_MAX in Hlt; lia | reflexivity].
Qed.

Lemma infix_to_postfix_wf (expr : list ascii) (toks : TokenList) :
  infix_to_postfix expr = Ok toks -> Forall wf_token toks.
Proof.
  unfold infix_to_postfix. intros H.
  destruct (scan expr parser_init) as [st | | ] eqn:Hscan; try discriminate.
  cbn [bind] in H. apply scan_wf in Hscan. destruct Hscan as [Hops Hout].
  unfold finish in H.
  destruct (drain (ops st) (postfix st)) as [out | | ] eqn:Hdrain;
    try discriminate.
  cbn [bind] in H. destruct (expect_operand st); [discriminate | ].
  inversion H; subst out. apply drain_ok in Hdrain.
  destruct Hdrain as (Hno & _ & ->). now apply wf_emit.
Qed.

Lemma eval_numbers (toks : TokenList) :
  forall stk,
    Forall wf_token toks -> Forall fits toks ->
    eval_tokens toks stk <> Err InvalidNumber.
Proof.
  induction toks as [ | t toks IH]; intros stk Hwf Hfit;
    cbn [eval_tokens]; [discriminate | ].
  inversion Hwf as [ | ? ? Ht Hwf']; subst.
  inversion Hfit as [ | ? ? Hf Hfit']; subst.
  destruct (is_operator_token t) eqn:Hop.
  - destruct (apply_op (first_char t) stk) as [stk1 | e | ] eqn:Ha;
      cbn [bind]; [now apply IH | | discriminate].
    apply apply_op_errors in Ha. intros H; inversion H; subst e.
    intuition discriminate.
  - destruct Ht as [(c & -> & Hc) | Hnum].
    + cbn [is_operator_token op_token] in Hop. congruence.
    + rewrite (strtoll_numeral t Hnum).
      specialize (Hf Hop).
      destruct (Z.gtb_spec (decimal t) LLONG_MAX) as [Hgt | _]; [lia | ].
      cbn [erange converted endptr value orb negb].
      destruct (ns_push_cases stk (decimal t)) as [-> | ->]; cbn [or_fail bind];
        [now apply IH | discriminate].
Qed.

(** ** The pop-before-push rule *)

Lemma pops_outranks (top op : ascii) : pops top op = true <-> outranks top op.
Proof.
  unfold pops, outranks. rewrite andb_true_iff, orb_true_iff, andb_true_iff.
  rewrite Z.gtb_ltb, Z.ltb_lt, Z.eqb_eq, negb_true_iff.
  split; intros [H1 H2]; (split; [assumption | ]);
    (destruct H2 as [H2 | H2]; [left; lia | now right]).
Qed.

Lemma right_assoc_cases (c : ascii) :
  is_right_assoc c = true <-> c = "^"%char \/ c = "u"%char.
Proof.
  unfold is_right_assoc. rewrite orb_true_iff, !Ascii.eqb_eq. reflexivity.
Qed.

(** ** Where a parenthesis goes unmatched *)

Lemma scan_close_unmatched (rest : list ascii) (st : parser) :
  count (postfix st) + Z.of_nat (length (ops st)) <= MAX_TOKENS ->
  ~ In "("%char (ops st) ->
  scan (")"%char :: rest) st = Err MismatchedParentheses.
Proof.
  intros Hroom Hno. rewrite scan_step. cbn [Ascii.eqb Bool.eqb NUL].
  unfold step. cbn [isspace isdigit code N_of_ascii]. cbn.
  unfold on_close.
  destruct (close_paren_room (ops st) (postfix st) Hroom) as [_ H].
  now rewrite (H Hno).
Qed.

Lemma finish_unclosed (st : parser) :
  count (postfix st) + Z.of_nat (length (ops st)) <= MAX_TOKENS ->
  In "("%char (ops st) ->
  finish st = Err MismatchedParentheses.
Proof.
  intros Hroom Hin. unfold finish.
  destruct (drain_room (ops st) (postfix st) Hroom) as [H _].
  rewrite H by now left. reflexivity.
Qed.

(** ** Operators where an operand is due *)

Lemma scan_unexpected (c : ascii) (rest : list ascii) (st : parser) :
  binary_char c = true -> expect_operand st = true ->
  scan (c :: rest) st = Err UnexpectedOperator.
Proof.
  intros Hc He. unfold binary_char in Hc.
  repeat (apply orb_prop in Hc; destruct Hc as [Hc | Hc]);
    apply Ascii.eqb_eq in Hc; subst c; cbn [scan];
    cbn; unfold on_operator, classify; rewrite He; reflexivity.
Qed.

Lemma finish_expecting (st : parser) :
  count (postfix st) + Z.of_nat (length (ops st)) <= MAX_TOKENS ->
  Forall wf_entry (ops st) -> ~ In "("%char (ops st) ->
  expect_operand st = true ->
  finish st = Err ExpressionEndsUnexpectedly.
Proof.
  intros Hroom Hwf Hno He. unfold finish.
  destruct (drain_room (ops st) (postfix st) Hroom) as [_ H].
  rewrite (H Hno (wf_no_close _ Hwf)). cbn [bind]. now rewrite He.
Qed.

(** ** Two slips of the parser

    The operator branch ends with [expect_operand = (op != 'u')], which
    clears the flag after a unary minus although an operand is still due;
    and [is_operator] accepts the tag ['u'] of the unary minus as an input
    character.  Inputs that run into either are accepted by the parser and
    may fail in the evaluator. *)

Lemma unary_minus_clears_flag :
  scan (cstr "-") parser_init = Ok (mkParser ["u"%char] [] false)
  /\ infix_to_postfix (cstr "-") = Ok [cstr "u"]
  /\ calculate "-" = Err NotEnoughOperandsUnary
  /\ calculate "--2" = Err NotEnoughOperandsUnary
  /\ calculate "-*5" = Err NotEnoughOperandsUnary.
Proof. repeat split; vm_compute; reflexivity. Qed.

Lemma letter_u_is_unary_minus :
  calculate "u5" = Ok (-5) /\ calculate "5u" = Ok (-5)
  /\ calculate "5u3" = Err ExtraOperands.
Proof. repeat split; vm_compute; reflexivity. Qed.

(** ** Texts without a NUL *)

Lemma no_nul (l : list ascii) :
  forallb (fun c => negb (c == NUL)) l = true -> ~ In NUL l.
Proof.
  intros H Hin. rewrite forallb_forall in H. apply H in Hin.
  vm_compute in Hin. discriminate.
Qed.

(** ** The operator branch as a whole *)

(** A successful run of the operator branch: what was popped and emitted,
    and what was left for the new operator to sit on. *)
Lemma on_operator_ok (c op : ascii) (st st' : parser) :
  classify c (expect_operand st) = Ok op ->
  on_operator c st = Ok st' ->
  exists popped s',
    ops st = popped ++ s'
    /\ Forall (fun x => outranks x op) popped
    /\ match s' with x :: _ => ~ outranks x op | [] => True end
    /\ st' = mkParser (op :: s') (postfix st ++ map op_token popped)
                      (negb (op == "u")).
Proof.
  intros Hc H. unfold on_operator in H. rewrite Hc in H. cbn [bind] in H.
  destruct (pop_higher op (ops st) (postfix st)) as [[s1 out1] | | ] eqn:Hp;
    try discriminate.
  cbn [bind] in H.
  destruct (cs_push s1 op) as [s2 | ] eqn:Hpush; [ | discriminate].
  cbn [or_fail bind] in H. inversion H; subst st'; clear H.
  unfold cs_push in Hpush.
  destruct (cs_top s1 + 1 >=? MAX_TOKENS); [discriminate | ].
  inversion Hpush; subst s2; clear Hpush.
  apply pop_higher_ok in Hp. destruct Hp as (popped & Hs & Hall & Hnext & ->).
  exists popped, s1. repeat split; try assumption.
  - apply Forall_impl with (2 := Hall). intros x Hx. now apply pops_outranks.
  - destruct s1 as [ | x s1]; [exact I | ].
    intros Hx. apply pops_outranks in Hx. congruence.
Qed.

(** * The specification's statements *)

(** C1.  The inputs "2+3*4", "2^3^2" and "-2^2" parse, and their postfix
    sequences evaluate to 14, 512 and 4; the postfix sequence of "-2^2"
    is 2, unary minus, 2, ^, printed as "2 ~ 2 ^". *)
Theorem C1_worked_examples :
  infix_to_postfix (cstr "2+3*4")
  = Ok (map cstr ["2"; "3"; "4"; "*"; "+"]%string)
  /\ evaluate_postfix (map cstr ["2"; "3"; "4"; "*"; "+"]%string) = Ok 14
  /\ infix_to_postfix (cstr "2^3^2")
     = Ok (map cstr ["2"; "3"; "2"; "^"; "^"]%string)
  /\ evaluate_postfix (map cstr ["2"; "3"; "2"; "^"; "^"]%string) = Ok 512
  /\ infix_to_postfix (cstr "-2^2")
     = Ok (map cstr ["2"; "u"; "2"; "^"]%string)
  /\ evaluate_postfix (map cstr ["2"; "u"; "2"; "^"]%string) = Ok 4
  /\ print_postfix (map cstr ["2"; "u"; "2"; "^"]%string)
     = cstr "2 ~ 2 ^" ++ ["010"%char].
Proof. repeat split; vm_compute; reflexivity. Qed.

(** C2.  On an operator character [c] the main loop of
    [infix_to_postfix] runs the operator branch and goes on with the rest
    of the input.  For the operator [op] that arrives (the character after
    its reclassification), the branch pops the stack top and hands it to
    [tokens_add] for emission exactly when the top is an operator of
    strictly higher precedence, or of equal precedence while [op] is
    left-associative, and then repeats the test on the new top; otherwise,
    and on an empty stack, nothing is popped and [op] is pushed.  Hence,
    whenever the branch succeeds, the entries popped and emitted are the
    longest run of stack entries that meet the condition, in stack order.
    The precedences are 4 for unary minus, 3 for [^], 2 for [*], [/], [%]
    and 1 for [+], [-]; exactly [^] and unary minus are
    right-associative. *)
Theorem C2_pop_before_push (c op : ascii) (st : parser) :
  is_operator c = true ->
  classify c (expect_operand st) = Ok op ->
  (forall rest,
      scan (c :: rest) st = (st' <- on_operator c st ;; scan rest st'))
  /\ (forall top s,
        ops st = top :: s -> outranks top op ->
        on_operator c st
        = (out <- or_fail (tokens_add (postfix st) (op_token top))
                          TooManyTokens ;;
           on_operator c (mkParser s out (expect_operand st))))
  /\ (forall top s,
        ops st = top :: s -> ~ outranks top op ->
        on_operator c st
        = (s' <- or_fail (cs_push (top :: s) op) OperatorStackOverflow ;;
           Ok (mkParser s' (postfix st) (negb (op == "u")))))
  /\ (ops st = [] ->
      on_operator c st
      = (s' <- or_fail (cs_push [] op) OperatorStackOverflow ;;
         Ok (mkParser s' (postfix st) (negb (op == "u")))))
  /\ (forall st',
        on_operator c st = Ok st' ->
        exists popped s',
          ops st = popped ++ s'
          /\ Forall (fun x => outranks x op) popped
          /\ match s' with x :: _ => ~ outranks x op | [] => True end
          /\ st' = mkParser (op :: s') (postfix st ++ map op_token popped)
                            (negb (op == "u")))
  /\ precedence "u" = 4 /\ precedence "^" = 3
  /\ precedence "*" = 2 /\ precedence "/" = 2 /\ precedence "%" = 2
  /\ precedence "+" = 1 /\ precedence "-" = 1
  /\ (forall x, is_right_assoc x = true <-> x = "^"%char \/ x = "u"%char).
Proof.
  intros Hop Hc.
  split; [ | split; [ | split; [ | split; [ | split]]]].
  - intros rest. apply operator_cases in Hop.
    repeat (destruct Hop as [-> | Hop]); try subst c; reflexivity.
  - intros top s Hs Hout. apply pops_outranks in Hout.
    unfold on_operator. rewrite Hc. cbn [bind ops postfix expect_operand].
    rewrite Hs, Hc. cbn [pop_higher bind]. rewrite Hout.
    unfold op_token.
    destruct (tokens_add (postfix st) [top]); reflexivity.
  - intros top s Hs Hout.
    unfold on_operator. rewrite Hc, Hs. cbn [pop_higher bind].
    destruct (pops top op) eqn:Hp; [ | reflexivity].
    exfalso. apply Hout. now apply pops_outranks.
  - intros Hs. unfold on_operator. rewrite Hc, Hs. reflexivity.
  - intros st' H. now apply (on_operator_ok c op).
  - repeat split; try reflexivity; now apply right_assoc_cases.
Qed.

Lemma C2_pop_before_push_witness :
  on_operator "+" (mkParser ["*"%char] [cstr "2"; cstr "3"] false)
  = Ok (mkParser ["+"%char] [cstr "2"; cstr "3"; cstr "*"] true)
  /\ on_operator "*" (mkParser ["+"%char] [cstr "2"; cstr "3"] false)
     = Ok (mkParser ["*"; "+"]%char [cstr "2"; cstr "3"] true)
  /\ on_operator "^" (mkParser ["^"%char] [cstr "2"; cstr "3"] false)
     = Ok (mkParser ["^"; "^"]%char [cstr "2"; cstr "3"] true)
  /\ on_operator "-" (mkParser ["*"; "+"; "("]%char [cstr "1"] false)
     = Ok (mkParser ["-"; "("]%char [cstr "1"; cstr "*"; cstr "+"] true).
Proof.
  split; [ | split; [ | split]].
  - rewrite (proj1 (proj2 (C2_pop_before_push "+" "+"
                             (mkParser ["*"%char] [cstr "2"; cstr "3"] false)
                             eq_refl eq_refl)) "*"%char [] eq_refl).
    + reflexivity.
    + split; [reflexivity | left; vm_compute; reflexivity].
  - rewrite (proj1 (proj2 (proj2 (C2_pop_before_push "*" "*"
                             (mkParser ["+"%char] [cstr "2"; cstr "3"] false)
                             eq_refl eq_refl))) "+"%char [] eq_refl).
    + reflexivity.
    + intros [_ [H | [H _]]]; vm_compute in H; discriminate.
  - rewrite (proj1 (proj2 (proj2 (C2_pop_before_push "^" "^"
                             (mkParser ["^"%char] [cstr "2"; cstr "3"] false)
                             eq_refl eq_refl))) "^"%char [] eq_refl).
    + reflexivity.
    + intros [_ [H | [_ H]]]; vm_compute in H; discriminate.
  - rewrite (proj1 (proj2 (C2_pop_before_push "-" "-"
                             (mkParser ["*"; "+"; "("]%char [cstr "1"] false)
                             eq_refl eq_refl)) "*"%char ["+"; "("]%char eq_refl).
    + reflexivity.
    + split; [reflexivity | left; vm_compute; reflexivity].
Defined.

(** C3 (as stated, refuted).  In "*a" the character [a] is outside the
    character set, yet the error is "Unexpected operator"; and the letter
    [u], also outside the set, is read as a unary minus: "u5" parses. *)
Lemma C3_counterexample :
  in_charset "a" = false
  /\ infix_to_postfix (cstr "*a") = Err UnexpectedOperator
  /\ infix_to_postfix (cstr "*a") <> Err (InvalidCharacter "a")
  /\ in_charset "u" = false
  /\ infix_to_postfix (cstr "u5") = Ok (map cstr ["5"; "u"]%string).
Proof.
  repeat split; try (vm_compute; reflexivity); vm_compute; discriminate.
Qed.

(** C3 (amended).  An input that contains a character [c] other than the
    letter [u] outside the character set (the operators, the parentheses,
    decimal digits, white space) never parses: the parser reports the
    error raised by the text before [c], if there is one, and "Invalid
    character: 'c'" otherwise. *)
Theorem C3_invalid_character (pre : list ascii) (c : ascii)
    (rest : list ascii) :
  in_charset c = false -> c <> "u"%char -> c <> NUL -> ~ In NUL pre ->
  (exists e, infix_to_postfix (pre ++ c :: rest) = Err e)
  /\ infix_to_postfix (pre ++ c :: rest)
     = bind (scan pre parser_init) (fun _ => Err (InvalidCharacter c))
  /\ message (InvalidCharacter c)
     = ("Invalid character: '" ++ String c "'")%string.
Proof.
  intros Hc Hu Hn Hpre.
  assert (Heq : infix_to_postfix (pre ++ c :: rest)
                = bind (scan pre parser_init)
                       (fun _ => Err (InvalidCharacter c))).
  { unfold infix_to_postfix.
    destruct (outside_charset c Hc Hu) as (_ & Hdg & _).
    rewrite scan_app by assumption. rewrite bind_assoc.
    destruct (scan pre parser_init) as [st | e | ]; cbn [bind]; try reflexivity.
    now rewrite scan_invalid. }
  split; [ | split; [exact Heq | reflexivity]].
  rewrite Heq. pose proof (scan_defined pre parser_init) as Hd.
  destruct (scan pre parser_init) as [st | e | ]; cbn [bind]; eauto.
  contradiction.
Qed.

Lemma C3_invalid_character_witness :
  infix_to_postfix (cstr "1+a") = Err (InvalidCharacter "a")
  /\ infix_to_postfix (cstr "*a") = Err UnexpectedOperator.
Proof.
  split.
  - exact (proj1 (proj2 (C3_invalid_character (cstr "1+") "a" []
             eq_refl ltac:(discriminate) ltac:(discriminate)
             ltac:(vm_compute; intuition discriminate)))).
  - exact (proj1 (proj2 (C3_invalid_character (cstr "*") "a" []
             eq_refl ltac:(discriminate) ltac:(discriminate)
             ltac:(vm_compute; intuition discriminate)))).
Defined.

(** C4 (as stated, refuted).  "1 2" parses to the postfix sequence 1, 2,
    which leaves two values ("Extra operands or insufficient operators");
    "()+()" parses to the single token [+], which underflows. *)
Lemma C4_counterexample :
  infix_to_postfix (cstr "1 2") = Ok (map cstr ["1"; "2"]%string)
  /\ evaluate_postfix (map cstr ["1"; "2"]%string) = Err ExtraOperands
  /\ infix_to_postfix (cstr "()+()") = Ok (map cstr ["+"]%string)
  /\ evaluate_postfix (map cstr ["+"]%string) = Err NotEnoughOperandsBinary.
Proof. repeat split; vm_compute; reflexivity. Qed.

(** C4 (amended).  For every input that parses and is well sequenced
    (numerals and ['('] only where an operand is due, [')'] and binary
    operators only after a complete operand, at most one unary minus
    before an operand, no character outside the character set), the
    postfix sequence replayed by arities from an empty stack never
    underflows and leaves exactly one value, and [evaluate_postfix] reports
    none of the operand-count errors. *)
Theorem C4_well_sequenced_arity (expr : list ascii) (toks : TokenList) :
  infix_to_postfix expr = Ok toks ->
  well_sequenced Operand_due expr = true ->
  arity_replay toks 0 = Some 1
  /\ evaluate_postfix toks <> Err NotEnoughOperandsUnary
  /\ evaluate_postfix toks <> Err NotEnoughOperandsBinary
  /\ evaluate_postfix toks <> Err ExtraOperands.
Proof.
  intros Hparse Hws.
  pose proof (well_sequenced_postfix expr toks Hparse Hws) as Hrep.
  split; [assumption | ].
  repeat split; intros He; apply (evaluate_arity toks _ Hrep He);
    unfold arity_error; auto.
Qed.

Lemma C4_well_sequenced_arity_witness :
  arity_replay (map cstr ["2"; "5"; "u"; "*"; "7"; "3"; "u"; "-"; "+"]%string) 0
  = Some 1.
Proof.
  exact (proj1 (C4_well_sequenced_arity (cstr "2*-5 + (7 - -(3))")
                  (map cstr ["2"; "5"; "u"; "*"; "7"; "3"; "u"; "-"; "+"]%string)
                  ltac:(vm_compute; reflexivity)
                  ltac:(vm_compute; reflexivity))).
Defined.

(** C5 (as stated, refuted).  The numeral 99999999999999999999 parses (it
    has fewer than [MAX_TOKEN_LEN] digits) but exceeds [LLONG_MAX], and the
    evaluator fails with "Invalid number in postfix". *)
Lemma C5_counterexample :
  infix_to_postfix (cstr "99999999999999999999")
  = Ok [cstr "99999999999999999999"]
  /\ evaluate_postfix [cstr "99999999999999999999"] = Err InvalidNumber.
Proof. split; vm_compute; reflexivity. Qed.

(** C5 (amended).  Every token of a postfix sequence the parser produces
    is an operator token or a non-empty run of fewer than [MAX_TOKEN_LEN]
    decimal digits; when every such numeral denotes a value of at most
    [LLONG_MAX], [evaluate_postfix] never fails with "Invalid number in
    postfix". *)
Theorem C5_numerals_in_range (expr : list ascii) (toks : TokenList) :
  infix_to_postfix expr = Ok toks ->
  Forall fits toks ->
  Forall wf_token toks /\ evaluate_postfix toks <> Err InvalidNumber.
Proof.
  intros Hparse Hfit.
  pose proof (infix_to_postfix_wf expr toks Hparse) as Hwf.
  split; [assumption | ].
  unfold evaluate_postfix.
  pose proof (eval_numbers toks [] Hwf Hfit) as Hn.
  destruct (eval_tokens toks []) as [stk | e | ]; cbn [bind];
    [ | congruence | discriminate].
  destruct stk as [ | v [ | ? ?]]; discriminate.
Qed.

Lemma C5_numerals_in_range_witness :
  evaluate_postfix (map cstr ["9223372036854775807"; "1"; "-"]%string)
  <> Err InvalidNumber.
Proof.
  refine (proj2 (C5_numerals_in_range (cstr "9223372036854775807 - 1")
                   (map cstr ["9223372036854775807"; "1"; "-"]%string)
                   ltac:(vm_compute; reflexivity) _)).
  repeat constructor; intros _; vm_compute; discriminate.
Defined.

(** C6 (as stated, refuted).  The right operand [-1] is not zero, but
    [LLONG_MIN / -1] is not truncating division: the quotient [2^63] is
    not a [long long], and neither [a / b] nor [a % b] is defined. *)
Lemma C6_counterexample :
  in_range LLONG_MIN /\ in_range (-1)
  /\ ~ in_range (Z.quot LLONG_MIN (-1))
  /\ apply_op "/" [-1; LLONG_MIN] = Undefined
  /\ apply_op "/" [-1; LLONG_MIN] <> Ok [Z.quot LLONG_MIN (-1)]
  /\ apply_op "%" [-1; LLONG_MIN] = Undefined
  /\ apply_op "%" [-1; LLONG_MIN] <> Ok [Z.rem LLONG_MIN (-1)]
  /\ calculate "(-9223372036854775807-1)/-1" = Undefined.
Proof.
  repeat split; try (vm_compute; reflexivity); try (vm_compute; discriminate).
  intros [_ H]. vm_compute in H. now apply H.
Qed.

(** C6 (amended).  In [apply_op], [/] with right operand 0 fails with
    "Division by zero" and [%] with "Modulo by zero"; for every non-zero
    right operand [b], except for the pair [a = LLONG_MIN], [b = -1],
    [a / b] is the quotient truncated toward zero and [a % b] the
    remainder of that division: [a = (a / b) * b + a % b], with
    [|a % b| < |b|] and the sign of [a]. *)
Theorem C6_division (a b : Z) (stk : NumStack) :
  in_range a -> in_range b ->
  Z.of_nat (length (b :: a :: stk)) <= MAX_TOKENS ->
  (b = 0 ->
   apply_op "/" (b :: a :: stk) = Err DivisionByZero
   /\ apply_op "%" (b :: a :: stk) = Err ModuloByZero)
  /\ (b <> 0 -> ~ (a = LLONG_MIN /\ b = -1) ->
      apply_op "/" (b :: a :: stk) = Ok (Z.quot a b :: stk)
      /\ apply_op "%" (b :: a :: stk) = Ok (Z.rem a b :: stk)
      /\ a = Z.quot a b * b + Z.rem a b
      /\ Z.abs (Z.rem a b) < Z.abs b
      /\ 0 <= Z.rem a b * a)
  /\ message DivisionByZero = "Division by zero"%string
  /\ message ModuloByZero = "Modulo by zero"%string
  /\ calculate "5/0" = Err DivisionByZero
  /\ calculate "5%0" = Err ModuloByZero.
Proof.
  intros Ha Hb Hlen.
  split; [intros ->; apply apply_div_zero | ].
  split; [ | repeat split; vm_compute; reflexivity].
  intros Hnz Hmin.
  destruct (apply_div a b stk Ha Hnz Hmin Hlen) as [Hd Hm].
  split; [assumption | split; [assumption | ]].
  split; [ | split].
  - rewrite Z.mul_comm. now apply Z.quot_rem'.
  - now apply Z.rem_bound_abs.
  - now apply Z.rem_sign_mul.
Qed.

Lemma C6_division_witness :
  apply_op "/" [2; -7] = Ok [-3] /\ apply_op "%" [2; -7] = Ok [-1].
Proof.
  destruct (proj1 (proj2 (C6_division (-7) 2 []
              ltac:(vm_compute; split; discriminate)
              ltac:(vm_compute; split; discriminate)
              ltac:(vm_compute; discriminate)))
              ltac:(discriminate) ltac:(intros [_ H]; discriminate H))
    as (Hd & Hm & _).
  split; [exact Hd | exact Hm].
Defined.

(** C7 (as stated, refuted).  [(-2)^63 = LLONG_MIN] is representable, but
    the magnitude test of [safe_pow_ll] rejects it. *)
Lemma C7_counterexample :
  in_range (-2) /\ in_range 63 /\ in_range ((-2) ^ 63)
  /\ apply_op "^" [63; -2] = Err ExponentiationError
  /\ apply_op "^" [63; -2] <> Ok [(-2) ^ 63]
  /\ calculate "(-2)^63" = Err ExponentiationError.
Proof.
  repeat split; try (vm_compute; reflexivity); vm_compute; discriminate.
Qed.

(** C7 (amended).  For operands [a] and [b] of [^]: a negative [b] fails
    with "Invalid or overflow in exponentiation"; for [b >= 0], when the
    magnitude of [a^b] is at most [LLONG_MAX] the evaluation succeeds with
    exactly [a^b], and when it is larger and [a] is not [LLONG_MIN] the
    evaluation fails with the same message.  "2^100" fails with it. *)
Theorem C7_checked_power (a b : Z) (stk : NumStack) :
  in_range a -> in_range b ->
  Z.of_nat (length (b :: a :: stk)) <= MAX_TOKENS ->
  (b < 0 -> apply_op "^" (b :: a :: stk) = Err ExponentiationError)
  /\ (0 <= b -> Z.abs (a ^ b) <= LLONG_MAX ->
      apply_op "^" (b :: a :: stk) = Ok (a ^ b :: stk))
  /\ (0 <= b -> LLONG_MAX < Z.abs (a ^ b) -> a <> LLONG_MIN ->
      apply_op "^" (b :: a :: stk) = Err ExponentiationError)
  /\ message ExponentiationError
     = "Invalid or overflow in exponentiation"%string
  /\ calculate "2^100" = Err ExponentiationError.
Proof.
  intros Ha Hb Hlen. rewrite (apply_pow a b stk Hlen).
  split; [ | split; [ | split; [ | split; vm_compute; reflexivity]]].
  - intros Hneg. destruct b; try lia. reflexivity.
  - intros Hnn Hfit. destruct b as [ | p | p]; [reflexivity | | lia].
    assert (Habs : Z.abs a <= LLONG_MAX)
      by (pose proof (abs_le_abs_pow a p); lia).
    rewrite safe_pow_ll_spec by assumption.
    destruct (Z.leb_spec (Z.abs (a ^ Zpos p)) LLONG_MAX); [reflexivity | lia].
  - intros Hnn Hbig Hmin.
    assert (Habs : Z.abs a <= LLONG_MAX)
      by (unfold in_range, LLONG_MIN in *; lia).
    rewrite safe_pow_ll_spec by assumption.
    destruct (Z.leb_spec (Z.abs (a ^ b)) LLONG_MAX); [lia | reflexivity].
Qed.

Lemma C7_checked_power_witness :
  apply_op "^" [-3; 2] = Err ExponentiationError
  /\ apply_op "^" [62; 2] = Ok [4611686018427387904]
  /\ apply_op "^" [63; 2] = Err ExponentiationError.
Proof.
  split; [ | split].
  - apply (proj1 (C7_checked_power 2 (-3) []
                    ltac:(vm_compute; split; discriminate)
                    ltac:(vm_compute; split; discriminate)
                    ltac:(vm_compute; discriminate))).
    reflexivity.
  - apply (proj1 (proj2 (C7_checked_power 2 62 []
                    ltac:(vm_compute; split; discriminate)
                    ltac:(vm_compute; split; discriminate)
                    ltac:(vm_compute; discriminate))));
      vm_compute; discriminate.
  - apply (proj1 (proj2 (proj2 (C7_checked_power 2 63 []
                    ltac:(vm_compute; split; discriminate)
                    ltac:(vm_compute; split; discriminate)
                    ltac:(vm_compute; discriminate)))));
      [vm_compute; discriminate | vm_compute; reflexivity | discriminate].
Defined.

(** C8 (as stated, refuted).  The token list holds [MAX_TOKENS] tokens.
    In "1+", then 4095 times "1 ", then ")" the [')'] is read with no
    ['('] on the stack, and in "(1+", then 4095 times "1 ", a ['('] is
    left on the stack at the end; in both the [+] on top of the stack has
    to be emitted first, the token list is full, and the error is "Too
    many tokens". *)
Lemma C8_counterexample :
  let ones := concat (repeat (cstr "1 ") 4095) in
  (unmatched_close (cstr "1+" ++ ones ++ cstr ")")
   /\ infix_to_postfix (cstr "1+" ++ ones ++ cstr ")") = Err TooManyTokens
   /\ infix_to_postfix (cstr "1+" ++ ones ++ cstr ")")
      <> Err MismatchedParentheses)
  /\ (unclosed_open (cstr "(1+" ++ ones)
      /\ infix_to_postfix (cstr "(1+" ++ ones) = Err TooManyTokens
      /\ infix_to_postfix (cstr "(1+" ++ ones)
         <> Err MismatchedParentheses).
Proof.
  cbv zeta.
  assert (Hclose : infix_to_postfix
                     (cstr "1+" ++ concat (repeat (cstr "1 ") 4095)
                      ++ cstr ")") = Err TooManyTokens)
    by (vm_compute; reflexivity).
  assert (Hopen : infix_to_postfix
                    (cstr "(1+" ++ concat (repeat (cstr "1 ") 4095))
                  = Err TooManyTokens)
    by (vm_compute; reflexivity).
  split; (split; [ | split; [assumption | ]]).
  - exists (cstr "1+" ++ concat (repeat (cstr "1 ") 4095)), [],
      (mkParser ["+"%char] (repeat (cstr "1") 4096) false).
    split; [now rewrite <- app_assoc | ].
    split; [apply no_nul; vm_compute; reflexivity | ].
    split; [vm_compute; reflexivity | ].
    intros [H | []]. discriminate H.
  - rewrite Hclose. discriminate.
  - exists (mkParser ["+"; "("]%char (repeat (cstr "1") 4096) false).
    split; [vm_compute; reflexivity | right; left; reflexivity].
  - rewrite Hopen. discriminate.
Qed.

(** C8 (amended).  On an input shorter than [MAX_EXPR] characters,
    [infix_to_postfix] fails with "Mismatched parentheses" both when a
    [')'] is read while no ['('] is on the operator stack and when a ['(']
    is left on the stack at the end of the input; "(1+2" and "1+2)" fail
    with it. *)
Theorem C8_mismatched_parentheses (expr : list ascii) :
  Z.of_nat (length expr) < MAX_EXPR ->
  unmatched_close expr \/ unclosed_open expr ->
  infix_to_postfix expr = Err MismatchedParentheses
  /\ message MismatchedParentheses = "Mismatched parentheses"%string
  /\ infix_to_postfix (cstr "(1+2") = Err MismatchedParentheses
  /\ infix_to_postfix (cstr "1+2)") = Err MismatchedParentheses.
Proof.
  intros Hlen H.
  split; [ | repeat split; vm_compute; reflexivity].
  unfold infix_to_postfix.
  destruct H as [(pre & rest & st & -> & Hnul & Hscan & Hno) | (st & Hscan & Hin)].
  - rewrite scan_app by (assumption || reflexivity).
    rewrite Hscan. cbn [bind].
    rewrite scan_close_unmatched; [reflexivity | | assumption].
    apply (scan_line_room pre); [ | assumption].
    now apply (prefix_line pre (")"%char :: rest)).
  - rewrite Hscan. cbn [bind]. apply finish_unclosed; [ | assumption].
    now apply (scan_line_room expr).
Qed.

Lemma C8_mismatched_parentheses_witness :
  infix_to_postfix (cstr "1+2)*3") = Err MismatchedParentheses
  /\ infix_to_postfix (cstr "2*(1+2") = Err MismatchedParentheses.
Proof.
  split.
  - refine (proj1 (C8_mismatched_parentheses (cstr "1+2)*3")
                     ltac:(vm_compute; reflexivity) (or_introl _))).
    exists (cstr "1+2"), (cstr "*3"), (mkParser ["+"%char] [cstr "1"; cstr "2"] false).
    repeat split; try (vm_compute; reflexivity);
      vm_compute; intuition discriminate.
  - refine (proj1 (C8_mismatched_parentheses (cstr "2*(1+2")
                     ltac:(vm_compute; reflexivity) (or_intror _))).
    exists (mkParser ["+"; "("; "*"]%char [cstr "2"; cstr "1"; cstr "2"] false).
    split; [vm_compute; reflexivity | right; left; reflexivity].
Defined.

(** C9 (as stated, refuted).  At the end of "(1+" the operand-expected
    flag is set, but the drain of the operator stack comes first and the
    error is "Mismatched parentheses".  At the end of 4096 times "1 ",
    then "+", the flag is set and no ['('] is on the stack, but the token
    list is full when the drain emits the [+], and the error is "Too many
    tokens". *)
Lemma C9_counterexample :
  (exists st,
      scan (cstr "(1+") parser_init = Ok st /\ expect_operand st = true)
  /\ infix_to_postfix (cstr "(1+") = Err MismatchedParentheses
  /\ infix_to_postfix (cstr "(1+") <> Err ExpressionEndsUnexpectedly
  /\ (let long := concat (repeat (cstr "1 ") 4096) ++ cstr "+" in
      (exists st,
          scan long parser_init = Ok st /\ expect_operand st = true
          /\ ~ In "("%char (ops st))
      /\ infix_to_postfix long = Err TooManyTokens).
Proof.
  split; [ | split; [vm_compute; reflexivity | split;
                     [vm_compute; discriminate | ]]].
  - exists (mkParser ["+"; "("]%char [cstr "1"] true).
    split; vm_compute; reflexivity.
  - cbv zeta. split; [ | vm_compute; reflexivity].
    exists (mkParser ["+"%char] (repeat (cstr "1") 4096) true).
    split; [vm_compute; reflexivity | split; [reflexivity | ]].
    intros [H | []]. discriminate H.
Qed.

(** C9 (amended).  Reading one of [+ * / % ^] while the operand-expected
    flag is set fails with "Unexpected operator".  On a line shorter than
    [MAX_EXPR] characters, reaching the end of the input with the flag set
    and no ['('] left on the operator stack fails with "Expression ends
    unexpectedly".  "*5" fails with the first error, "5+" with the
    second. *)
Theorem C9_operand_expected :
  (forall pre c rest st,
      ~ In NUL pre -> scan pre parser_init = Ok st ->
      expect_operand st = true -> binary_char c = true ->
      infix_to_postfix (pre ++ c :: rest) = Err UnexpectedOperator)
  /\ (forall expr st,
        Z.of_nat (length expr) < MAX_EXPR ->
        scan expr parser_init = Ok st ->
        expect_operand st = true -> ~ In "("%char (ops st) ->
        infix_to_postfix expr = Err ExpressionEndsUnexpectedly)
  /\ message UnexpectedOperator = "Unexpected operator"%string
  /\ message ExpressionEndsUnexpectedly
     = "Expression ends unexpectedly"%string
  /\ infix_to_postfix (cstr "*5") = Err UnexpectedOperator
  /\ infix_to_postfix (cstr "5+") = Err ExpressionEndsUnexpectedly.
Proof.
  split; [ | split; [ | repeat split; vm_compute; reflexivity]].
  - intros pre c rest st Hnul Hscan He Hc. unfold infix_to_postfix.
    rewrite scan_app; [ | | assumption].
    + rewrite Hscan. cbn [bind]. now rewrite scan_unexpected.
    + destruct (isdigit c) eqn:Hd; [ | reflexivity].
      apply digit_not_operator in Hd.
      destruct (binary_char_binary c Hc) as ([Hop _]%andb_prop & _).
      congruence.
  - intros expr st Hlen Hscan He Hno. unfold infix_to_postfix.
    rewrite Hscan. cbn [bind]. apply finish_expecting; try assumption.
    + now apply (scan_line_room expr).
    + now apply scan_wf in Hscan as [Hops _].
Qed.

Lemma C9_operand_expected_witness :
  infix_to_postfix (cstr "2+*3") = Err UnexpectedOperator
  /\ infix_to_postfix (cstr "2*(3)+") = Err ExpressionEndsUnexpectedly.
Proof.
  split.
  - exact (proj1 C9_operand_expected (cstr "2+") "*"%char (cstr "3")
             (mkParser ["+"%char] [cstr "2"] true)
             ltac:(vm_compute; intuition discriminate)
             ltac:(vm_compute; reflexivity) eq_refl eq_refl).
  - exact (proj1 (proj2 C9_operand_expected) (cstr "2*(3)+")
             (mkParser ["+"%char] [cstr "2"; cstr "3"; cstr "*"] true)
             ltac:(vm_compute; reflexivity)
             ltac:(vm_compute; reflexivity) eq_refl
             ltac:(vm_compute; intuition discriminate)).
Defined.

(** C10 (as stated, refuted).  [LLONG_MIN] is a [long long], but
    [LLONG_MIN ^ 1] fails: the magnitude test takes [llabs(LLONG_MIN)]. *)
Lemma C10_counterexample :
  in_range LLONG_MIN
  /\ apply_op "^" [1; LLONG_MIN] = Err ExponentiationError
  /\ apply_op "^" [1; LLONG_MIN] <> Ok [LLONG_MIN]
  /\ calculate "(-9223372036854775807-1)^1" = Err ExponentiationError.
Proof.
  repeat split; try (vm_compute; reflexivity); vm_compute; discriminate.
Qed.

(** C10 (amended).  For every [long long] base [a], zero included, [^]
    with exponent 0 succeeds with 1 (so "0^0" is 1); with exponent 1 it
    succeeds with [a] for every [a] other than [LLONG_MIN]. *)
Theorem C10_power_zero_one (a : Z) (stk : NumStack) :
  in_range a ->
  Z.of_nat (length stk) + 2 <= MAX_TOKENS ->
  apply_op "^" (0 :: a :: stk) = Ok (1 :: stk)
  /\ (a <> LLONG_MIN -> apply_op "^" (1 :: a :: stk) = Ok (a :: stk))
  /\ calculate "0^0" = Ok 1.
Proof.
  intros Ha Hlen.
  assert (Hl : forall b, Z.of_nat (length (b :: a :: stk)) <= MAX_TOKENS)
    by (intros b; cbn [length]; lia).
  split; [ | split; [ | vm_compute; reflexivity]].
  - now rewrite (apply_pow a 0 stk (Hl 0)).
  - intros Hmin. rewrite (apply_pow a 1 stk (Hl 1)).
    assert (Habs : Z.abs a <= LLONG_MAX)
      by (unfold in_range, LLONG_MIN in *; lia).
    rewrite safe_pow_ll_spec by (assumption || lia).
    rewrite Z.pow_1_r.
    destruct (Z.leb_spec (Z.abs a) LLONG_MAX); [reflexivity | lia].
Qed.

Lemma C10_power_zero_one_witness :
  apply_op "^" [0; 0] = Ok [1] /\ apply_op "^" [1; -7] = Ok [-7].
Proof.
  split.
  - exact (proj1 (C10_power_zero_one 0 []
                    ltac:(vm_compute; split; discriminate)
                    ltac:(vm_compute; discriminate))).
  - exact (proj1 (proj2 (C10_power_zero_one (-7) []
                    ltac:(vm_compute; split; discriminate)
                    ltac:(vm_compute; discriminate)))
                 ltac:(discriminate)).
Defined.


(** * Further properties of the parser *)

(** ** Capacity and size *)

(** X1.  On a line shorter than [MAX_EXPR] characters the fixed buffers
    are never the limit: [infix_to_postfix] fails neither with "Too many
    tokens" nor with "Operator stack overflow". *)
Theorem line_never_exhausts_capacity (expr : list ascii) :
  Z.of_nat (length expr) < MAX_EXPR ->
  infix_to_postfix expr <> Err TooManyTokens
  /\ infix_to_postfix expr <> Err OperatorStackOverflow.
Proof.
  intros Hlen.
  assert (H : forall e, infix_to_postfix expr = Err e -> ~ capacity_error e).
  { intros e. unfold infix_to_postfix.
    pose proof (scan_room expr parser_init) as Hroom.
    rewrite size_init in Hroom. specialize (Hroom ltac:(lia)).
    destruct (scan expr parser_init) as [st | e' | ] eqn:Hscan; cbn [bind].
    - unfold finish.
      destruct (drain_room (ops st) (postfix st)) as [Hbad Hgood].
      { unfold size, MAX_EXPR, MAX_TOKENS in *. lia. }
      destruct (in_dec ascii_dec "("%char (ops st)) as [Hin | Hno];
        [rewrite Hbad by now left | ].
      { cbn [bind]. intros He; inversion He. intros [Hc | Hc]; discriminate. }
      destruct (in_dec ascii_dec ")"%char (ops st)) as [Hin | Hno'];
        [rewrite Hbad by now right | ].
      { cbn [bind]. intros He; inversion He. intros [Hc | Hc]; discriminate. }
      rewrite (Hgood Hno Hno'). cbn [bind].
      destruct (expect_operand st); [ | discriminate].
      intros He; inversion He. intros [Hc | Hc]; discriminate.
    - intros He; inversion He; now subst.
    - discriminate. }
  split; intros He; apply (H _ He); [now left | now right].
Qed.

Lemma line_never_exhausts_capacity_witness :
  infix_to_postfix (cstr "((((1)))) + 2") <> Err OperatorStackOverflow.
Proof.
  exact (proj2 (line_never_exhausts_capacity (cstr "((((1)))) + 2")
                  ltac:(vm_compute; reflexivity))).
Defined.

Lemma transition_size (c : ascii) (st : parser) (rest : list ascii)
    (st' : parser) (rest' : list ascii) :
  transition c st rest st' rest' ->
  size st' + Z.of_nat (length rest')
  <= size st + Z.of_nat (length (c :: rest)).
Proof.
  intros T. destruct T; unfold size; cbn [ops postfix length].
  - lia.
  - rewrite count_snoc, length_app. lia.
  - lia.
  - rewrite count_app. rewrite H2, length_app. cbn [length]. lia.
  - rewrite count_app. rewrite H5, length_app. lia.
Qed.

(** X2.  A postfix sequence has at most as many tokens as the input has
    characters: every token is paid for by a character of its own. *)
Theorem postfix_no_longer_than_input (expr : list ascii) (toks : TokenList) :
  infix_to_postfix expr = Ok toks ->
  count toks <= Z.of_nat (length expr).
Proof.
  unfold infix_to_postfix. intros H.
  destruct (scan expr parser_init) as [st | | ] eqn:Hscan; try discriminate.
  cbn [bind] in H.
  destruct (scan_invariant
              (fun l st0 => size st0 + Z.of_nat (length l)
                            <= Z.of_nat (length expr)))
    with (l := expr) (st := parser_init) (st' := st)
    as (l & Hsize & _); [ | rewrite size_init; lia | assumption | ].
  { intros c st0 rest st1 rest1 _ HP T.
    pose proof (transition_size c st0 rest st1 rest1 T). lia. }
  unfold finish in H.
  destruct (drain (ops st) (postfix st)) as [out | | ] eqn:Hd; try discriminate.
  cbn [bind] in H. destruct (expect_operand st); [discriminate | ].
  inversion H; subst out. apply drain_ok in Hd. destruct Hd as (_ & _ & ->).
  rewrite count_app. unfold size in Hsize. lia.
Qed.

Lemma postfix_no_longer_than_input_witness :
  count (map cstr ["12"; "34"; "+"]%string) <= 7.
Proof.
  exact (postfix_no_longer_than_input (cstr "12 + 34")
           (map cstr ["12"; "34"; "+"]%string)
           ltac:(vm_compute; reflexivity)).
Defined.

(** ** White space *)

Lemma space_not_nul (c : ascii) : isspace c = true -> (c == NUL) = false.
Proof. intros H. apply Ascii.eqb_neq. intros ->. discriminate H. Qed.

Lemma space_not_digit (c : ascii) : isspace c = true -> isdigit c = false.
Proof.
  intros H. destruct (isdigit c) eqn:Hd; [ | reflexivity].
  apply digit_not_space in Hd. congruence.
Qed.

Lemma scan_spaces (ws rest : list ascii) (st : parser) :
  forallb isspace ws = true -> scan (ws ++ rest) st = scan rest st.
Proof.
  induction ws as [ | c ws IH]; cbn [app forallb]; [reflexivity | ].
  intros [Hc Hws]%andb_prop. cbn [scan].
  now rewrite (space_not_nul c Hc), Hc, IH.
Qed.

Lemma bind_ok {A : Type} (r : result A) : bind r (fun a => Ok a) = r.
Proof. now destruct r. Qed.

Lemma scan_nil (st : parser) : scan [] st = Ok st.
Proof. reflexivity. Qed.

(** X3.  White space is skipped: at the start of the input, before any
    character that is not a digit, and at the end of the input (where
    [fgets] leaves the newline), it does not change what
    [infix_to_postfix] returns. *)
Theorem white_space_is_skipped (pre ws rest : list ascii) :
  forallb isspace ws = true ->
  ~ In NUL pre ->
  match rest with c :: _ => isdigit c = false | [] => True end ->
  infix_to_postfix (pre ++ ws ++ rest) = infix_to_postfix (pre ++ rest)
  /\ infix_to_postfix (ws ++ pre) = infix_to_postfix pre.
Proof.
  intros Hws Hnul Hrest. unfold infix_to_postfix. split.
  - f_equal.
    assert (Hr : scan (pre ++ rest) parser_init
                 = bind (scan pre parser_init) (scan rest)).
    { destruct rest as [ | c rest].
      - rewrite app_nil_r. symmetry. apply bind_ok.
      - now apply scan_app. }
    rewrite Hr. destruct ws as [ | sp ws]; [exact Hr | ].
    cbn [forallb] in Hws. apply andb_prop in Hws. destruct Hws as [Hsp Hws].
    cbn [app]. rewrite scan_app by (assumption || now apply space_not_digit).
    assert (Hall : forallb isspace (sp :: ws) = true)
      by (cbn [forallb]; now rewrite Hsp, Hws).
    destruct (scan pre parser_init) as [st | | ]; cbn [bind]; try reflexivity.
    apply (scan_spaces (sp :: ws) rest st Hall).
  - now rewrite scan_spaces.
Qed.

Lemma white_space_is_skipped_witness :
  infix_to_postfix (cstr "1" ++ cstr "  " ++ cstr "+2")
  = infix_to_postfix (cstr "1" ++ cstr "+2")
  /\ infix_to_postfix (cstr "  " ++ cstr "1") = infix_to_postfix (cstr "1").
Proof.
  exact (white_space_is_skipped (cstr "1") (cstr "  ") (cstr "+2")
           eq_refl ltac:(vm_compute; intuition discriminate) eq_refl).
Defined.

(** X4.  An empty or blank expression is refused: on white space alone
    [infix_to_postfix] fails with "Expression ends unexpectedly". *)
Theorem blank_expression_refused (ws : list ascii) :
  forallb isspace ws = true ->
  infix_to_postfix ws = Err ExpressionEndsUnexpectedly.
Proof.
  intros Hws. unfold infix_to_postfix.
  rewrite <- (app_nil_r ws), scan_spaces by assumption. reflexivity.
Qed.

Lemma blank_expression_refused_witness :
  infix_to_postfix [] = Err ExpressionEndsUnexpectedly
  /\ infix_to_postfix (cstr "   ") = Err ExpressionEndsUnexpectedly.
Proof.
  split.
  - exact (blank_expression_refused [] eq_refl).
  - exact (blank_expression_refused (cstr "   ") eq_refl).
Defined.

(** ** Numerals *)

Lemma read_number_digits (ds rest : list ascii) :
  forallb isdigit ds = true ->
  match rest with c :: _ => isdigit c = false | [] => True end ->
  forall buf,
    Z.of_nat (length buf) + Z.of_nat (length ds) < MAX_TOKEN_LEN ->
    read_number (ds ++ rest) buf = Ok (buf ++ ds, rest).
Proof.
  intros Hds Hrest. unfold read_number.
  induction ds as [ | d ds IH]; intros buf Hlen; cbn [app].
  - rewrite app_nil_r. destruct rest as [ | c rest]; cbn [read_digits];
      [reflexivity | now rewrite Hrest].
  - cbn [forallb] in Hds. apply andb_prop in Hds. destruct Hds as [Hd Hds].
    cbn [read_digits length] in *. rewrite Hd.
    destruct (Z.geb_spec (Z.of_nat (length buf) + 1) MAX_TOKEN_LEN); [lia | ].
    rewrite IH; [now rewrite <- app_assoc | assumption | ].
    rewrite length_app. cbn [length]. lia.
Qed.

Lemma read_number_long (ds rest : list ascii) :
  forallb isdigit ds = true ->
  forall buf,
    Z.of_nat (length buf) < MAX_TOKEN_LEN ->
    MAX_TOKEN_LEN <= Z.of_nat (length buf) + Z.of_nat (length ds) ->
    read_number (ds ++ rest) buf = Err NumberTokenTooLong.
Proof.
  intros Hds. unfold read_number.
  induction ds as [ | d ds IH]; intros buf Hbuf Hlen; cbn [length] in Hlen;
    [lia | ].
  cbn [forallb] in Hds. apply andb_prop in Hds. destruct Hds as [Hd Hds].
  cbn [app read_digits]. rewrite Hd.
  destruct (Z.geb_spec (Z.of_nat (length buf) + 1) MAX_TOKEN_LEN) as [ | Hlt];
    [reflexivity | ].
  apply IH; [assumption | | ]; rewrite length_app; cbn [length]; lia.
Qed.

Lemma scan_digit (c : ascii) (rest : list ascii) (st : parser) :
  isdigit c = true ->
  scan (c :: rest) st =
  bind (read_number rest [c])
       (fun p => bind (on_number (fst p) st) (scan (snd p))).
Proof.
  intros Hc. cbn [scan].
  rewrite (digit_not_nul c Hc), (digit_not_space c Hc), Hc.
  apply read_digits_bind.
Qed.

(** A numeral is read whole and stored as one token. *)
Lemma scan_numeral (ds rest : list ascii) (st : parser) :
  numeral ds ->
  match rest with c :: _ => isdigit c = false | [] => True end ->
  count (postfix st) < MAX_TOKENS ->
  scan (ds ++ rest) st
  = scan rest (mkParser (ops st) (postfix st ++ [ds]) false).
Proof.
  intros (Hne & Hds & Hlen) Hrest Hroom.
  destruct ds as [ | c ds]; [contradiction | ].
  cbn [forallb] in Hds. apply andb_prop in Hds. destruct Hds as [Hc Hds].
  cbn [app]. rewrite scan_digit by assumption.
  rewrite read_number_digits; try assumption.
  - cbn [bind fst snd app]. unfold on_number.
    rewrite tokens_add_ok by assumption. reflexivity.
  - cbn [length] in *. lia.
Qed.

(** X5.  A numeral may have up to [MAX_TOKEN_LEN - 1] digits: such a run
    of digits becomes one token, with all its digits, and the operand flag
    is cleared; a run of [MAX_TOKEN_LEN] digits or more fails with "Number
    token too long", whatever the parser state. *)
Theorem numeral_length_limit (ds rest : list ascii) (st : parser) :
  ds <> [] -> forallb isdigit ds = true ->
  match rest with c :: _ => isdigit c = false | [] => True end ->
  (Z.of_nat (length ds) < MAX_TOKEN_LEN ->
   count (postfix st) < MAX_TOKENS ->
   scan (ds ++ rest) st
   = scan rest (mkParser (ops st) (postfix st ++ [ds]) false))
  /\ (MAX_TOKEN_LEN <= Z.of_nat (length ds) ->
      scan (ds ++ rest) st = Err NumberTokenTooLong).
Proof.
  intros Hne Hds Hrest. split.
  - intros Hlen Hroom. now apply scan_numeral.
  - intros Hlen. destruct ds as [ | c ds]; [contradiction | ].
    cbn [forallb] in Hds. apply andb_prop in Hds. destruct Hds as [Hc Hds].
    cbn [app]. rewrite scan_digit by assumption.
    rewrite read_number_long; try assumption; try reflexivity.
    cbn [length] in *. lia.
Qed.

Lemma numeral_length_limit_witness :
  infix_to_postfix (repeat "9"%char 63) = Ok [repeat "9"%char 63]
  /\ infix_to_postfix (repeat "9"%char 64) = Err NumberTokenTooLong.
Proof.
  split.
  - unfold infix_to_postfix.
    rewrite <- (app_nil_r (repeat "9"%char 63)).
    rewrite (proj1 (numeral_length_limit (repeat "9"%char 63) [] parser_init
                      ltac:(discriminate) ltac:(vm_compute; reflexivity) I));
      solve [reflexivity | vm_compute; reflexivity].
  - unfold infix_to_postfix.
    rewrite <- (app_nil_r (repeat "9"%char 64)).
    rewrite (proj2 (numeral_length_limit (repeat "9"%char 64) [] parser_init
                      ltac:(discriminate) ltac:(vm_compute; reflexivity) I));
      solve [reflexivity | vm_compute; discriminate].
Defined.

(** ** Parentheses *)

Lemma operator_not_open (c : ascii) : is_operator c = true -> (c == "(") = false.
Proof.
  intros H. apply operator_cases in H.
  destruct H as [-> | [-> | [-> | [-> | [-> | [-> | ->]]]]]]; reflexivity.
Qed.

Lemma operator_not_close (c : ascii) : is_operator c = true -> (c == ")") = false.
Proof.
  intros H. apply operator_cases in H.
  destruct H as [-> | [-> | [-> | [-> | [-> | [-> | ->]]]]]]; reflexivity.
Qed.

Lemma open_parens_app (s1 s2 : CharStack) :
  open_parens (s1 ++ s2) = open_parens s1 + open_parens s2.
Proof.
  induction s1 as [ | c s1 IH]; cbn [app open_parens]; [reflexivity | ].
  rewrite IH. lia.
Qed.

Lemma open_parens_nonneg (s : CharStack) : 0 <= open_parens s.
Proof.
  induction s as [ | c s IH]; cbn [open_parens]; [lia | ].
  destruct (c == "("); lia.
Qed.

Lemma open_parens_none (s : CharStack) :
  ~ In "("%char s -> open_parens s = 0.
Proof.
  induction s as [ | c s IH]; cbn [open_parens]; [reflexivity | ].
  intros Hno. rewrite IH by (intros Hin; apply Hno; now right).
  destruct (Ascii.eqb_spec c "(") as [-> | ]; [ | reflexivity].
  exfalso. apply Hno. now left.
Qed.

Lemma popped_no_open (op : ascii) (popped : list ascii) :
  Forall (fun x => pops x op = true) popped -> ~ In "("%char popped.
Proof.
  rewrite Forall_forall. intros H Hin. apply H in Hin.
  apply pops_operator in Hin. discriminate Hin.
Qed.

Lemma balanced_digits (ds rest : list ascii) (n : Z) :
  forallb isdigit ds = true -> balanced n (ds ++ rest) = balanced n rest.
Proof.
  induction ds as [ | d ds IH]; cbn [app forallb]; [reflexivity | ].
  intros [Hd Hds]%andb_prop. cbn [balanced].
  rewrite (digit_not_nul d Hd).
  assert (Ho : (d == "(") = false)
    by (apply Ascii.eqb_neq; intros ->; discriminate Hd).
  assert (Hc : (d == ")") = false)
    by (apply Ascii.eqb_neq; intros ->; discriminate Hd).
  now rewrite Ho, Hc, IH.
Qed.

Lemma transition_balanced (expr : list ascii) (c : ascii) (st : parser)
    (rest : list ascii) (st' : parser) (rest' : list ascii) :
  c <> NUL ->
  balanced (open_parens (ops st)) (c :: rest) = balanced 0 expr ->
  transition c st rest st' rest' ->
  balanced (open_parens (ops st')) rest' = balanced 0 expr.
Proof.
  intros Hc HP T. apply Ascii.eqb_neq in Hc.
  rewrite <- HP. cbn [balanced]. rewrite Hc. clear HP.
  destruct T as [rest Hsp | ds rest' Hsp Hdg Hds Hnext Hlen Hcnt
                | rest Hsp Hdg Ho | rest popped s' Hsp Hdg Hcl Hs Hno
                | rest op popped s' Hsp Hdg Hno Hnc Hop Hcls Hs Hall Hnext];
    cbn [ops].
  - assert (Ho : (c == "(") = false)
      by (apply Ascii.eqb_neq; intros ->; discriminate Hsp).
    assert (Hcl : (c == ")") = false)
      by (apply Ascii.eqb_neq; intros ->; discriminate Hsp).
    now rewrite Ho, Hcl.
  - assert (Ho : (c == "(") = false)
      by (apply Ascii.eqb_neq; intros ->; discriminate Hdg).
    assert (Hcl : (c == ")") = false)
      by (apply Ascii.eqb_neq; intros ->; discriminate Hdg).
    now rewrite Ho, Hcl, balanced_digits.
  - subst c. cbn [Ascii.eqb Bool.eqb open_parens]. f_equal. lia.
  - subst c. cbn [Ascii.eqb Bool.eqb].
    rewrite Hs, open_parens_app, (open_parens_none popped Hno).
    cbn [open_parens Ascii.eqb Bool.eqb].
    pose proof (open_parens_nonneg s') as Hnn.
    destruct (Z.ltb_spec 0 (0 + (1 + open_parens s'))); [ | lia].
    cbn [andb]. f_equal. lia.
  - rewrite (operator_not_open c Hop), (operator_not_close c Hop).
    rewrite Hs, open_parens_app,
      (open_parens_none popped (popped_no_open op popped Hall)).
    cbn [open_parens].
    now rewrite (operator_not_open op (classify_operator c op _ Hop Hcls)).
Qed.

(** X6.  Parentheses are checked in full: an input that
    [infix_to_postfix] accepts closes no parenthesis that is not open and
    leaves none open. *)
Theorem accepted_input_is_balanced (expr : list ascii) (toks : TokenList) :
  infix_to_postfix expr = Ok toks -> balanced 0 expr = true.
Proof.
  unfold infix_to_postfix. intros H.
  destruct (scan expr parser_init) as [st | | ] eqn:Hscan; try discriminate.
  cbn [bind] in H.
  destruct (scan_invariant
              (fun l st0 => balanced (open_parens (ops st0)) l
                            = balanced 0 expr))
    with (l := expr) (st := parser_init) (st' := st)
    as (l & HP & Hend); [ | reflexivity | assumption | ].
  { intros c st0 rest st1 rest1 Hc HP T.
    now apply (transition_balanced expr c st0 rest st1 rest1). }
  unfold finish in H.
  destruct (drain (ops st) (postfix st)) as [out | | ] eqn:Hd; try discriminate.
  apply drain_ok in Hd. destruct Hd as (Hno & _ & _).
  rewrite (open_parens_none _ Hno) in HP. rewrite <- HP.
  destruct l as [ | c l]; [reflexivity | ]. subst c. reflexivity.
Qed.

Lemma accepted_input_is_balanced_witness :
  balanced 0 (cstr "2*-5 + (7 - -(3))") = true.
Proof.
  exact (accepted_input_is_balanced (cstr "2*-5 + (7 - -(3))")
           (map cstr ["2"; "5"; "u"; "*"; "7"; "3"; "u"; "-"; "+"]%string)
           ltac:(vm_compute; reflexivity)).
Defined.

(** ** The operands of the postfix sequence *)

Lemma digit_runs_flush (cur rest : list ascii) :
  cur <> [] ->
  match rest with c :: _ => isdigit c = false | [] => True end ->
  digit_runs cur rest = [cur] ++ digit_runs [] rest.
Proof.
  intros Hne Hrest. destruct cur as [ | x cur]; [contradiction | ].
  destruct rest as [ | c rest]; [reflexivity | ].
  cbn [digit_runs]. rewrite Hrest.
  destruct (c == NUL); reflexivity.
Qed.

Lemma digit_runs_digits (ds rest : list ascii) :
  forallb isdigit ds = true ->
  forall cur, digit_runs cur (ds ++ rest) = digit_runs (cur ++ ds) rest.
Proof.
  induction ds as [ | d ds IH]; cbn [app forallb]; intros Hds cur.
  - now rewrite app_nil_r.
  - apply andb_prop in Hds. destruct Hds as [Hd Hds].
    cbn [digit_runs]. rewrite (digit_not_nul d Hd), Hd, IH by assumption.
    now rewrite <- app_assoc.
Qed.

Lemma digit_runs_skip (c : ascii) (rest : list ascii) :
  isdigit c = false -> digit_runs [] (c :: rest) = digit_runs [] rest
  \/ (c == NUL) = true.
Proof.
  intros Hd. cbn [digit_runs]. rewrite Hd.
  destruct (c == NUL); [now right | now left].
Qed.

Lemma operands_app (a b : TokenList) :
  operands (a ++ b) = operands a ++ operands b.
Proof. apply filter_app. Qed.

Lemma operands_emit (popped : list ascii) :
  Forall (fun c => is_operator c = true) popped ->
  operands (map op_token popped) = [].
Proof.
  induction popped as [ | c popped IH]; intros H; [reflexivity | ].
  inversion H as [ | ? ? Hc Hrest]; subst.
  unfold operands in *. cbn [map filter op_token is_operator_token].
  rewrite Hc. cbn [negb]. now apply IH.
Qed.

Lemma transition_operands (expr : list ascii) (c : ascii) (st : parser)
    (rest : list ascii) (st' : parser) (rest' : list ascii) :
  c <> NUL ->
  wf_parser st ->
  operands (postfix st) ++ digit_runs [] (c :: rest) = digit_runs [] expr ->
  transition c st rest st' rest' ->
  operands (postfix st') ++ digit_runs [] rest' = digit_runs [] expr.
Proof.
  intros Hc [Hops _] HP T. apply Ascii.eqb_neq in Hc.
  rewrite <- HP. clear HP.
  destruct T as [rest Hsp | ds rest' Hsp Hdg Hds Hnext Hlen Hcnt
                | rest Hsp Hdg Ho | rest popped s' Hsp Hdg Hcl Hs Hno
                | rest op popped s' Hsp Hdg Hno Hnc Hop Hcls Hs Hall Hnext];
    cbn [postfix].
  - destruct (digit_runs_skip c rest (space_not_digit c Hsp)) as [-> | E];
      [reflexivity | congruence].
  - rewrite operands_app. unfold operands at 2.
    cbn [filter]. rewrite (numeral_token c ds Hdg). cbn [negb].
    rewrite <- app_assoc. f_equal.
    cbn [digit_runs]. rewrite Hc, Hdg.
    rewrite digit_runs_digits by assumption. cbn [app]. symmetry.
    apply digit_runs_flush; [discriminate | assumption].
  - destruct (digit_runs_skip c rest Hdg) as [-> | E];
      [reflexivity | congruence].
  - destruct (digit_runs_skip c rest Hdg) as [-> | E]; [ | congruence].
    rewrite operands_app, operands_emit, app_nil_r; [reflexivity | ].
    rewrite Hs in Hops. apply Forall_app in Hops. destruct Hops as [Hp _].
    now apply wf_popped.
  - destruct (digit_runs_skip c rest Hdg) as [-> | E]; [ | congruence].
    rewrite operands_app, operands_emit, app_nil_r; [reflexivity | ].
    now apply (popped_operators op).
Qed.

(** X7.  The parser moves operators only: the numerals of the postfix
    sequence are the runs of digits of the input, whole and in the order
    of the input. *)
Theorem operands_keep_their_order (expr : list ascii) (toks : TokenList) :
  infix_to_postfix expr = Ok toks -> operands toks = digit_runs [] expr.
Proof.
  unfold infix_to_postfix. intros H.
  destruct (scan expr parser_init) as [st | | ] eqn:Hscan; try discriminate.
  cbn [bind] in H.
  destruct (scan_invariant
              (fun l st0 =>
                 wf_parser st0
                 /\ operands (postfix st0) ++ digit_runs [] l
                    = digit_runs [] expr))
    with (l := expr) (st := parser_init) (st' := st)
    as (l & [[Hops _] HP] & Hend); [ | | assumption | ].
  { intros c st0 rest st1 rest1 Hc [Hwf HP] T. split.
    - eapply transition_wf; eassumption.
    - now apply (transition_operands expr c st0 rest st1 rest1). }
  { split; [split; constructor | reflexivity]. }
  unfold finish in H.
  destruct (drain (ops st) (postfix st)) as [out | | ] eqn:Hd; try discriminate.
  cbn [bind] in H. destruct (expect_operand st); [discriminate | ].
  inversion H; subst out. apply drain_ok in Hd. destruct Hd as (Hno & _ & ->).
  rewrite operands_app, operands_emit, app_nil_r by now apply wf_popped.
  rewrite <- HP.
  destruct l as [ | c l]; [now rewrite app_nil_r | ].
  subst c. cbn. now rewrite app_nil_r.
Qed.

Lemma operands_keep_their_order_witness :
  operands (map cstr ["2"; "5"; "u"; "*"; "7"; "3"; "u"; "-"; "+"]%string)
  = map cstr ["2"; "5"; "7"; "3"]%string.
Proof.
  exact (operands_keep_their_order (cstr "2*-5 + (7 - -(3))")
           (map cstr ["2"; "5"; "u"; "*"; "7"; "3"; "u"; "-"; "+"]%string)
           ltac:(vm_compute; reflexivity)).
Defined.

(** ** The two popping loops as a whole *)

(** X8.  The pop-before-push loop pops exactly the longest run of stack
    entries that outrank the incoming operator, emits them in stack order
    and leaves the rest of the stack untouched, provided the token list
    has room for them. *)
Theorem pop_loop_longest_run (op : ascii) (popped s' : CharStack)
    (out : TokenList) :
  Forall (fun x => outranks x op) popped ->
  match s' with x :: _ => ~ outranks x op | [] => True end ->
  count out + Z.of_nat (length popped) <= MAX_TOKENS ->
  pop_higher op (popped ++ s') out = Ok (s', out ++ map op_token popped).
Proof.
  revert out. induction popped as [ | x popped IH]; intros out Hall Hnext Hroom.
  - cbn [app map]. rewrite app_nil_r.
    destruct s' as [ | y s']; cbn [pop_higher]; [reflexivity | ].
    destruct (pops y op) eqn:Hp; [ | reflexivity].
    exfalso. apply Hnext. now apply pops_outranks.
  - inversion Hall as [ | ? ? Hx Hrest]; subst.
    apply pops_outranks in Hx. cbn [length] in Hroom.
    cbn [app pop_higher]. rewrite Hx, tokens_add_op by lia.
    cbn [or_fail bind]. rewrite IH; [ | assumption | assumption | ].
    + now rewrite emit_cons.
    + rewrite count_snoc. lia.
Qed.

Lemma pop_loop_longest_run_witness :
  pop_higher "+" (cstr "^*+(") [cstr "2"]
  = Ok (cstr "(", map cstr ["2"; "^"; "*"; "+"]%string).
Proof.
  refine (pop_loop_longest_run "+" (cstr "^*+") (cstr "(") [cstr "2"] _ _ _).
  - repeat (apply Forall_cons;
            [split; [reflexivity | vm_compute; intuition discriminate] | ]).
    apply Forall_nil.
  - intros [H _]. discriminate H.
  - vm_compute. discriminate.
Defined.

(** X9.  A [')'] pops and emits the stack entries above the nearest ['(']
    in stack order, drops that ['('] and leaves everything below it
    untouched, provided the token list has room. *)
Theorem close_paren_nearest_open (popped s' : CharStack) (out : TokenList) :
  ~ In "("%char popped ->
  count out + Z.of_nat (length popped) <= MAX_TOKENS ->
  close_paren (popped ++ "("%char :: s') out
  = Ok (s', out ++ map op_token popped).
Proof.
  revert out. induction popped as [ | x popped IH]; intros out Hno Hroom.
  - cbn. now rewrite app_nil_r.
  - cbn [length] in Hroom. cbn [app close_paren].
    destruct (Ascii.eqb_spec x "(") as [-> | Hne];
      [exfalso; apply Hno; now left | ].
    rewrite tokens_add_op by lia. cbn [or_fail bind].
    rewrite IH.
    + now rewrite emit_cons.
    + intros Hin. apply Hno. now right.
    + rewrite count_snoc. lia.
Qed.

Lemma close_paren_nearest_open_witness :
  close_paren (cstr "*+(-(") [cstr "2"; cstr "3"; cstr "4"]
  = Ok (cstr "-(", map cstr ["2"; "3"; "4"; "*"; "+"]%string).
Proof.
  exact (close_paren_nearest_open (cstr "*+") (cstr "-(")
           [cstr "2"; cstr "3"; cstr "4"]
           ltac:(vm_compute; intuition discriminate)
           ltac:(vm_compute; discriminate)).
Defined.

(** ** Fully parenthesised expressions *)

Lemma infix_op_cases (c : ascii) :
  infix_op c = true ->
  c = "+"%char \/ c = "*"%char \/ c = "/"%char \/ c = "%"%char
  \/ c = "^"%char \/ c = "-"%char.
Proof.
  unfold infix_op, binary_char. intros H.
  repeat (apply orb_prop in H; destruct H as [H | H]);
    apply Ascii.eqb_eq in H; auto 8.
Qed.

Lemma infix_op_not_digit (c : ascii) : infix_op c = true -> isdigit c = false.
Proof.
  intros H. apply infix_op_cases in H.
  destruct H as [-> | [-> | [-> | [-> | [-> | ->]]]]]; reflexivity.
Qed.

Lemma infix_op_not_unary (c : ascii) : infix_op c = true -> (c == "u") = false.
Proof.
  intros H. apply infix_op_cases in H.
  destruct H as [-> | [-> | [-> | [-> | [-> | ->]]]]]; reflexivity.
Qed.

Lemma scan_operator (c : ascii) (rest : list ascii) (st : parser) :
  infix_op c = true ->
  scan (c :: rest) st = bind (on_operator c st) (scan rest).
Proof.
  intros H. apply infix_op_cases in H.
  destruct H as [-> | [-> | [-> | [-> | [-> | ->]]]]]; reflexivity.
Qed.

(** A binary operator read after a complete operand: pop, push, and an
    operand is due. *)
Lemma on_operator_binary (c : ascii) (st : parser) :
  infix_op c = true -> expect_operand st = false ->
  on_operator c st =
  bind (pop_higher c (ops st) (postfix st))
       (fun p => bind (or_fail (cs_push (fst p) c) OperatorStackOverflow)
                      (fun s => Ok (mkParser s (snd p) true))).
Proof.
  intros Hc He. unfold on_operator, classify. rewrite He.
  rewrite andb_false_r. cbn [andb bind].
  rewrite (infix_op_not_unary c Hc). cbn [negb].
  destruct (pop_higher c (ops st) (postfix st)) as [[s out] | | ]; reflexivity.
Qed.

Lemma pop_higher_unary (s : CharStack) (out : TokenList) :
  pop_higher "u" s out = Ok (s, out).
Proof. destruct s as [ | top s]; cbn [pop_higher]; [ | rewrite pops_unary]; reflexivity. Qed.

Lemma pop_higher_open (op : ascii) (s : CharStack) (out : TokenList) :
  pop_higher op ("("%char :: s) out = Ok ("("%char :: s, out).
Proof. reflexivity. Qed.

Lemma count_app_tokens (a b : TokenList) : count (a ++ b) = count a + count b.
Proof. unfold count. rewrite length_app. lia. Qed.

Lemma postorder_count (e : expr) :
  well_formed e ->
  1 <= count (postorder e) <= Z.of_nat (length (render e)).
Proof.
  unfold count. induction e as [ds | e IH | op l IHl r IHr];
    cbn [well_formed postorder render length].
  - intros (Hne & _). destruct ds; [contradiction | cbn [length]; lia].
  - intros Hwf. specialize (IH Hwf).
    rewrite !length_app. cbn [length]. lia.
  - intros (_ & Hl & Hr). specialize (IHl Hl). specialize (IHr Hr).
    rewrite !length_app. cbn [length]. rewrite !length_app. cbn [length]. lia.
Qed.

Lemma scan_render (e : expr) :
  well_formed e ->
  forall rest st,
    match rest with c :: _ => isdigit c = false | [] => True end ->
    size st + Z.of_nat (length (render e)) < MAX_EXPR ->
    scan (render e ++ rest) st
    = scan rest (mkParser (ops st) (postfix st ++ postorder e) false).
Proof.
  induction e as [ds | e IH | op l IHl r IHr];
    cbn [well_formed render postorder]; intros Hwf rest st Hrest Hroom;
    assert (Hnn : 0 <= count (postfix st)) by (unfold count; lia).
  - apply scan_numeral; try assumption.
    unfold size, count, MAX_EXPR, MAX_TOKENS in *. lia.
  - pose proof (postorder_count e Hwf) as Hcnt.
    unfold size, MAX_EXPR in *. cbn [length] in Hroom.
    rewrite length_app in Hroom. cbn [length] in Hroom.
    cbn [app]. rewrite <- app_assoc. cbn [app].
    change (scan ("("%char :: "-"%char :: render e ++ ")"%char :: rest) st)
      with (bind (on_open st)
              (scan ("-"%char :: render e ++ ")"%char :: rest))).
    unfold on_open. rewrite cs_push_ok by (unfold MAX_TOKENS; lia).
    cbn [or_fail bind].
    rewrite scan_operator by reflexivity.
    unfold on_operator. cbn [expect_operand classify Ascii.eqb Bool.eqb andb bind].
    rewrite pop_higher_unary. cbn [bind ops postfix].
    rewrite cs_push_ok by (cbn [length]; unfold MAX_TOKENS; lia).
    cbn [or_fail bind negb Ascii.eqb Bool.eqb].
    rewrite IH; [ | assumption | reflexivity | ].
    + cbn [ops postfix].
      change (scan (")"%char :: rest) ?s)
        with (bind (on_close s) (scan rest)).
      unfold on_close. cbn [ops postfix close_paren Ascii.eqb Bool.eqb].
      rewrite tokens_add_op
        by (rewrite count_app_tokens; unfold MAX_TOKENS; lia).
      cbn [or_fail bind]. now rewrite <- app_assoc.
    + cbn [ops postfix length]. lia.
  - destruct Hwf as (Hop & Hl & Hr).
    pose proof (postorder_count l Hl) as Hcl.
    pose proof (postorder_count r Hr) as Hcr.
    unfold size, MAX_EXPR in *. cbn [length] in Hroom.
    rewrite !length_app in Hroom. cbn [length] in Hroom.
    rewrite length_app in Hroom. cbn [length] in Hroom.
    cbn [app]. rewrite <- app_assoc. cbn [app]. rewrite <- app_assoc.
    cbn [app].
    change (scan ("("%char :: render l ++ op :: render r ++ ")"%char :: rest) st)
      with (bind (on_open st)
              (scan (render l ++ op :: render r ++ ")"%char :: rest))).
    unfold on_open. rewrite cs_push_ok by (unfold MAX_TOKENS; lia).
    cbn [or_fail bind].
    rewrite IHl; [ | assumption | now apply infix_op_not_digit | ].
    2:{ cbn [ops postfix length]. lia. }
    cbn [ops postfix].
    rewrite scan_operator by assumption.
    rewrite on_operator_binary by (assumption || reflexivity).
    cbn [ops postfix]. rewrite pop_higher_open. cbn [bind fst snd].
    rewrite cs_push_ok by (cbn [length]; unfold MAX_TOKENS; lia).
    cbn [or_fail bind].
    rewrite IHr; [ | assumption | reflexivity | ].
    2:{ cbn [ops postfix length]. rewrite count_app_tokens. lia. }
    cbn [ops postfix].
    change (scan (")"%char :: rest) ?s)
      with (bind (on_close s) (scan rest)).
    unfold on_close. cbn [ops postfix close_paren].
    rewrite (operator_not_open op)
      by (apply infix_op_cases in Hop;
          destruct Hop as [-> | [-> | [-> | [-> | [-> | ->]]]]]; reflexivity).
    rewrite tokens_add_op
      by (rewrite !count_app_tokens; unfold MAX_TOKENS; lia).
    cbn [or_fail bind Ascii.eqb Bool.eqb]. now rewrite <- !app_assoc.
Qed.


(** X10.  A fully parenthesised expression that fits a line is parsed
    into the postfix order of its tree: the operands of every operator
    first, left before right, then the operator, unary minus as the tag
    [u]. *)
Theorem parenthesised_expression_parses (e : expr) :
  well_formed e ->
  Z.of_nat (length (render e)) < MAX_EXPR ->
  infix_to_postfix (render e) = Ok (postorder e).
Proof.
  intros Hwf Hlen. unfold infix_to_postfix.
  rewrite <- (app_nil_r (render e)).
  rewrite scan_render; [reflexivity | assumption | exact I | ].
  rewrite size_init. lia.
Qed.

Lemma parenthesised_expression_parses_witness :
  infix_to_postfix (cstr "((-12)*(3+4))")
  = Ok (map cstr ["12"; "u"; "3"; "4"; "+"; "*"]%string).
Proof.
  exact (parenthesised_expression_parses
           (Bin "*" (Neg (Num (cstr "12")))
                    (Bin "+" (Num (cstr "3")) (Num (cstr "4"))))
           ltac:(vm_compute; intuition discriminate)
           ltac:(vm_compute; reflexivity)).
Defined.


(** ** Precedence and associativity between two operators *)

Lemma scan_numeral_last (ds : token) (st : parser) :
  numeral ds -> count (postfix st) < MAX_TOKENS ->
  scan ds st = Ok (mkParser (ops st) (postfix st ++ [ds]) false).
Proof.
  intros Hn Hroom. rewrite <- (app_nil_r ds) at 1.
  now rewrite scan_numeral.
Qed.

(** X11.  In [n1 o1 n2 o2 n3], with any three numerals and any two binary
    operators, the first operator is applied first exactly when it
    outranks the second (higher precedence, or equal precedence and the
    second left-associative); otherwise the second operator is applied
    first, to [n2] and [n3]. *)
Theorem two_operators (n1 n2 n3 : token) (o1 o2 : ascii) :
  numeral n1 -> numeral n2 -> numeral n3 ->
  infix_op o1 = true -> infix_op o2 = true ->
  infix_to_postfix (n1 ++ o1 :: n2 ++ o2 :: n3)
  = Ok (if pops o1 o2
        then [n1; n2; op_token o1; n3; op_token o2]
        else [n1; n2; n3; op_token o2; op_token o1])
  /\ (pops o1 o2 = true <-> outranks o1 o2).
Proof.
  intros H1 H2 H3 Ho1 Ho2. split; [ | apply pops_outranks].
  unfold infix_to_postfix.
  rewrite scan_numeral;
    [ | assumption | now apply infix_op_not_digit | reflexivity].
  cbn [parser_init ops postfix app].
  rewrite scan_operator, on_operator_binary by (assumption || reflexivity).
  cbn [ops postfix pop_higher bind fst snd cs_push or_fail].
  change (cs_push [] o1) with (Some [o1]). cbn [or_fail bind].
  rewrite scan_numeral;
    [ | assumption | now apply infix_op_not_digit | reflexivity].
  cbn [ops postfix app].
  rewrite scan_operator, on_operator_binary by (assumption || reflexivity).
  cbn [ops postfix pop_higher].
  assert (Hisop : forall o, infix_op o = true ->
                            (o == "(") = false /\ (o == ")") = false).
  { intros o Ho. apply infix_op_cases in Ho.
    destruct Ho as [-> | [-> | [-> | [-> | [-> | ->]]]]]; split; reflexivity. }
  destruct (Hisop o1 Ho1) as [Ho1a Ho1b].
  destruct (Hisop o2 Ho2) as [Ho2a Ho2b].
  destruct (pops o1 o2).
  - rewrite tokens_add_op by reflexivity. cbn [or_fail bind fst snd app].
    change (cs_push [] o2) with (Some [o2]). cbn [or_fail bind].
    rewrite scan_numeral_last; [ | assumption | reflexivity].
    cbn [bind ops postfix app]. unfold finish.
    cbn [ops postfix expect_operand drain].
    rewrite Ho2a, Ho2b. cbn [orb].
    rewrite tokens_add_op by reflexivity. reflexivity.
  - cbn [bind fst snd].
    change (cs_push [o1] o2) with (Some [o2; o1]). cbn [or_fail bind].
    rewrite scan_numeral_last; [ | assumption | reflexivity].
    cbn [bind ops postfix app]. unfold finish.
    cbn [ops postfix expect_operand drain].
    rewrite Ho2a, Ho2b, Ho1a, Ho1b. cbn [orb].
    rewrite tokens_add_op by reflexivity. cbn [or_fail bind app].
    rewrite tokens_add_op by reflexivity. reflexivity.
Qed.

Lemma two_operators_witness :
  infix_to_postfix (cstr "8" ++ "-"%char :: cstr "3" ++ "-"%char :: cstr "2")
  = Ok (map cstr ["8"; "3"; "-"; "2"; "-"]%string)
  /\ infix_to_postfix (cstr "8" ++ "-"%char :: cstr "3" ++ "*"%char :: cstr "2")
     = Ok (map cstr ["8"; "3"; "2"; "*"; "-"]%string).
Proof.
  split.
  - exact (proj1 (two_operators (cstr "8") (cstr "3") (cstr "2") "-" "-"
             ltac:(vm_compute; intuition discriminate)
             ltac:(vm_compute; intuition discriminate)
             ltac:(vm_compute; intuition discriminate) eq_refl eq_refl)).
  - exact (proj1 (two_operators (cstr "8") (cstr "3") (cstr "2") "-" "*"
             ltac:(vm_compute; intuition discriminate)
             ltac:(vm_compute; intuition discriminate)
             ltac:(vm_compute; intuition discriminate) eq_refl eq_refl)).
Defined.


(** ** Chains of one operator *)

Lemma chain_head (o : ascii) (ns : list token) :
  infix_op o = true ->
  match flat_map (fun n => o :: n) ns with
  | c :: _ => isdigit c = false
  | [] => True
  end.
Proof.
  intros Ho. destruct ns as [ | n ns]; [exact I | ].
  cbn [flat_map app]. now apply infix_op_not_digit.
Qed.

Lemma scan_left_chain (o : ascii) (ns : list token) :
  infix_op o = true -> pops o o = true -> Forall numeral ns ->
  forall out,
    count out + 2 * Z.of_nat (length ns) < MAX_TOKENS ->
    scan (flat_map (fun n => o :: n) ns) (mkParser [o] out false)
    = Ok (mkParser [o]
            (out ++ flat_map (fun n => [op_token o; n]) ns) false).
Proof.
  intros Ho Hp Hns. induction Hns as [ | n ns Hn Hns IH]; intros out Hroom.
  - cbn [flat_map]. now rewrite app_nil_r.
  - cbn [length] in Hroom. cbn [flat_map app].
    assert (Hnn : 0 <= count out) by (unfold count; lia).
    rewrite scan_operator, on_operator_binary by (assumption || reflexivity).
    cbn [ops postfix pop_higher]. rewrite Hp.
    rewrite tokens_add_op by lia. cbn [or_fail bind fst snd].
    change (cs_push [] o) with (Some [o]). cbn [or_fail bind].
    rewrite scan_numeral; [ | assumption | now apply chain_head | ].
    2:{ cbn [postfix]. rewrite count_snoc. lia. }
    cbn [ops postfix]. rewrite IH.
    + now rewrite <- !app_assoc.
    + rewrite !count_snoc. lia.
Qed.

Lemma flat_map_length_const (o : ascii) (ns : list token) :
  Z.of_nat (length (flat_map (fun n => [op_token o; n]) ns))
  = 2 * Z.of_nat (length ns).
Proof.
  induction ns as [ | n ns IH]; [reflexivity | ].
  cbn [flat_map app length] in *. lia.
Qed.

Lemma left_chain_order (o : ascii) (ns : list token) :
  forall n,
    [n] ++ flat_map (fun m => [op_token o; m]) ns ++ [op_token o]
    = flat_map (fun m => [m; op_token o]) (n :: ns).
Proof.
  induction ns as [ | m ns IH]; intros n; [reflexivity | ].
  cbn [flat_map app] in *. f_equal. f_equal. apply (IH m).
Qed.

(** X12.  A chain [n0 o n1 o ... o nk] of one left-associative operator
    (any of [+ - * / %]) is applied from left to right, whatever its
    length: each operator follows its right operand in the postfix
    sequence. *)
Theorem left_associative_chain (o : ascii) (n0 : token) (ns : list token) :
  infix_op o = true -> is_right_assoc o = false ->
  numeral n0 -> Forall numeral ns ->
  2 * Z.of_nat (length ns) < MAX_TOKENS ->
  infix_to_postfix (n0 ++ flat_map (fun n => o :: n) ns)
  = Ok (n0 :: flat_map (fun n => [n; op_token o]) ns).
Proof.
  intros Ho Hl Hn0 Hns Hroom.
  assert (Hp : pops o o = true).
  { apply pops_outranks. split; [ | right; now split].
    apply infix_op_cases in Ho.
    destruct Ho as [-> | [-> | [-> | [-> | [-> | ->]]]]]; reflexivity. }
  unfold infix_to_postfix.
  rewrite scan_numeral; [ | assumption | now apply chain_head | reflexivity].
  cbn [parser_init ops postfix app].
  destruct Hns as [ | n1 ns Hn1 Hns]; [reflexivity | ].
  cbn [length] in Hroom. cbn [flat_map app].
  rewrite scan_operator, on_operator_binary by (assumption || reflexivity).
  cbn [ops postfix pop_higher bind fst snd].
  change (cs_push [] o) with (Some [o]). cbn [or_fail bind].
  rewrite scan_numeral; [ | assumption | now apply chain_head | reflexivity].
  cbn [ops postfix app].
  rewrite scan_left_chain; try assumption.
  2:{ change (count [n0; n1]) with 2. lia. }
  cbn [bind]. unfold finish. cbn [ops postfix expect_operand drain].
  assert (Hno : (o == "(") = false /\ (o == ")") = false).
  { apply infix_op_cases in Ho.
    destruct Ho as [-> | [-> | [-> | [-> | [-> | ->]]]]]; split; reflexivity. }
  destruct Hno as [-> ->]. cbn [orb].
  rewrite tokens_add_op.
  - cbn [or_fail bind]. pose proof (left_chain_order o ns n1) as E.
    cbn [flat_map app] in E. rewrite <- E. reflexivity.
  - rewrite count_app_tokens. change (count [n0; n1]) with 2.
    unfold count. rewrite flat_map_length_const. lia.
Qed.

Lemma left_associative_chain_witness :
  infix_to_postfix (cstr "9" ++ flat_map (fun n => "-"%char :: n)
                                  [cstr "4"; cstr "3"; cstr "2"])
  = Ok (map cstr ["9"; "4"; "-"; "3"; "-"; "2"; "-"]%string).
Proof.
  refine (left_associative_chain "-" (cstr "9") [cstr "4"; cstr "3"; cstr "2"]
            eq_refl eq_refl ltac:(vm_compute; intuition discriminate) _
            ltac:(vm_compute; reflexivity)).
  repeat (apply Forall_cons; [vm_compute; intuition discriminate | ]).
  apply Forall_nil.
Defined.

Lemma scan_right_chain (ns : list token) :
  Forall numeral ns ->
  forall s out,
    match s with x :: _ => x = "^"%char | [] => True end ->
    Z.of_nat (length s) + Z.of_nat (length ns) < MAX_TOKENS ->
    count out + Z.of_nat (length ns) < MAX_TOKENS ->
    scan (flat_map (fun n => "^"%char :: n) ns) (mkParser s out false)
    = Ok (mkParser (repeat "^"%char (length ns) ++ s) (out ++ ns) false).
Proof.
  intros Hns. induction Hns as [ | n ns Hn Hns IH]; intros s out Hs Hstack Hroom.
  - cbn [flat_map length repeat app]. now rewrite app_nil_r.
  - cbn [length] in Hstack, Hroom. cbn [flat_map app].
    assert (Hnn : 0 <= count out) by (unfold count; lia).
    rewrite scan_operator, on_operator_binary by reflexivity.
    cbn [ops postfix].
    assert (Hpop : pop_higher "^" s out = Ok (s, out)).
    { destruct s as [ | x s]; [reflexivity | ]. subst x. reflexivity. }
    rewrite Hpop. cbn [bind fst snd].
    rewrite cs_push_ok by lia. cbn [or_fail bind].
    rewrite scan_numeral;
      [ | assumption | now apply (chain_head "^") | cbn [postfix]; lia].
    cbn [ops postfix]. rewrite IH.
    + rewrite <- app_assoc. cbn [app length repeat].
      replace (repeat "^"%char (length ns) ++ "^"%char :: s)
        with ((repeat "^"%char (length ns) ++ ["^"%char]) ++ s)
        by (now rewrite <- app_assoc).
      now rewrite <- repeat_cons.
    + reflexivity.
    + cbn [length]. lia.
    + rewrite count_snoc. lia.
Qed.

(** X13.  A chain [n0 ^ n1 ^ ... ^ nk] is applied from right to left,
    whatever its length: the postfix sequence is all the operands in
    order, followed by all the [^]. *)
Theorem right_associative_chain (n0 : token) (ns : list token) :
  numeral n0 -> Forall numeral ns ->
  2 * Z.of_nat (length ns) < MAX_TOKENS ->
  infix_to_postfix (n0 ++ flat_map (fun n => "^"%char :: n) ns)
  = Ok (n0 :: ns ++ repeat (op_token "^") (length ns)).
Proof.
  intros Hn0 Hns Hroom. unfold infix_to_postfix.
  rewrite scan_numeral;
    [ | assumption | now apply (chain_head "^") | reflexivity].
  cbn [parser_init ops postfix app].
  rewrite scan_right_chain; try assumption; try exact I.
  2:{ cbn [length]. unfold MAX_TOKENS in *. lia. }
  2:{ change (count [n0]) with 1. unfold MAX_TOKENS in *. lia. }
  cbn [bind]. unfold finish. cbn [ops postfix expect_operand].
  rewrite app_nil_r.
  destruct (drain_room (repeat "^"%char (length ns)) ([n0] ++ ns)) as [_ Hd].
  { rewrite count_app_tokens, repeat_length. change (count [n0]) with 1.
    unfold count, MAX_TOKENS in *. lia. }
  assert (E : drain (repeat "^"%char (length ns)) ([n0] ++ ns)
              = Ok (([n0] ++ ns) ++ map op_token (repeat "^"%char (length ns)))).
  { apply Hd; intros Hin; apply repeat_spec in Hin; discriminate Hin. }
  etransitivity;
    [exact (f_equal (fun r => bind r (fun out => Ok out)) E) | ].
  cbn [bind app]. now rewrite map_repeat.
Qed.

Lemma right_associative_chain_witness :
  infix_to_postfix (cstr "2" ++ flat_map (fun n => "^"%char :: n)
                                  [cstr "3"; cstr "2"])
  = Ok (map cstr ["2"; "3"; "2"; "^"; "^"]%string).
Proof.
  refine (right_associative_chain (cstr "2") [cstr "3"; cstr "2"]
            ltac:(vm_compute; intuition discriminate) _
            ltac:(vm_compute; reflexivity)).
  repeat (apply Forall_cons; [vm_compute; intuition discriminate | ]).
  apply Forall_nil.
Defined.

(** ** Two minus signs in a row *)

(** X14.  The flag is cleared after a unary minus, so a second minus is
    taken for a binary one: for every numeral [n], "--n" parses to
    [u n -], which the evaluator refuses with "Not enough operands for
    unary minus". *)
Theorem double_minus (n : token) :
  numeral n ->
  infix_to_postfix ("-"%char :: "-"%char :: n)
  = Ok [op_token "u"; n; op_token "-"]
  /\ evaluate_postfix [op_token "u"; n; op_token "-"]
     = Err NotEnoughOperandsUnary.
Proof.
  intros Hn. split; [ | reflexivity].
  unfold infix_to_postfix.
  rewrite scan_operator by reflexivity.
  change (on_operator "-" parser_init)
    with (Ok (mkParser ["u"%char] [] false) : result parser).
  cbn [bind]. rewrite scan_operator by reflexivity.
  change (on_operator "-" (mkParser ["u"%char] [] false))
    with (Ok (mkParser ["-"%char] [op_token "u"] true) : result parser).
  cbn [bind]. rewrite scan_numeral_last; [ | assumption | reflexivity].
  cbn [bind ops postfix app]. unfold finish.
  cbn [ops postfix expect_operand drain Ascii.eqb Bool.eqb orb].
  rewrite tokens_add_op by reflexivity. reflexivity.
Qed.

Lemma double_minus_witness :
  infix_to_postfix (cstr "--2") = Ok (map cstr ["u"; "2"; "-"]%string).
Proof.
  exact (proj1 (double_minus (cstr "2")
                  ltac:(vm_compute; intuition discriminate))).
Defined.

(** * Further properties of the evaluator *)

(** ** What the evaluator never reports *)

Lemma operate_known (op : ascii) (a b : Z) :
  is_operator op = true -> (op == "u") = false ->
  operate op a b <> Err UnknownOperator.
Proof.
  intros Hop Hu. apply operator_cases in Hop.
  destruct Hop as [-> | [-> | [-> | [-> | [-> | [-> | ->]]]]]];
    try discriminate Hu; unfold operate, c_div, c_mod;
    cbn [Ascii.eqb Bool.eqb];
    repeat match goal with
           | |- context [if ?c then _ else _] => destruct c
           end;
    try discriminate.
  destruct (safe_pow_ll a b); discriminate.
Qed.

Lemma apply_op_known (op : ascii) (stk : NumStack) :
  is_operator op = true -> apply_op op stk <> Err UnknownOperator.
Proof.
  intros Hop. destruct (op == "u") eqn:Hu.
  - unfold apply_op. rewrite Hu. destruct stk as [ | a stk]; [discriminate | ].
    destruct (ns_push_cases stk (wrap (- a))) as [-> | ->]; discriminate.
  - destruct stk as [ | b [ | a stk]];
      try (unfold apply_op; rewrite Hu; discriminate).
    rewrite apply_op_binary by assumption.
    pose proof (operate_known op a b Hop Hu) as Hk.
    destruct (operate op a b) as [r | e | ]; cbn [bind];
      [ | congruence | discriminate].
    destruct (ns_push_cases stk r) as [-> | ->]; discriminate.
Qed.

Lemma eval_tokens_known (toks : TokenList) :
  forall stk, eval_tokens toks stk <> Err UnknownOperator.
Proof.
  induction toks as [ | t toks IH]; intros stk; cbn [eval_tokens];
    [discriminate | ].
  destruct (is_operator_token t) eqn:Hop.
  - destruct t as [ | c [ | ? ?]]; try discriminate.
    cbn [is_operator_token] in Hop. cbn [first_char hd].
    pose proof (apply_op_known c stk Hop) as Hk.
    destruct (apply_op c stk); cbn [bind]; [apply IH | congruence | discriminate].
  - destruct (erange (strtoll t) || negb (converted (strtoll t))
              || negb match endptr (strtoll t) with [] => true | _ => false end);
      [discriminate | ].
    destruct (ns_push_cases stk (value (strtoll t))) as [-> | ->];
      cbn [or_fail bind]; [apply IH | discriminate].
Qed.

(** X15.  The [default] branch of the [switch] in [apply_op] is dead code
    under [evaluate_postfix]: whatever the token sequence, the evaluator
    never fails with "Unknown operator in evaluation". *)
Theorem evaluate_never_unknown_operator (toks : TokenList) :
  evaluate_postfix toks <> Err UnknownOperator.
Proof.
  unfold evaluate_postfix. pose proof (eval_tokens_known toks []) as H.
  destruct (eval_tokens toks []) as [stk | e | ]; cbn [bind];
    [ | congruence | discriminate].
  destruct stk as [ | v [ | ? ?]]; discriminate.
Qed.

(** The operand stack never grows by more than one value per token. *)
Lemma apply_op_depth (c : ascii) (stk stk' : NumStack) :
  apply_op c stk = Ok stk' -> depth stk' <= depth stk.
Proof.
  unfold apply_op, depth. destruct (c == "u").
  - destruct stk as [ | a stk]; [discriminate | ].
    destruct (ns_push_cases stk (wrap (- a))) as [-> | ->]; cbn [or_fail];
      intros H; inversion H; subst. cbn [length]. lia.
  - destruct stk as [ | b [ | a stk]]; try discriminate.
    destruct (operate c a b) as [r | | ]; cbn [bind]; try discriminate.
    destruct (ns_push_cases stk r) as [-> | ->]; cbn [or_fail];
      intros H; inversion H; subst. cbn [length]. lia.
Qed.

Lemma apply_op_no_overflow (c : ascii) (stk : NumStack) :
  depth stk <= MAX_TOKENS -> apply_op c stk <> Err ValueStackOverflow.
Proof.
  unfold apply_op, depth. intros Hd. destruct (c == "u").
  - destruct stk as [ | a stk]; [discriminate | ].
    cbn [length] in Hd. rewrite ns_push_ok by lia. discriminate.
  - destruct stk as [ | b [ | a stk]]; try discriminate.
    cbn [length] in Hd.
    destruct (operate c a b) as [r | e | ] eqn:Hop; cbn [bind];
      [rewrite ns_push_ok by lia; discriminate | | discriminate].
    apply operate_errors in Hop. intros H; inversion H; subst e.
    intuition discriminate.
Qed.

Lemma eval_tokens_no_overflow (toks : TokenList) :
  forall stk,
    depth stk + count toks <= MAX_TOKENS ->
    eval_tokens toks stk <> Err ValueStackOverflow.
Proof.
  induction toks as [ | t toks IH]; intros stk Hd; cbn [eval_tokens];
    [discriminate | ].
  assert (Hc : count (t :: toks) = count toks + 1)
    by (unfold count; cbn [length]; lia).
  assert (Hnn : 0 <= count toks) by (unfold count; lia).
  destruct (is_operator_token t).
  - pose proof (apply_op_no_overflow (first_char t) stk ltac:(lia)) as Hn.
    destruct (apply_op (first_char t) stk) as [stk' | e | ] eqn:Ha;
      cbn [bind]; [ | congruence | discriminate].
    apply IH. apply apply_op_depth in Ha. lia.
  - destruct (erange (strtoll t) || negb (converted (strtoll t))
              || negb match endptr (strtoll t) with [] => true | _ => false end);
      [discriminate | ].
    rewrite ns_push_ok by (unfold depth in Hd; lia). cbn [or_fail bind].
    apply IH. unfold depth in *. cbn [length]. lia.
Qed.

(** The token list never holds more than [MAX_TOKENS] tokens. *)
Lemma tokens_add_count (tl tl' : TokenList) (t : token) :
  tokens_add tl t = Some tl' -> count tl' <= MAX_TOKENS.
Proof.
  unfold tokens_add.
  destruct (Z.geb_spec (count tl) MAX_TOKENS) as [ | Hlt]; [discriminate | ].
  intros Heq; inversion Heq; subst. rewrite count_snoc. lia.
Qed.

Lemma close_paren_count (s : CharStack) :
  forall out s' out',
    count out <= MAX_TOKENS -> close_paren s out = Ok (s', out') ->
    count out' <= MAX_TOKENS.
Proof.
  induction s as [ | top s IH]; intros out s' out' Hc H; cbn [close_paren] in H;
    [discriminate | ].
  destruct (top == "("); [now inversion H; subst | ].
  destruct (tokens_add out [top]) as [out1 | ] eqn:Ha; [ | discriminate].
  cbn [or_fail bind] in H. eapply IH; [ | eassumption].
  eapply tokens_add_count; eassumption.
Qed.

Lemma pop_higher_count (op : ascii) (s : CharStack) :
  forall out s' out',
    count out <= MAX_TOKENS -> pop_higher op s out = Ok (s', out') ->
    count out' <= MAX_TOKENS.
Proof.
  induction s as [ | top s IH]; intros out s' out' Hc H; cbn [pop_higher] in H;
    [now inversion H; subst | ].
  destruct (pops top op); [ | now inversion H; subst].
  destruct (tokens_add out [top]) as [out1 | ] eqn:Ha; [ | discriminate].
  cbn [or_fail bind] in H. eapply IH; [ | eassumption].
  eapply tokens_add_count; eassumption.
Qed.

Lemma drain_count (s : CharStack) :
  forall out out',
    count out <= MAX_TOKENS -> drain s out = Ok out' ->
    count out' <= MAX_TOKENS.
Proof.
  induction s as [ | top s IH]; intros out out' Hc H; cbn [drain] in H;
    [now inversion H; subst | ].
  destruct ((top == "(") || (top == ")")); [discriminate | ].
  destruct (tokens_add out [top]) as [out1 | ] eqn:Ha; [ | discriminate].
  cbn [or_fail bind] in H. eapply IH; [ | eassumption].
  eapply tokens_add_count; eassumption.
Qed.

Lemma step_count (c : ascii) (rest : list ascii) (st st' : parser)
    (rest' : list ascii) :
  count (postfix st) <= MAX_TOKENS -> step c rest st = Ok (st', rest') ->
  count (postfix st') <= MAX_TOKENS.
Proof.
  unfold step. intros Hc H.
  destruct (isspace c); [now inversion H; subst | ].
  destruct (isdigit c).
  { destruct (read_number rest [c]) as [[buf r] | | ]; try discriminate.
    cbn [bind] in H. unfold on_number in H.
    destruct (tokens_add (postfix st) buf) as [out | ] eqn:Ha; [ | discriminate].
    cbn [or_fail bind] in H. inversion H; subst. cbn [postfix].
    eapply tokens_add_count; eassumption. }
  destruct (c == "(").
  { unfold on_open in H. destruct (cs_push (ops st) "("); [ | discriminate].
    cbn [or_fail bind] in H. now inversion H; subst. }
  destruct (c == ")").
  { unfold on_close in H.
    destruct (close_paren (ops st) (postfix st)) as [[s out] | | ] eqn:Hcl;
      try discriminate.
    cbn [bind] in H. inversion H; subst. cbn [postfix].
    eapply close_paren_count; eassumption. }
  destruct (is_operator c); [ | discriminate].
  unfold on_operator in H.
  destruct (classify c (expect_operand st)) as [op | | ]; try discriminate.
  cbn [bind] in H.
  destruct (pop_higher op (ops st) (postfix st)) as [[s out] | | ] eqn:Hph;
    try discriminate.
  cbn [bind] in H. destruct (cs_push s op); [ | discriminate].
  cbn [or_fail bind] in H. inversion H; subst. cbn [postfix].
  eapply pop_higher_count; eassumption.
Qed.

Lemma infix_to_postfix_count (expr : list ascii) (toks : TokenList) :
  infix_to_postfix expr = Ok toks -> count toks <= MAX_TOKENS.
Proof.
  unfold infix_to_postfix. intros H.
  destruct (scan expr parser_init) as [st | | ] eqn:Hscan; try discriminate.
  cbn [bind] in H.
  assert (Hst : count (postfix st) <= MAX_TOKENS).
  { pose proof (scan_rule (fun _ st0 => count (postfix st0) <= MAX_TOKENS)
      (fun r => match r with
                | Ok st0 => count (postfix st0) <= MAX_TOKENS
                | _ => True
                end)) as R.
    specialize (R (fun _ _ H0 _ => H0)).
    assert (Hs : forall c rest st0,
      c <> NUL -> count (postfix st0) <= MAX_TOKENS ->
      match step c rest st0 with
      | Ok (st1, _) => count (postfix st1) <= MAX_TOKENS
      | _ => True
      end).
    { intros c rest st0 _ H0.
      destruct (step c rest st0) as [[st1 r1] | | ] eqn:Hs; auto.
      eapply step_count; eassumption. }
    specialize (R Hs expr parser_init ltac:(vm_compute; discriminate)).
    now rewrite Hscan in R. }
  unfold finish in H.
  destruct (drain (ops st) (postfix st)) as [out | | ] eqn:Hd; try discriminate.
  cbn [bind] in H. destruct (expect_operand st); [discriminate | ].
  inversion H; subst. eapply drain_count; eassumption.
Qed.

(** X16.  The operand stack cannot overflow on a postfix sequence of at
    most [MAX_TOKENS] tokens, and the parser never produces a longer one:
    evaluating what [infix_to_postfix] returns never fails with "Value
    stack overflow". *)
Theorem evaluate_never_overflows (expr : list ascii) (toks : TokenList) :
  infix_to_postfix expr = Ok toks ->
  count toks <= MAX_TOKENS
  /\ evaluate_postfix toks <> Err ValueStackOverflow.
Proof.
  intros Hparse. pose proof (infix_to_postfix_count expr toks Hparse) as Hc.
  split; [assumption | ].
  unfold evaluate_postfix.
  pose proof (eval_tokens_no_overflow toks [] ltac:(cbn; lia)) as H.
  destruct (eval_tokens toks []) as [stk | e | ]; cbn [bind];
    [ | congruence | discriminate].
  destruct stk as [ | v [ | ? ?]]; discriminate.
Qed.

Lemma evaluate_never_overflows_witness :
  evaluate_postfix (map cstr ["2"; "3"; "4"; "*"; "+"]%string)
  <> Err ValueStackOverflow.
Proof.
  exact (proj2 (evaluate_never_overflows (cstr "2+3*4")
                  (map cstr ["2"; "3"; "4"; "*"; "+"]%string)
                  ltac:(vm_compute; reflexivity))).
Defined.

(** ** Evaluating a sequence in two parts *)

(** X18.  Postfix sequences compose: evaluating [a ++ b] is evaluating
    [a] and then [b] on the stack that [a] leaves; an error in [a] is the
    error of the whole, and [b] is not looked at. *)
Theorem eval_tokens_app (a b : TokenList) (stk : NumStack) :
  eval_tokens (a ++ b) stk = bind (eval_tokens a stk) (eval_tokens b).
Proof.
  revert stk. induction a as [ | t a IH]; intros stk; cbn [app eval_tokens];
    [reflexivity | ].
  destruct (is_operator_token t).
  - rewrite bind_assoc.
    destruct (apply_op (first_char t) stk); cbn [bind]; [apply IH | | ];
      reflexivity.
  - destruct (erange (strtoll t) || negb (converted (strtoll t))
              || negb match endptr (strtoll t) with [] => true | _ => false end);
      [reflexivity | ].
    rewrite bind_assoc.
    destruct (or_fail (ns_push stk (value (strtoll t))) ValueStackOverflow);
      cbn [bind]; [apply IH | | ]; reflexivity.
Qed.


(** ** Wrap-around arithmetic *)

Lemma wrap_spec (z : Z) : exists k, wrap z = z + k * 2 ^ 64.
Proof.
  unfold wrap. exists (- ((z - LLONG_MIN) / 2 ^ 64)).
  pose proof (Z.div_mod (z - LLONG_MIN) (2 ^ 64) ltac:(lia)) as H. lia.
Qed.

Lemma wrap_unique (z r k : Z) : in_range r -> r = z + k * 2 ^ 64 -> wrap z = r.
Proof.
  intros Hr ->. unfold wrap.
  replace (z - LLONG_MIN) with (z + k * 2 ^ 64 - LLONG_MIN + (- k) * 2 ^ 64) by ring.
  rewrite Z.mod_add by lia.
  rewrite Z.mod_small; [ring | ].
  unfold in_range, LLONG_MIN, LLONG_MAX in *. lia.
Qed.

Lemma wrap_neg_neg (a : Z) : in_range a -> wrap (- wrap (- a)) = a.
Proof.
  intros Ha. destruct (wrap_spec (- a)) as [k Hk].
  apply (wrap_unique _ a k); [assumption | ]. rewrite Hk. ring.
Qed.

Lemma wrap_add_sub (a b : Z) : in_range a -> wrap (wrap (a + b) - b) = a.
Proof.
  intros Ha. destruct (wrap_spec (a + b)) as [k Hk].
  apply (wrap_unique _ a (- k)); [assumption | ]. rewrite Hk. ring.
Qed.

Lemma wrap_sub_add (a b : Z) : in_range a -> wrap (wrap (a - b) + b) = a.
Proof.
  intros Ha. destruct (wrap_spec (a - b)) as [k Hk].
  apply (wrap_unique _ a (- k)); [assumption | ]. rewrite Hk. ring.
Qed.

(** X19.  Unary minus undoes itself on every [long long], [LLONG_MIN]
    included (which it leaves as it is): on a stack within its capacity,
    applying it twice gives the stack back. *)
Theorem unary_minus_involutive (a : Z) (stk : NumStack) :
  in_range a -> depth (a :: stk) <= MAX_TOKENS ->
  (stk' <- apply_op "u" (a :: stk) ;; apply_op "u" stk') = Ok (a :: stk)
  /\ apply_op "u" [LLONG_MIN] = Ok [LLONG_MIN].
Proof.
  intros Ha Hd. split; [ | vm_compute; reflexivity].
  unfold depth in Hd. cbn [length] in Hd.
  unfold apply_op. cbn [Ascii.eqb Bool.eqb].
  rewrite ns_push_ok by lia. cbn [or_fail bind].
  rewrite ns_push_ok by lia. cbn [or_fail].
  now rewrite wrap_neg_neg.
Qed.

Lemma unary_minus_involutive_witness :
  (stk' <- apply_op "u" [7; 3] ;; apply_op "u" stk') = Ok [7; 3].
Proof.
  exact (proj1 (unary_minus_involutive 7 [3]
                  ltac:(vm_compute; split; discriminate)
                  ltac:(vm_compute; discriminate))).
Defined.

(** X20.  Addition and subtraction wrap around consistently: adding [b] and
    then subtracting it (or the other way round) gives the first operand
    back, also when the sum or the difference overflows. *)
Theorem add_sub_round_trip (a b : Z) (stk : NumStack) :
  in_range a -> depth (b :: a :: stk) <= MAX_TOKENS ->
  (stk' <- apply_op "+" (b :: a :: stk) ;; apply_op "-" (b :: stk'))
  = Ok (a :: stk)
  /\ (stk' <- apply_op "-" (b :: a :: stk) ;; apply_op "+" (b :: stk'))
     = Ok (a :: stk).
Proof.
  intros Ha Hd. unfold depth in Hd. cbn [length] in Hd.
  unfold apply_op, operate. cbn [Ascii.eqb Bool.eqb bind].
  rewrite !ns_push_ok by lia. cbn [or_fail bind].
  rewrite !ns_push_ok by lia. cbn [or_fail].
  now rewrite wrap_add_sub, wrap_sub_add.
Qed.

Lemma add_sub_round_trip_witness :
  (stk' <- apply_op "+" [1; LLONG_MAX] ;; apply_op "-" (1 :: stk'))
  = Ok [LLONG_MAX].
Proof.
  exact (proj1 (add_sub_round_trip LLONG_MAX 1 []
                  ltac:(vm_compute; split; discriminate)
                  ltac:(vm_compute; discriminate))).
Defined.

(** ** The value of an expression tree *)

Lemma eval_postorder (e : expr) :
  well_formed e ->
  forall rest stk,
    depth stk + count (postorder e) <= MAX_TOKENS ->
    eval_tokens (postorder e ++ rest) stk
    = bind (eval_expr e) (fun v => eval_tokens rest (v :: stk)).
Proof.
  induction e as [ds | e IH | op l IHl r IHr];
    cbn [well_formed postorder eval_expr]; intros Hwf rest stk Hroom.
  - cbn [app eval_tokens].
    assert (Hop : is_operator_token ds = false).
    { destruct Hwf as (Hne & Hds & _). destruct ds as [ | c ds];
        [contradiction | ].
      cbn [forallb] in Hds. apply andb_prop in Hds.
      now apply numeral_token. }
    rewrite Hop, (strtoll_numeral ds Hwf).
    destruct (decimal ds >? LLONG_MAX); [reflexivity | ].
    cbn [erange converted endptr value orb negb].
    rewrite ns_push_ok; [reflexivity | ].
    unfold depth, count in Hroom. cbn [length] in Hroom. lia.
  - pose proof (postorder_count e Hwf) as Hc.
    rewrite count_app_tokens in Hroom.
    change (count [op_token "u"]) with 1 in Hroom.
    rewrite <- app_assoc, IH by (assumption || lia).
    rewrite bind_assoc.
    destruct (eval_expr e) as [a | | ]; cbn [bind]; try reflexivity.
    cbn [app eval_tokens op_token is_operator_token first_char hd].
    cbn [is_operator Ascii.eqb Bool.eqb orb].
    unfold apply_op. cbn [Ascii.eqb Bool.eqb].
    rewrite ns_push_ok; [reflexivity | ].
    unfold depth in Hroom. lia.
  - destruct Hwf as (Hop & Hl & Hr).
    pose proof (postorder_count l Hl) as Hcl.
    pose proof (postorder_count r Hr) as Hcr.
    rewrite !count_app_tokens in Hroom.
    change (count [op_token op]) with 1 in Hroom.
    rewrite <- app_assoc, IHl by (assumption || lia).
    rewrite bind_assoc.
    destruct (eval_expr l) as [a | | ]; cbn [bind]; try reflexivity.
    rewrite <- app_assoc, IHr
      by (assumption || (unfold depth in *; cbn [length]; lia)).
    rewrite bind_assoc.
    destruct (eval_expr r) as [b | | ]; cbn [bind]; try reflexivity.
    cbn [app eval_tokens op_token is_operator_token first_char hd].
    assert (Hisop : is_operator op = true).
    { apply infix_op_cases in Hop.
      destruct Hop as [-> | [-> | [-> | [-> | [-> | ->]]]]]; reflexivity. }
    rewrite Hisop, apply_op_binary by now apply infix_op_not_unary.
    destruct (operate op a b) as [v | | ]; cbn [bind]; try reflexivity.
    rewrite ns_push_ok; [reflexivity | ].
    unfold depth in Hroom. lia.
Qed.

(** X21.  [evaluate_postfix] computes the value of the expression tree:
    on the postfix order of a tree of at most [MAX_TOKENS] tokens it
    returns what the tree evaluates to, operands left to right, and the
    same error where the tree has none. *)
Theorem postfix_evaluates_tree (e : expr) :
  well_formed e ->
  count (postorder e) <= MAX_TOKENS ->
  evaluate_postfix (postorder e) = eval_expr e.
Proof.
  intros Hwf Hc. unfold evaluate_postfix.
  rewrite <- (app_nil_r (postorder e)).
  rewrite eval_postorder by (assumption || (cbn; lia)).
  rewrite bind_assoc. destruct (eval_expr e); reflexivity.
Qed.

Lemma postfix_evaluates_tree_witness :
  evaluate_postfix (map cstr ["12"; "u"; "3"; "4"; "+"; "*"]%string)
  = Ok (-84).
Proof.
  exact (postfix_evaluates_tree
           (Bin "*" (Neg (Num (cstr "12")))
                    (Bin "+" (Num (cstr "3")) (Num (cstr "4"))))
           ltac:(vm_compute; intuition discriminate)
           ltac:(vm_compute; discriminate)).
Defined.

(** X22.  End to end, the calculator agrees with the tree: parsing the
    text of a fully parenthesised expression that fits a line and
    evaluating the result gives the value of the expression, or its
    error. *)
Theorem calculator_agrees_with_tree (e : expr) :
  well_formed e ->
  Z.of_nat (length (render e)) < MAX_EXPR ->
  (toks <- infix_to_postfix (render e) ;; evaluate_postfix toks)
  = eval_expr e.
Proof.
  intros Hwf Hlen.
  pose proof (postorder_count e Hwf) as Hc.
  unfold infix_to_postfix, evaluate_postfix.
  rewrite <- (app_nil_r (render e)).
  rewrite scan_render; [ | assumption | exact I | rewrite size_init; lia].
  rewrite scan_nil. cbn [bind parser_init ops postfix app].
  unfold finish. cbn [ops postfix expect_operand drain bind].
  rewrite <- (app_nil_r (postorder e)).
  rewrite eval_postorder
    by (assumption || (unfold depth, MAX_EXPR, MAX_TOKENS in *; cbn [length]; lia)).
  rewrite bind_assoc. destruct (eval_expr e); reflexivity.
Qed.

Lemma calculator_agrees_with_tree_witness :
  calculate "((7%(-3))/(2-2))" = Err DivisionByZero.
Proof.
  exact (calculator_agrees_with_tree
           (Bin "/" (Bin "%" (Num (cstr "7")) (Neg (Num (cstr "3"))))
                    (Bin "-" (Num (cstr "2")) (Num (cstr "2"))))
           ltac:(vm_compute; intuition discriminate)
           ltac:(vm_compute; reflexivity)).
Defined.
(** ** Exact arithmetic *)

Lemma operate_exact (op : ascii) (a b : Z) :
  infix_op op = true ->
  Z.abs a <= LLONG_MAX -> Z.abs b <= LLONG_MAX ->
  Z.abs (math_op op a b) <= LLONG_MAX ->
  ((op == "/") || (op == "%") = true -> b <> 0) ->
  ((op == "^") = true -> 0 <= b) ->
  operate op a b = Ok (math_op op a b).
Proof.
  intros Hop Ha Hb Hr Hdiv Hexp.
  assert (Hq : b <> 0 -> Z.quot a b <= LLONG_MAX).
  { intros Hnz. apply quot_representable; [now apply abs_in_range | assumption | ].
    intros [-> _]. vm_compute in Ha. now apply Ha. }
  apply infix_op_cases in Hop.
  destruct Hop as [-> | [-> | [-> | [-> | [-> | ->]]]]];
    unfold operate, math_op in *; cbn [Ascii.eqb Bool.eqb orb] in *.
  - now rewrite wrap_id by now apply abs_in_range.
  - now rewrite wrap_id by now apply abs_in_range.
  - specialize (Hdiv eq_refl).
    destruct (Z.eqb_spec b 0) as [ | _]; [contradiction | ].
    unfold c_div.
    destruct (Z.gtb_spec (Z.quot a b) LLONG_MAX); [specialize (Hq Hdiv); lia | ].
    reflexivity.
  - specialize (Hdiv eq_refl).
    destruct (Z.eqb_spec b 0) as [ | _]; [contradiction | ].
    unfold c_mod.
    destruct (Z.gtb_spec (Z.quot a b) LLONG_MAX); [specialize (Hq Hdiv); lia | ].
    reflexivity.
  - rewrite safe_pow_ll_spec by auto.
    destruct (Z.leb_spec (Z.abs (a ^ b)) LLONG_MAX); [reflexivity | lia].
  - now rewrite wrap_id by now apply abs_in_range.
Qed.

Lemma eval_expr_exact (e : expr) :
  well_formed e -> within_range e ->
  eval_expr e = Ok (math_value e) /\ Z.abs (math_value e) <= LLONG_MAX.
Proof.
  induction e as [ds | e IH | op l IHl r IHr];
    cbn [well_formed within_range eval_expr math_value].
  - intros (_ & Hds & _) Hfit.
    pose proof (decimal_nonneg ds Hds) as Hnn.
    destruct (Z.gtb_spec (decimal ds) LLONG_MAX); [lia | ].
    split; [reflexivity | lia].
  - intros Hwf Hr. destruct (IH Hwf Hr) as [-> Ha]. cbn [bind].
    rewrite wrap_id by (apply abs_in_range; lia).
    split; [reflexivity | lia].
  - intros (Hop & Hl & Hr) (Hrl & Hrr & Hfit & Hdiv & Hexp).
    destruct (IHl Hl Hrl) as [-> Ha]. destruct (IHr Hr Hrr) as [-> Hb].
    cbn [bind]. split; [ | assumption].
    now apply operate_exact.
Qed.

(** X17.  Within the range of [long long] the calculator is exact: for a
    fully parenthesised expression that fits a line, whose numerals and
    intermediate results all have a magnitude of at most [LLONG_MAX], with
    no zero divisor and no negative exponent, parsing and evaluating gives
    the value of the expression in the integers.  Neither wrap-around nor
    the cautious overflow test of the power changes a result there. *)
Theorem exact_within_range (e : expr) :
  well_formed e -> within_range e ->
  Z.of_nat (length (render e)) < MAX_EXPR ->
  (toks <- infix_to_postfix (render e) ;; evaluate_postfix toks)
  = Ok (math_value e).
Proof.
  intros Hwf Hfit Hlen.
  pose proof (postorder_count e Hwf) as Hc.
  unfold infix_to_postfix, evaluate_postfix.
  rewrite <- (app_nil_r (render e)).
  rewrite scan_render; [ | assumption | exact I | rewrite size_init; lia].
  rewrite scan_nil. cbn [bind parser_init ops postfix app].
  unfold finish. cbn [ops postfix expect_operand drain bind].
  rewrite <- (app_nil_r (postorder e)).
  rewrite eval_postorder
    by (assumption || (unfold depth, MAX_EXPR, MAX_TOKENS in *; cbn [length]; lia)).
  rewrite bind_assoc.
  destruct (eval_expr_exact e Hwf Hfit) as [-> _]. reflexivity.
Qed.

Lemma exact_within_range_witness :
  calculate "(((-2)^61)-((7%(-3))*(100/(-7))))" = Ok (-2305843009213693938).
Proof.
  exact (exact_within_range
           (Bin "-" (Bin "^" (Neg (Num (cstr "2"))) (Num (cstr "61")))
                    (Bin "*" (Bin "%" (Num (cstr "7")) (Neg (Num (cstr "3"))))
                             (Bin "/" (Num (cstr "100")) (Neg (Num (cstr "7"))))))
           ltac:(vm_compute; intuition discriminate)
           ltac:(vm_compute; intuition discriminate)
           ltac:(vm_compute; reflexivity)).
Defined.

(** ** The printed line *)

Lemma wf_token_chars (t : token) (c : ascii) :
  wf_token t -> In c t ->
  (is_operator c = true /\ t = op_token c) \/ isdigit c = true.
Proof.
  intros [(x & -> & Hx) | (_ & Hds & _)] Hin.
  - destruct Hin as [<- | []]. now left.
  - right. rewrite forallb_forall in Hds. now apply Hds.
Qed.

Lemma print_wf_tokens (toks : TokenList) :
  Forall wf_token toks ->
  exists body,
    print_postfix toks = body ++ ["010"%char]
    /\ ~ In "010"%char body /\ ~ In "u"%char body.
Proof.
  induction toks as [ | t toks IH]; intros Hwf.
  - exists []. repeat split; intros [].
  - inversion Hwf as [ | ? ? Ht Hrest]; subst.
    destruct (IH Hrest) as (body & Heq & Hnl & Hu).
    cbn [print_postfix]. rewrite Heq.
    set (shown := match t with
                  | [c] => if c == "u" then ["~"%char] else t
                  | _ => t
                  end).
    set (sep := match toks with [] => [] | _ :: _ => [" "%char] end).
    assert (Hshown : ~ In "010"%char shown /\ ~ In "u"%char shown).
    { subst shown. destruct Ht as [(x & -> & Hx) | Hnum].
      - cbn [op_token]. destruct (Ascii.eqb_spec x "u") as [-> | Hne].
        + split; intros [H | []]; discriminate H.
        + split; intros [H | []]; [subst x; discriminate Hx | now apply Hne].
      - assert (Hd : forall c, In c t -> isdigit c = true).
        { destruct Hnum as (_ & Hds & _). now rewrite forallb_forall in Hds. }
        assert (Hgoal : ~ In "010"%char t /\ ~ In "u"%char t).
        { split; intros Hin; apply Hd in Hin; discriminate Hin. }
        destruct t as [ | c [ | ? ?]]; try exact Hgoal.
        destruct (Ascii.eqb_spec c "u") as [-> | _]; [ | exact Hgoal].
        exfalso. specialize (Hd "u"%char ltac:(now left)). discriminate Hd. }
    assert (Hsep : ~ In "010"%char sep /\ ~ In "u"%char sep).
    { subst sep. destruct toks; split; intros Hin;
        try destruct Hin as [H | []]; try discriminate H; destruct Hin. }
    exists (shown ++ sep ++ body). rewrite <- !app_assoc.
    split; [reflexivity | ].
    split; intros Hin; repeat (apply in_app_or in Hin; destruct Hin as [Hin | Hin]);
      tauto.
Qed.

(** X23.  The postfix line printed for an input that parses is one line,
    ended by its only newline, and never shows the internal tag [u]:
    unary minus is printed as [~]. *)
Theorem printed_line (expr : list ascii) (toks : TokenList) :
  infix_to_postfix expr = Ok toks ->
  exists body,
    print_postfix toks = body ++ ["010"%char]
    /\ ~ In "010"%char body /\ ~ In "u"%char body.
Proof.
  intros H. apply print_wf_tokens. eapply infix_to_postfix_wf. eassumption.
Qed.

Lemma printed_line_witness :
  exists body,
    print_postfix (map cstr ["2"; "u"; "2"; "^"]%string) = body ++ ["010"%char]
    /\ ~ In "010"%char body /\ ~ In "u"%char body.
Proof.
  exact (printed_line (cstr "-2^2") (map cstr ["2"; "u"; "2"; "^"]%string)
           ltac:(vm_compute; reflexivity)).
Defined.
